(** * vulcan-prd-cli: the registry upsert, the slug and the publish workflow

    A shallow embedding of [src/validate.ts], [src/git.ts],
    [src/publish.ts], [src/github.ts], [src/prd-types.ts] and the action
    of the command line, the properties of the specification checked
    against it, and further properties of the code.

    JavaScript strings are sequences of UTF-16 code units; objects and
    arrays live in a store and are passed by reference; the clock, the file
    system, the remote repository and the built-ins of the engine that are
    not re-implemented here ([toLowerCase], [JSON.parse], [JSON.stringify])
    are parameters of the model. *)

From Stdlib Require Import NArith ZArith List String Ascii Lia Bool DecimalString.
From Stdlib Require DecimalNat.
From stdpp Require Import base list.
Import ListNotations.

(** ** Strings *)

Module JsString.

(** A string is the list of its UTF-16 code units. *)
Definition jsstring := list N.

Definition js (s : string) : jsstring :=
  map N_of_ascii (list_ascii_of_string s).

Fixpoint eqb (a b : jsstring) : bool :=
  match a, b with
  | [], [] => true
  | x :: a', y :: b' => N.eqb x y && eqb a' b'
  | _, _ => false
  end.

Definition in_range (lo hi c : N) : bool := (N.leb lo c && N.leb c hi)%bool.

Definition is_lower (c : N) : bool := in_range 97 122 c.
Definition is_upper (c : N) : bool := in_range 65 90 c.
Definition is_digit (c : N) : bool := in_range 48 57 c.

(** [[a-z0-9]] *)
Definition is_alnum (c : N) : bool := (is_lower c || is_digit c)%bool.

Definition hyphen : N := 45.
Definition is_hyphen (c : N) : bool := N.eqb c hyphen.

(** LineTerminator: LF, CR, LS, PS. *)
Definition is_line_terminator (c : N) : bool :=
  (N.eqb c 10 || N.eqb c 13 || N.eqb c 8232 || N.eqb c 8233)%bool.

(** WhiteSpace and LineTerminator, the set behind [\s] and [trim]. *)
Definition is_space (c : N) : bool :=
  (in_range 9 13 c || N.eqb c 32 || N.eqb c 160 || N.eqb c 5760
   || in_range 8192 8202 c || N.eqb c 8232 || N.eqb c 8233
   || N.eqb c 8239 || N.eqb c 8287 || N.eqb c 12288 || N.eqb c 65279)%bool.

Fixpoint drop_while (p : N -> bool) (s : jsstring) : jsstring :=
  match s with
  | [] => []
  | c :: s' => if p c then drop_while p s' else s
  end.

(** [s.trim()] *)
Definition trim (s : jsstring) : jsstring :=
  rev (drop_while is_space (rev (drop_while is_space s))).

(** [s.substring(0, n)] *)
Definition substring0 (n : nat) (s : jsstring) : jsstring := take n s.

Fixpoint startsWith (p s : jsstring) : bool :=
  match p, s with
  | [], _ => true
  | x :: p', y :: s' => N.eqb x y && startsWith p' s'
  | _ :: _, [] => false
  end.

(** [s.includes(p)] *)
Fixpoint includes (p s : jsstring) : bool :=
  startsWith p s ||
  match s with
  | [] => false
  | _ :: s' => includes p s'
  end.

(** [parts.join(sep)] *)
Fixpoint join (sep : jsstring) (parts : list jsstring) : jsstring :=
  match parts with
  | [] => []
  | [p] => p
  | p :: rest => p ++ sep ++ join sep rest
  end.

(** [s.split(c)] for a separator of one code unit. *)
Fixpoint split (c : N) (s : jsstring) : list jsstring :=
  match s with
  | [] => [[]]
  | x :: s' =>
      if N.eqb x c then [] :: split c s'
      else match split c s' with
           | [] => [[x]]
           | p :: ps => (x :: p) :: ps
           end
  end.

(** The ASCII part of [toLowerCase]. *)
Definition ascii_lower (c : N) : N := if is_upper c then (c + 32)%N else c.

Definition is_ascii (c : N) : bool := N.ltb c 128.

End JsString.
Import JsString.

(** ** Regular expressions

    A backtracking matcher for the fragment of the JavaScript regular
    expressions the program uses: literals, classes, sequence, alternation,
    greedy and lazy repetition, the anchors (with the [m] flag as a
    parameter) and numbered capture groups. *)

Module Regex.

Inductive regex : Type :=
| Eps
| Chr (c : N)
| Cls (p : N -> bool)
| Seq (r1 r2 : regex)
| Alt (r1 r2 : regex)
| Star (greedy : bool) (r : regex)
| Bol
| Eol
| Grp (i : nat) (r : regex).

Definition Plus (greedy : bool) (r : regex) : regex := Seq r (Star greedy r).
Definition Opt (r : regex) : regex := Alt r Eps.

Fixpoint Lit (s : jsstring) : regex :=
  match s with
  | [] => Eps
  | c :: s' => Seq (Chr c) (Lit s')
  end.

(** The text already passed (latest unit first), the text ahead, and the
    captures made on the way. *)
Record mstate : Type := MState {
  before : jsstring;
  after : jsstring;
  caps : list (nat * jsstring)
}.

Definition step (st : mstate) (c : N) (rest : jsstring) : mstate :=
  MState (c :: before st) rest (caps st).

Definition at_bol (multiline : bool) (st : mstate) : bool :=
  match before st with
  | [] => true
  | c :: _ => multiline && is_line_terminator c
  end.

Definition at_eol (multiline : bool) (st : mstate) : bool :=
  match after st with
  | [] => true
  | c :: _ => multiline && is_line_terminator c
  end.

Definition consumed (st st' : mstate) : jsstring :=
  take (length (after st) - length (after st')) (after st).

Definition capture (i : nat) (st st' : mstate) : mstate :=
  MState (before st') (after st') ((i, consumed st st') :: caps st').

(** Repetition of [body]: every round has to move forward (the engine
    rejects an empty round), so [fuel], the number of units ahead at the
    start, is never exhausted before the rounds are. No group of this
    program stands under a repetition, so captures need no reset. *)
Fixpoint star_loop (body : mstate -> (mstate -> option mstate) -> option mstate)
    (greedy : bool) (k : mstate -> option mstate) (fuel : nat) (st : mstate)
    {struct fuel} : option mstate :=
  match fuel with
  | O => k st
  | S fuel' =>
      let more :=
        body st (fun st1 =>
          if Nat.ltb (length (after st1)) (length (after st))
          then star_loop body greedy k fuel' st1 else None) in
      if greedy then
        match more with Some res => Some res | None => k st end
      else
        match k st with Some res => Some res | None => more end
  end.

Fixpoint m (multiline : bool) (r : regex) (st : mstate)
    (k : mstate -> option mstate) {struct r} : option mstate :=
  match r with
  | Eps => k st
  | Chr c =>
      match after st with
      | x :: rest => if N.eqb x c then k (step st x rest) else None
      | [] => None
      end
  | Cls p =>
      match after st with
      | x :: rest => if p x then k (step st x rest) else None
      | [] => None
      end
  | Seq r1 r2 => m multiline r1 st (fun st1 => m multiline r2 st1 k)
  | Alt r1 r2 =>
      match m multiline r1 st k with
      | Some res => Some res
      | None => m multiline r2 st k
      end
  | Star greedy r1 =>
      star_loop (m multiline r1) greedy k (length (after st)) st
  | Bol => if at_bol multiline st then k st else None
  | Eol => if at_eol multiline st then k st else None
  | Grp i r1 => m multiline r1 st (fun st1 => k (capture i st st1))
  end.

(** One attempt at the current position. *)
Definition match_here (multiline : bool) (r : regex)
    (prev s : jsstring) : option mstate :=
  m multiline r (MState prev s []) Some.

(** The leftmost match at or after the current position: the number of
    units skipped before it, the text it was tried on, and the final
    state. *)
Fixpoint search (multiline : bool) (r : regex) (prev s : jsstring)
    : option (jsstring * jsstring * mstate) :=
  match match_here multiline r prev s with
  | Some st => Some ([], s, st)
  | None =>
      match s with
      | [] => None
      | c :: s' =>
          match search multiline r (c :: prev) s' with
          | Some (skipped, at_, st) => Some (c :: skipped, at_, st)
          | None => None
          end
      end
  end.

(** [s.match(r)] without the [g] flag: the captures of the leftmost
    match, or nothing. *)
Definition exec (multiline : bool) (r : regex) (s : jsstring)
    : option (list (nat * jsstring)) :=
  match search multiline r [] s with
  | Some (_, _, st) => Some (caps st)
  | None => None
  end.

Definition test (multiline : bool) (r : regex) (s : jsstring) : bool :=
  match exec multiline r s with Some _ => true | None => false end.

(** [match[i]]: the latest capture of group [i]. *)
Fixpoint group (i : nat) (cs : list (nat * jsstring)) : option jsstring :=
  match cs with
  | [] => None
  | (j, t) :: cs' => if Nat.eqb i j then Some t else group i cs'
  end.

(** [s.replace(r, rep)] with the [g] flag and a replacement without
    patterns: scan left to right; where the expression matches, emit the
    replacement and pass over the match ([skip] counts the units of the
    match still to pass); an empty match copies one unit and moves on. *)
Fixpoint replace_scan (multiline : bool) (r : regex) (rep : jsstring)
    (prev : jsstring) (skip : nat) (s : jsstring) : jsstring :=
  match skip with
  | S n =>
      match s with
      | [] => []
      | c :: s' => replace_scan multiline r rep (c :: prev) n s'
      end
  | O =>
      match match_here multiline r prev s with
      | Some st =>
          match length s - length (after st), s with
          | S n, c :: s' =>
              rep ++ replace_scan multiline r rep (c :: prev) n s'
          | O, c :: s' =>
              rep ++ c :: replace_scan multiline r rep (c :: prev) O s'
          | _, [] => rep
          end
      | None =>
          match s with
          | [] => []
          | c :: s' => c :: replace_scan multiline r rep (c :: prev) O s'
          end
      end
  end.

Definition replace_g (multiline : bool) (r : regex) (rep s : jsstring)
    : jsstring :=
  replace_scan multiline r rep [] O s.

(** [s.replace(r, rep)] without the [g] flag: the leftmost match only. *)
Definition replace_first (multiline : bool) (r : regex) (rep s : jsstring)
    : jsstring :=
  match search multiline r [] s with
  | Some (skipped, _, st) => skipped ++ rep ++ after st
  | None => s
  end.

End Regex.
Import Regex.

(** ** Naming ([src/validate.ts], [sanitizeFilename]) *)

Module Naming.

(** [/[^a-z0-9]+/g] *)
Definition re_non_alnum : regex := Plus true (Cls (fun c => negb (is_alnum c))).

(** [/^-+|-+$/g] *)
Definition re_edge_hyphens : regex :=
  Alt (Seq Bol (Plus true (Chr hyphen))) (Seq (Plus true (Chr hyphen)) Eol).

(** [/-+/g] *)
Definition re_hyphens : regex := Plus true (Chr hyphen).

Definition fallback_slug : jsstring := js "data-product-prd".

Section Sanitize.

(** [String.prototype.toLowerCase], a built-in of the engine. *)
Variable toLowerCase : jsstring -> jsstring.

(** The chain of calls before [|| 'data-product-prd']. *)
Definition clean (name : jsstring) : jsstring :=
  substring0 100
    (replace_g false re_hyphens (js "-")
       (replace_g false re_edge_hyphens (js "")
          (replace_g false re_non_alnum (js "-")
             (toLowerCase name)))).

(** The empty string is the only falsy string. *)
Definition sanitizeFilename (name : jsstring) : jsstring :=
  match clean name with
  | [] => fallback_slug
  | s => s
  end.

End Sanitize.

End Naming.
Import Naming.

(** ** Values, the store and effects *)

Module Js.

(** Locations of the store. *)
Abbreviation loc := nat.

(** A number is kept as its IEEE-754 binary64 bit pattern: the program
    only carries numbers around and compares them with [===]. *)
Inductive val : Type :=
| VUndef
| VNull
| VBool (b : bool)
| VNum (bits : N)
| VStr (s : jsstring)
| VRef (l : loc).

(** Property lists keep insertion order and hold every key once. *)
Inductive cell : Type :=
| CObj (props : list (jsstring * val))
| CArr (elems : list val).

(** What [JSON.parse] describes, before it is built in the store. *)
#[warnings="-register-all"]
Inductive json : Type :=
| JNull
| JBool (b : bool)
| JNum (bits : N)
| JStr (s : jsstring)
| JArr (elems : list json)
| JObj (members : list (jsstring * json)).

(** Induction on parsed values, through the lists they nest in. *)
Section JsonInduction.

Variable P : json -> Prop.
Hypothesis on_null : P JNull.
Hypothesis on_bool : forall b, P (JBool b).
Hypothesis on_num : forall n, P (JNum n).
Hypothesis on_str : forall s, P (JStr s).
Hypothesis on_arr : forall elems, Forall P elems -> P (JArr elems).
Hypothesis on_obj :
  forall members, Forall (fun kv => P (snd kv)) members -> P (JObj members).

Fixpoint json_nested_ind (j : json) : P j :=
  match j with
  | JNull => on_null
  | JBool b => on_bool b
  | JNum n => on_num n
  | JStr s => on_str s
  | JArr elems =>
      on_arr elems
        ((fix all (l : list json) : Forall P l :=
            match l with
            | [] => List.Forall_nil P
            | x :: l' => List.Forall_cons P x l' (json_nested_ind x) (all l')
            end) elems)
  | JObj members =>
      on_obj members
        ((fix all (l : list (jsstring * json))
            : Forall (fun kv => P (snd kv)) l :=
            match l with
            | [] => List.Forall_nil _
            | (k, x) :: l' =>
                List.Forall_cons (fun kv => P (snd kv)) (k, x) l'
                  (json_nested_ind x) (all l')
            end) members)
  end.

End JsonInduction.

Inductive type_error : Type :=
| ReadOfNullish (prop : jsstring)
| NotAFunction (prop : jsstring).

Inductive thrown : Type :=
| JsError (message : jsstring)
| JsTypeError (why : type_error)
| NonError.

Inductive outcome (A : Type) : Type :=
| Ret (a : A)
| Throw (e : thrown).
Arguments Ret {A} a.
Arguments Throw {A} e.

#[global] Instance outcome_ret : MRet outcome := fun A a => Ret a.
#[global] Instance outcome_bind : MBind outcome := fun A B f c =>
  match c with
  | Ret a => f a
  | Throw e => Throw e
  end.

Definition is_nan (b : N) : bool :=
  N.eqb (N.land (N.shiftr b 52) 2047) 2047 && negb (N.eqb (N.land b (2 ^ 52 - 1)) 0).

Definition is_zero (b : N) : bool := N.eqb b 0 || N.eqb b (2 ^ 63).

(** [a === b] *)
Definition strict_eq (a b : val) : bool :=
  match a, b with
  | VUndef, VUndef => true
  | VNull, VNull => true
  | VBool x, VBool y => Bool.eqb x y
  | VNum x, VNum y =>
      negb (is_nan x) && negb (is_nan y) && (N.eqb x y || (is_zero x && is_zero y))
  | VStr x, VStr y => JsString.eqb x y
  | VRef x, VRef y => Nat.eqb x y
  | _, _ => false
  end.

Fixpoint obj_get (k : jsstring) (ps : list (jsstring * val)) : option val :=
  match ps with
  | [] => None
  | (k', v) :: ps' => if JsString.eqb k k' then Some v else obj_get k ps'
  end.

(** Defining a property: an existing key keeps its place. *)
Fixpoint obj_set (k : jsstring) (v : val) (ps : list (jsstring * val))
    : list (jsstring * val) :=
  match ps with
  | [] => [(k, v)]
  | (k', v') :: ps' =>
      if JsString.eqb k k' then (k, v) :: ps' else (k', v') :: obj_set k v ps'
  end.

(** An object literal [{ k1: v1, ..., kn: vn }], spreads already expanded:
    the properties are defined from left to right. *)
Definition object_literal (entries : list (jsstring * val))
    : list (jsstring * val) :=
  fold_left (fun ps kv => obj_set (fst kv) (snd kv) ps) entries [].

Definition index_key (i : nat) : jsstring :=
  js (NilZero.string_of_uint (Nat.to_uint i)).

Definition indexed (vs : list val) : list (jsstring * val) :=
  imap (fun i v => (index_key i, v)) vs.

(** [v.k] for the keys this program reads ([items], [prd_path],
    [product_name]): none is an index, [length] or a member of a built-in
    prototype, so only an own property of a plain object answers; reading
    from [null] or [undefined] throws. *)
Definition get_prop (h : list cell) (v : val) (k : jsstring) : outcome val :=
  match v with
  | VUndef | VNull => Throw (JsTypeError (ReadOfNullish k))
  | VRef l =>
      match h !! l with
      | Some (CObj ps) => Ret (default VUndef (obj_get k ps))
      | _ => Ret VUndef
      end
  | _ => Ret VUndef
  end.

(** The own enumerable properties [{ ...v }] copies. *)
Definition own_props (h : list cell) (v : val) : list (jsstring * val) :=
  match v with
  | VRef l =>
      match h !! l with
      | Some (CObj ps) => ps
      | Some (CArr vs) => indexed vs
      | None => []
      end
  | VStr s => indexed (map (fun c => VStr [c]) s)
  | _ => []
  end.

(** [Array.isArray(v)] *)
Definition as_array (h : list cell) (v : val) : option (loc * list val) :=
  match v with
  | VRef l =>
      match h !! l with
      | Some (CArr vs) => Some (l, vs)
      | _ => None
      end
  | _ => None
  end.

(** [a[i] = v]: an index past the end extends the array over holes. *)
Definition array_set (i : nat) (v : val) (vs : list val) : list val :=
  if Nat.ltb i (length vs) then <[i := v]> vs
  else vs ++ replicate (i - length vs) VUndef ++ [v].

(** Building a parsed value in the store, children first: the elements of
    an array from left to right, the members of an object from left to
    right, a repeated key keeping its place and taking the later value. *)
Fixpoint alloc_elements (alloc_one : json -> list cell -> val * list cell)
    (l : list json) (h : list cell) : list val * list cell :=
  match l with
  | [] => ([], h)
  | x :: l' =>
      let '(v, h1) := alloc_one x h in
      let '(vs, h2) := alloc_elements alloc_one l' h1 in
      (v :: vs, h2)
  end.

Fixpoint alloc_members (alloc_one : json -> list cell -> val * list cell)
    (l : list (jsstring * json)) (ps : list (jsstring * val)) (h : list cell)
    : list (jsstring * val) * list cell :=
  match l with
  | [] => (ps, h)
  | (k, x) :: l' =>
      let '(v, h1) := alloc_one x h in
      alloc_members alloc_one l' (obj_set k v ps) h1
  end.

Fixpoint alloc_json (j : json) (h : list cell) {struct j} : val * list cell :=
  match j with
  | JNull => (VNull, h)
  | JBool b => (VBool b, h)
  | JNum n => (VNum n, h)
  | JStr s => (VStr s, h)
  | JArr elems =>
      let '(vs, h') := alloc_elements alloc_json elems h in
      (VRef (length h'), h' ++ [CArr vs])
  | JObj members =>
      let '(ps, h') := alloc_members alloc_json members [] h in
      (VRef (length h'), h' ++ [CObj ps])
  end.

(** *** The remote repository client ([src/github.ts])

    The client is the boundary of the model: a request is recorded, and
    what the method returns or throws is the host's answer. *)

Record GitHubConfig : Type := {
  token : jsstring;
  owner : jsstring;
  repo : jsstring
}.

Inductive call : Type :=
| GetFile (path ref : jsstring)
| CreateBranch (branchName baseBranch : jsstring)
| CreateOrUpdateFile (path content message branch : jsstring)
| CreatePullRequest (title body head base : jsstring).

Record request : Type := Request {
  client : GitHubConfig;
  operation : call
}.

Definition is_write (r : request) : bool :=
  match operation r with
  | GetFile _ _ => false
  | _ => true
  end.

Record pull : Type := { number : Z; url : jsstring }.

(** The world a publish runs in. *)
Record world : Type := World {
  heap : list cell;
  clock_reads : nat;
  requests : list request
}.

(** The environment: built-ins of the engine that are not re-implemented,
    the file system, the local git configuration, the clock (the text of
    the n-th [new Date().toISOString()]) and the remote repository. *)
Record Host : Type := {
  toLowerCase : jsstring -> jsstring;
  JSON_parse : jsstring -> option json;
  JSON_stringify : list cell -> val -> jsstring;
  type_error_message : type_error -> jsstring;
  readFileSync : jsstring -> outcome jsstring;
  git_config_remote : outcome jsstring;
  clock : nat -> jsstring;
  remote_getFile : list request -> GitHubConfig -> jsstring -> jsstring
                   -> outcome (option jsstring);
  remote_createBranch : list request -> GitHubConfig -> jsstring -> jsstring
                        -> outcome unit;
  remote_createOrUpdateFile : list request -> GitHubConfig -> jsstring
                              -> jsstring -> jsstring -> jsstring -> outcome unit;
  remote_createPullRequest : list request -> GitHubConfig -> jsstring
                             -> jsstring -> jsstring -> jsstring -> outcome pull
}.

(** Computations: state and exceptions; the world survives a throw. *)
Definition M (A : Type) : Type := world -> outcome A * world.

#[global] Instance M_ret : MRet M := fun A a w => (Ret a, w).
#[global] Instance M_bind : MBind M := fun A B f c w =>
  match c w with
  | (Ret a, w') => f a w'
  | (Throw e, w') => (Throw e, w')
  end.

Definition throw {A : Type} (e : thrown) : M A := fun w => (Throw e, w).

Definition try_catch {A : Type} (c : M A) (handler : thrown -> M A) : M A :=
  fun w =>
    match c w with
    | (Ret a, w') => (Ret a, w')
    | (Throw e, w') => handler e w'
    end.

(** A computation that only reads the store. *)
Definition reading {A : Type} (f : list cell -> outcome A) : M A :=
  fun w => (f (heap w), w).

Definition alloc (c : cell) : M loc :=
  fun w => (Ret (length (heap w)),
            World (heap w ++ [c]) (clock_reads w) (requests w)).

Definition store (l : loc) (c : cell) : M unit :=
  fun w => (Ret tt, World (<[l := c]> (heap w)) (clock_reads w) (requests w)).

Definition build (j : json) : M val :=
  fun w => let '(v, h) := alloc_json j (heap w) in
           (Ret v, World h (clock_reads w) (requests w)).

Definition elements (l : loc) : M (list val) :=
  fun w => (Ret match heap w !! l with
                | Some (CArr vs) => vs
                | _ => []
                end, w).

Section WithHost.

Variable H : Host.

(** [new Date().toISOString()] *)
Definition now : M jsstring :=
  fun w => (Ret (clock H (clock_reads w)),
            World (heap w) (S (clock_reads w)) (requests w)).

Definition send {A : Type} (cfg : GitHubConfig) (op : call)
    (answer : list request -> outcome A) : M A :=
  fun w => (answer (requests w),
            World (heap w) (clock_reads w) (requests w ++ [Request cfg op])).

Definition getFile (cfg : GitHubConfig) (path ref : jsstring)
    : M (option jsstring) :=
  send cfg (GetFile path ref) (fun log => remote_getFile H log cfg path ref).

Definition createBranch (cfg : GitHubConfig) (branchName baseBranch : jsstring)
    : M unit :=
  send cfg (CreateBranch branchName baseBranch)
    (fun log => remote_createBranch H log cfg branchName baseBranch).

Definition createOrUpdateFile (cfg : GitHubConfig)
    (path content message branch : jsstring) : M unit :=
  send cfg (CreateOrUpdateFile path content message branch)
    (fun log => remote_createOrUpdateFile H log cfg path content message branch).

Definition createPullRequest (cfg : GitHubConfig)
    (title body head base : jsstring) : M pull :=
  send cfg (CreatePullRequest title body head base)
    (fun log => remote_createPullRequest H log cfg title body head base).

End WithHost.

End Js.
Import Js.

(** ** Validator ([src/validate.ts]) *)

Module Validate.

Definition dot : regex := Cls (fun c => negb (is_line_terminator c)).
Definition space : regex := Cls is_space.
Definition any : regex := Cls (fun _ => true).

(** [/^#\s+PRD:/m] *)
Definition re_prd_heading : regex :=
  Seq Bol (Seq (Chr 35) (Seq (Plus true space) (Lit (js "PRD:")))).

(** [/<!--[\s\S]*?-->\n\n?/g] *)
Definition re_comment : regex :=
  Seq (Lit (js "<!--"))
    (Seq (Star false any)
       (Seq (Lit (js "-->")) (Seq (Chr 10) (Opt (Chr 10))))).

(** [/^#\s+PRD:\s*(.+)$/m] *)
Definition re_prd_title : regex :=
  Seq Bol (Seq (Chr 35) (Seq (Plus true space) (Seq (Lit (js "PRD:"))
    (Seq (Star true space) (Seq (Grp 1 (Plus true dot)) Eol))))).

(** [/^#\s+(.+)$/m] *)
Definition re_heading : regex :=
  Seq Bol (Seq (Chr 35) (Seq (Plus true space) (Seq (Grp 1 (Plus true dot)) Eol))).

Record Validation : Type := { valid : bool; errors : list jsstring }.

Definition quote : jsstring := [34%N].

Section WithHost.

Variable H : Host.

Definition validatePrdFile (filePath : jsstring) : Validation :=
  match readFileSync H filePath with
  | Ret content =>
      match trim content with
      | [] => {| valid := false; errors := [js "PRD file is empty"] |}
      | _ =>
          if negb (test true re_prd_heading content) then
            {| valid := false;
               errors := [js "PRD file must start with " ++ quote
                          ++ js "# PRD: <product name>" ++ quote] |}
          else {| valid := true; errors := [] |}
      end
  | Throw (JsError message) =>
      {| valid := false; errors := [js "Failed to read file: " ++ message] |}
  | Throw (JsTypeError why) =>
      {| valid := false;
         errors := [js "Failed to read file: " ++ type_error_message H why] |}
  | Throw NonError =>
      {| valid := false; errors := [js "Unknown error reading file"] |}
  end.

End WithHost.

Definition extractProductName (content : jsstring) : option jsstring :=
  let withoutComment := replace_g false re_comment (js "") content in
  let found :=
    match exec true re_prd_title withoutComment with
    | Some cs => Some cs
    | None => exec true re_heading withoutComment
    end in
  match found with
  | Some cs => Some (trim (default [] (group 1 cs)))
  | None => None
  end.

End Validate.
Import Validate.

(** ** Git utilities ([src/git.ts]) *)

Module Git.

Section WithHost.

Variable H : Host.

(** The host answers for [execSync('git config --get remote.origin.url')]. *)
Definition getGitRemoteUrl : option jsstring :=
  match git_config_remote H with
  | Ret out =>
      match trim out with
      | [] => None
      | url => Some url
      end
  | Throw _ => None
  end.

End WithHost.

(** [/git@github\.com:([^/]+)\/(.+?)(\.git)?$/] *)
Definition re_ssh_remote : regex :=
  Seq (Lit (js "git@github.com:"))
    (Seq (Grp 1 (Plus true (Cls (fun c => negb (N.eqb c 47)))))
       (Seq (Chr 47)
          (Seq (Grp 2 (Plus false dot))
             (Seq (Opt (Grp 3 (Lit (js ".git")))) Eol)))).

(** [/\.git$/] *)
Definition re_git_suffix : regex := Seq (Lit (js ".git")) Eol.

Definition normalizeRepoUrl (remote : option jsstring) : option jsstring :=
  match remote with
  | None | Some [] => None
  | Some remote =>
      let ssh :=
        if startsWith (js "git@") remote
        then exec false re_ssh_remote remote else None in
      match ssh with
      | Some cs =>
          Some (js "https://github.com/" ++ default [] (group 1 cs)
                ++ js "/" ++ default [] (group 2 cs))
      | None =>
          if startsWith (js "https://") remote
          then Some (replace_first false re_git_suffix (js "") remote)
          else Some remote
      end
  end.

End Git.
Import Git.

(** ** Registry engine and publisher ([src/publish.ts]) *)

Module Publish.

Record PublishOptions : Type := {
  file : jsstring;
  domain : jsstring;
  productName : option jsstring;
  ownerTeam : option jsstring;
  sourceRepo : option jsstring;
  tags : option (list jsstring);
  githubToken : jsstring;
  prdRepo : option jsstring;
  baseBranch : option jsstring;
  dryRun : option bool
}.

Record PublishResult : Type := {
  success : bool;
  prUrl : option jsstring;
  prNumber : option Z;
  error : option jsstring;
  dryRun_marker : option bool
}.

(** The registry entry [publishPrd] prepares: the object literal
    [{ product_name, domain, owner_team, source_repo, prd_path, tags }]. *)
Record Candidate : Type := {
  product_name : jsstring;
  entry_domain : jsstring;
  owner_team : jsstring;
  source_repo : jsstring;
  prd_path : jsstring;
  entry_tags : val
}.

Definition entry_literal (c : Candidate) : list (jsstring * val) :=
  object_literal
    [ (js "product_name", VStr (product_name c));
      (js "domain", VStr (entry_domain c));
      (js "owner_team", VStr (owner_team c));
      (js "source_repo", VStr (source_repo c));
      (js "prd_path", VStr (prd_path c));
      (js "tags", entry_tags c) ].

(** [x || d] for an optional string: absent and empty are falsy. *)
Definition or_else (x : option jsstring) (d : jsstring) : jsstring :=
  match x with
  | Some (c :: s) => c :: s
  | _ => d
  end.

Definition truthy (x : option jsstring) : bool :=
  match x with
  | Some (_ :: _) => true
  | _ => false
  end.

(** [/github\.com\/([^\/]+)\/([^\/]+)/] *)
Definition re_repo_url : regex :=
  let segment := Plus true (Cls (fun c => negb (N.eqb c 47))) in
  Seq (Lit (js "github.com/")) (Seq (Grp 1 segment) (Seq (Chr 47) (Grp 2 segment))).

Definition parseRepo (repo : jsstring) : outcome (jsstring * jsstring) :=
  let url :=
    if includes (js "github.com/") repo then exec false re_repo_url repo
    else None in
  match url with
  | Some cs =>
      Ret (default [] (group 1 cs),
           replace_first false re_git_suffix (js "") (default [] (group 2 cs)))
  | None =>
      if includes (js "/") repo then
        match split 47 repo with
        | owner :: repoName :: _ =>
            Ret (owner, replace_first false re_git_suffix (js "") repoName)
        | _ => Throw (JsTypeError (ReadOfNullish (js "replace")))
        end
      else
        Throw (JsError (js "Invalid repo format: " ++ repo ++ js ". Use "
                        ++ quote ++ js "owner/repo" ++ quote
                        ++ js " or full GitHub URL"))
  end.

(** [{ version: '1', items: [] }] *)
Definition new_registry : json :=
  JObj [(js "version", JStr (js "1")); (js "items", JArr [])].

(** [isUpdate ? a : b] *)
Definition wording (isUpdate : bool) (a b : string) : jsstring :=
  if isUpdate then js a else js b.

(** [/[:.]/g] *)
Definition re_colon_dot : regex := Cls (fun c => N.eqb c 58 || N.eqb c 46).

Section WithHost.

Variable H : Host.

Definition generateBranchName (domain productName : jsstring) : M jsstring :=
  let sanitized := sanitizeFilename (toLowerCase H) productName in
  iso ← now H;
  let timestamp := replace_g false re_colon_dot (js "-") iso in
  mret (js "prd/" ++ domain ++ js "/" ++ sanitized ++ js "-" ++ timestamp).

(** The callback of [findIndex] in [upsertRegistry]. *)
Definition same_entry (h : list cell) (entry it : val) : outcome bool :=
  a ← get_prop h it (js "prd_path");
  b ← get_prop h entry (js "prd_path");
  if strict_eq a b then mret true
  else
    c ← get_prop h it (js "product_name");
    d ← get_prop h entry (js "product_name");
    mret (strict_eq c d).

(** [a.findIndex(p)], counting from [i]; -1 when nothing is found. *)
Fixpoint findIndex (p : val -> outcome bool) (i : Z) (vs : list val)
    : outcome Z :=
  match vs with
  | [] => Ret (-1)%Z
  | v :: vs' =>
      found ← p v;
      if (found : bool) then mret i else findIndex p (i + 1)%Z vs'
  end.

(** [a.some(p)] *)
Fixpoint some (p : val -> outcome bool) (vs : list val) : outcome bool :=
  match vs with
  | [] => Ret false
  | v :: vs' =>
      found ← p v;
      if (found : bool) then mret true else some p vs'
  end.

Definition upsertRegistry (registry entry : val) : M val :=
  held ← reading (fun h => get_prop h registry (js "items"));
  isArray ← reading (fun h => Ret (as_array h held));
  items ← match isArray with
          | Some (l, _) => mret l
          | None => alloc (CArr [])
          end;
  vs ← elements items;
  idx ← reading (fun h => findIndex (same_entry h entry) 0%Z vs);
  (if (0 <=? idx)%Z then
     (* Update existing entry *)
     current ← elements items;
     let old := default VUndef (current !! Z.to_nat idx) in
     old_props ← reading (fun h => Ret (own_props h old));
     entry_props ← reading (fun h => Ret (own_props h entry));
     stamp ← now H;
     merged ← alloc (CObj (object_literal
                 (old_props ++ entry_props ++ [(js "updated_at", VStr stamp)])));
     store items (CArr (array_set (Z.to_nat idx) (VRef merged) current))
   else
     (* Add new entry *)
     entry_props ← reading (fun h => Ret (own_props h entry));
     created ← now H;
     updated ← now H;
     fresh ← alloc (CObj (object_literal
                (entry_props ++ [(js "created_at", VStr created);
                                 (js "updated_at", VStr updated)])));
     current ← elements items;
     store items (CArr (current ++ [VRef fresh])));;
  registry_props ← reading (fun h => Ret (own_props h registry));
  result ← alloc (CObj (object_literal
              (registry_props ++ [(js "items", VRef items)])));
  mret (VRef result).

(** Lines 144 to 157 of [publishPrd]: the registry as fetched, or a new
    one when the content is missing, empty, or not JSON. *)
Definition loadRegistry (registryContent : option jsstring) : M val :=
  if truthy registryContent then
    match JSON_parse H (default [] registryContent) with
    | Some parsed => build parsed
    | None => build new_registry
    end
  else build new_registry.

(** The callback of [some] in [publishPrd]. *)
Definition is_published (h : list cell) (prdPath productName : jsstring)
    (item : val) : outcome bool :=
  a ← get_prop h item (js "prd_path");
  if strict_eq a (VStr prdPath) then mret true
  else
    c ← get_prop h item (js "product_name");
    mret (strict_eq c (VStr productName)).

(** [registry.items.some(...)]: [some] exists on arrays only. *)
Definition registry_items_some (registry : val)
    (prdPath productName : jsstring) : M bool :=
  reading (fun h =>
    held ← get_prop h registry (js "items");
    match held with
    | VUndef | VNull => Throw (JsTypeError (ReadOfNullish (js "some")))
    | _ =>
        match as_array h held with
        | Some (_, vs) => some (is_published h prdPath productName) vs
        | None => Throw (JsTypeError (NotAFunction (js "some")))
        end
    end).

Definition failure (message : jsstring) : PublishResult :=
  {| success := false; prUrl := None; prNumber := None;
     error := Some message; dryRun_marker := None |}.

(** [options.productName], or else the name found in the document. *)
Definition resolveProductName (options : PublishOptions)
    (prdContent : jsstring) : option jsstring :=
  if truthy (productName options) then productName options
  else extractProductName prdContent.

(** [options.sourceRepo], or else the normalized git remote. *)
Definition resolveSourceRepo (options : PublishOptions) : option jsstring :=
  if truthy (sourceRepo options) then sourceRepo options
  else
    let normalized := normalizeRepoUrl (getGitRemoteUrl H) in
    if truthy normalized then normalized else None.

Definition repoUrl (options : PublishOptions) : jsstring :=
  or_else (prdRepo options) (js "gnyanee97/vulcan-prds").

Definition prdPath_of (options : PublishOptions) (productName : jsstring)
    : jsstring :=
  let filename := sanitizeFilename (toLowerCase H) productName ++ js ".md" in
  js "prds/" ++ domain options ++ js "/" ++ filename.

Definition prTitle_of (isUpdate : bool) (productName : jsstring) : jsstring :=
  wording isUpdate "Update PRD: " "Add PRD: " ++ productName.

Definition prBody_of (options : PublishOptions) (isUpdate : bool)
    (productName : jsstring) (sourceRepo : option jsstring)
    (prdPath : jsstring) : jsstring :=
  join [10%N] (filter (fun line => line <> [])
    [ js "## " ++ wording isUpdate "Update" "Add" ++ js " PRD: " ++ productName;
      js "";
      js "**Domain:** " ++ domain options;
      if truthy (ownerTeam options)
      then js "**Owner Team:** " ++ default [] (ownerTeam options) else js "";
      if truthy sourceRepo
      then js "**Source Repo:** " ++ default [] sourceRepo else js "";
      match tags options with
      | Some (t :: ts) => js "**Tags:** " ++ join (js ", ") (t :: ts)
      | _ => js ""
      end;
      js "";
      js "This PR " ++ wording isUpdate "updates" "adds"
        ++ js " a data product PRD to the central repository.";
      js "";
      js "### Changes";
      js "- " ++ wording isUpdate "Updated" "Added" ++ js " PRD file: `"
        ++ prdPath ++ js "`";
      js "- Updated `registry.json` with PRD metadata";
      js "";
      js "### Next Steps";
      js "- Review PRD content";
      js "- Merge PR to add to index";
      js "- PRD will be automatically indexed after merge" ]).

(** [for (const file of prParams.files) await github.createOrUpdateFile(...)] *)
Fixpoint write_files (github : GitHubConfig) (branchName : jsstring)
    (files : list (jsstring * jsstring * jsstring)) : M unit :=
  match files with
  | [] => mret tt
  | (path, content, message) :: files' =>
      createOrUpdateFile H github path content message branchName;;
      write_files github branchName files'
  end.

(** From the fetch of the registry to the end of the [try] block. *)
Definition publish_to (options : PublishOptions) (prdContent productName : jsstring)
    (github : GitHubConfig) : M PublishResult :=
  let sourceRepo := resolveSourceRepo options in
  let baseBranch := or_else (baseBranch options) (js "main") in
  let prdPath := prdPath_of options productName in
  registryContent ← getFile H github (js "registry.json") baseBranch;
  registry ← loadRegistry registryContent;
  (* [options.tags || []]: the array the entry refers to *)
  tags_array ← alloc (CArr (map VStr (default [] (tags options))));
  entry ← alloc (CObj (entry_literal
            {| product_name := productName;
               entry_domain := domain options;
               owner_team := or_else (ownerTeam options) [];
               source_repo := or_else sourceRepo [];
               prd_path := prdPath;
               entry_tags := VRef tags_array |}));
  updatedRegistry ← upsertRegistry registry (VRef entry);
  isUpdate ← registry_items_some registry prdPath productName;
  branchName ← generateBranchName (domain options) productName;
  let prTitle := prTitle_of isUpdate productName in
  let prBody := prBody_of options isUpdate productName sourceRepo prdPath in
  registryText ← reading (fun h =>
    Ret (JSON_stringify H h updatedRegistry ++ [10%N]));
  let files :=
    [ (prdPath, prdContent,
       wording isUpdate "Update" "Add" ++ js " PRD: " ++ domain options
         ++ js "/" ++ productName);
      (js "registry.json", registryText,
       js "Update registry for PRD: " ++ domain options ++ js "/" ++ productName) ] in
  if default false (dryRun options) then
    mret {| success := true; prUrl := None; prNumber := None;
            error := None; dryRun_marker := Some true |}
  else
    createBranch H github branchName baseBranch;;
    write_files github branchName files;;
    pr ← createPullRequest H github prTitle prBody branchName baseBranch;
    mret {| success := true; prUrl := Some (url pr);
            prNumber := Some (number pr);
            error := None; dryRun_marker := None |}.

(** The body of the [try] block of [publishPrd]. *)
Definition publish_steps (options : PublishOptions) : M PublishResult :=
  let validation := validatePrdFile H (file options) in
  if negb (valid validation) then
    mret (failure (js "PRD validation failed: "
                   ++ join (js ", ") (errors validation)))
  else
    prdContent ← reading (fun _ => readFileSync H (file options));
    let resolved := resolveProductName options prdContent in
    if negb (truthy resolved) then
      mret (failure (js "Could not extract product name from PRD. Provide --name or ensure PRD starts with "
                     ++ quote ++ js "# PRD: <name>" ++ quote))
    else
      target ← reading (fun _ => parseRepo (repoUrl options));
      publish_to options prdContent (default [] resolved)
        {| token := githubToken options;
           owner := fst target; repo := snd target |}.

Definition publishPrd (options : PublishOptions) : M PublishResult :=
  try_catch (publish_steps options) (fun e =>
    mret (failure match e with
                  | JsError message => message
                  | JsTypeError why => type_error_message H why
                  | NonError => js "Unknown error"
                  end)).

End WithHost.

End Publish.
Import Publish.

(** ** Observations used to state the properties *)

Module Observe.

(** [registry.items] when it is an array. *)
Definition items_of (h : list cell) (registry : val) : option (list val) :=
  match get_prop h registry (js "items") with
  | Ret held => snd <$> as_array h held
  | Throw _ => None
  end.

(** [v.k], with [undefined] where the read would throw. *)
Definition field (h : list cell) (v : val) (k : jsstring) : val :=
  match get_prop h v k with
  | Ret x => x
  | Throw _ => VUndef
  end.

Definition is_object (h : list cell) (v : val) : bool :=
  match v with
  | VRef l => match h !! l with Some (CObj _) => true | _ => false end
  | _ => false
  end.

(** The [prd_path] of an entry, when it is a string. *)
Definition path_of (h : list cell) (v : val) : option jsstring :=
  match field h v (js "prd_path") with
  | VStr s => Some s
  | _ => None
  end.

Definition is_path (p : jsstring) (o : option jsstring) : bool :=
  match o with
  | Some s => JsString.eqb s p
  | None => false
  end.

Definition holds_path (h : list cell) (p : jsstring) (v : val) : bool :=
  is_path p (path_of h v).

(** No path occurs twice. *)
Fixpoint distinct (ps : list (option jsstring)) : bool :=
  match ps with
  | [] => true
  | o :: ps' =>
      match o with
      | Some p => negb (existsb (is_path p) ps')
      | None => true
      end && distinct ps'
  end.

(** No two entries share a [prd_path]. *)
Definition unique_paths (h : list cell) (vs : list val) : bool :=
  distinct (map (path_of h) vs).

(** The positions, counted from [i], of the entries whose [prd_path] is [p]. *)
Fixpoint holders (h : list cell) (p : jsstring) (i : Z) (vs : list val) : list Z :=
  match vs with
  | [] => []
  | v :: vs' =>
      if holds_path h p v then i :: holders h p (i + 1)%Z vs'
      else holders h p (i + 1)%Z vs'
  end.

(** A property list holds every key once. *)
Fixpoint keys_once (ps : list (jsstring * val)) : bool :=
  match ps with
  | [] => true
  | (k, _) :: ps' =>
      match obj_get k ps' with
      | Some _ => false
      | None => keys_once ps'
      end
  end.

Definition cell_ok (c : cell) : bool :=
  match c with
  | CObj ps => keys_once ps
  | CArr _ => true
  end.

Definition store_ok (h : list cell) : bool := forallb cell_ok h.

(** The object pushed by an insert started in world [w]. *)
Definition inserted (H : Host) (w : world) (entry : val) : cell :=
  CObj (object_literal
          (own_props (heap w) entry
           ++ [(js "created_at", VStr (clock H (clock_reads w)));
               (js "updated_at", VStr (clock H (S (clock_reads w))))])).

(** The object an update started in world [w] puts in the place of [old]. *)
Definition merged (H : Host) (w : world) (old entry : val) : cell :=
  CObj (object_literal
          (own_props (heap w) old ++ own_props (heap w) entry
           ++ [(js "updated_at", VStr (clock H (clock_reads w)))])).

(** The registry object returned over store [h] with items array [a]. *)
Definition returned (h : list cell) (registry : val) (a : loc) : cell :=
  CObj (object_literal (own_props h registry ++ [(js "items", VRef a)])).

(** The member an object keeps for key [k]: the last one written. *)
Fixpoint member (k : jsstring) (members : list (jsstring * json)) : option json :=
  match members with
  | [] => None
  | (k', x) :: rest =>
      match member k rest with
      | Some y => Some y
      | None => if JsString.eqb k k' then Some x else None
      end
  end.

Definition is_object_json (j : json) : bool :=
  match j with
  | JObj _ => true
  | _ => false
  end.

(** The [items] member is missing or not an array. *)
Definition no_items_array (members : list (jsstring * json)) : bool :=
  match member (js "items") members with
  | Some (JArr _) => false
  | _ => true
  end.

(** An object whose [items] is an array of objects. *)
Definition registry_shape (j : json) : bool :=
  match j with
  | JObj members =>
      match member (js "items") members with
      | Some (JArr elems) => forallb is_object_json elems
      | _ => false
      end
  | _ => false
  end.

(** What [loadRegistry] builds: the parsed content, or the new registry. *)
Definition loaded (H : Host) (content : option jsstring) : json :=
  if truthy content
  then default new_registry (JSON_parse H (default [] content))
  else new_registry.

(** What a value built from [j] is, at the top. *)
Definition kind0 (j : json) (h : list cell) (v : val) : Prop :=
  match j with
  | JNull => v = VNull
  | JBool b => v = VBool b
  | JNum n => v = VNum n
  | JStr s => v = VStr s
  | JArr _ => exists l vs, v = VRef l /\ h !! l = Some (CArr vs)
  | JObj _ => exists l ps, v = VRef l /\ h !! l = Some (CObj ps)
  end.

(** The same, with the elements of an array. *)
Definition kind (j : json) (h : list cell) (v : val) : Prop :=
  match j with
  | JArr elems =>
      exists l vs, v = VRef l /\ h !! l = Some (CArr vs) /\
                   Forall2 (fun x u => kind0 x h u) elems vs
  | _ => kind0 j h v
  end.

(** The client [publishPrd] builds for the parsed repository reference. *)
Definition github_of (options : PublishOptions) (target : jsstring * jsstring)
    : GitHubConfig :=
  {| token := githubToken options; owner := fst target; repo := snd target |}.

Definition is_read (r : request) : bool := negb (is_write r).

(** What a dry run answers. *)
Definition dry_run_success : PublishResult :=
  {| success := true; prUrl := None; prNumber := None;
     error := None; dryRun_marker := Some true |}.

(** A computation that sends nothing but reads to the remote. *)
Definition quiet {A} (c : M A) : Prop :=
  forall w, exists new,
    requests (snd (c w)) = requests w ++ new /\ forallb is_read new = true.

(** No write, and no pull request in the answer. *)
Definition discreet (c : M PublishResult) : Prop :=
  forall w,
    (exists new, requests (snd (c w)) = requests w ++ new /\
                 forallb is_read new = true) /\
    match fst (c w) with
    | Ret res => prNumber res = None /\ prUrl res = None
    | Throw _ => True
    end.

Definition is_safe (c : N) : bool := is_alnum c || is_hyphen c.

(** Every run of units in [p] replaced by [rep]; [in_run] tells that the
    run the text starts in has been replaced already. *)
Fixpoint squash (p : N -> bool) (rep : jsstring) (in_run : bool) (s : jsstring)
    : jsstring :=
  match s with
  | [] => []
  | x :: s' =>
      if p x then
        if in_run then squash p rep true s' else rep ++ squash p rep true s'
      else x :: squash p rep false s'
  end.

(** The text without the hyphens that end it. *)
Fixpoint trim_end (s : jsstring) : jsstring :=
  match s with
  | [] => []
  | x :: s' =>
      match is_hyphen x, drop_while is_hyphen s' with
      | true, [] => []
      | _, _ => x :: trim_end s'
      end
  end.

(** No two hyphens side by side. *)
Fixpoint no_double (s : jsstring) : bool :=
  match s with
  | [] => true
  | x :: s' =>
      match s' with
      | y :: _ => negb (is_hyphen x && is_hyphen y)
      | [] => true
      end && no_double s'
  end.

Definition starts_with_hyphen (s : jsstring) : bool :=
  match s with
  | x :: _ => is_hyphen x
  | [] => false
  end.

Fixpoint ends_with_hyphen (s : jsstring) : bool :=
  match s with
  | [] => false
  | x :: s' =>
      match s' with
      | [] => is_hyphen x
      | _ :: _ => ends_with_hyphen s'
      end
  end.

(** The name after the three replacements, before the cut at 100. *)
Definition uncut (toLowerCase : jsstring -> jsstring) (name : jsstring) : jsstring :=
  replace_g false re_hyphens (js "-")
    (replace_g false re_edge_hyphens (js "")
       (replace_g false re_non_alnum (js "-") (toLowerCase name))).

(** The titles of the pull requests a log asks for. *)
Definition pull_request_titles (log : list request) : list jsstring :=
  omap (fun r => match operation r with
                 | CreatePullRequest title _ _ _ => Some title
                 | _ => None
                 end) log.

End Observe.
Import Observe.

(** ** Concrete hosts, registries and requests *)

Module Examples.

Definition lower (s : jsstring) : jsstring := map ascii_lower s.

(** Ninety-nine letters, a hyphen and a letter: 101 safe units. *)
Definition long_name : jsstring := repeat 97%N 99 ++ js "-b".

Definition document : jsstring :=
  js "# PRD: Test Data Product" ++ [10%N; 10%N] ++ js "## Overview" ++ [10%N]
  ++ js "This is a test PRD to verify the CLI tool works correctly." ++ [10%N].

(** A clock that moves by a millisecond between two readings. *)
Definition ticking (n : nat) : jsstring :=
  js "2024-01-15T10:30:45.00" ++ index_key n ++ js "Z".

(** A parser that knows one text, the empty object. *)
Definition parse (s : jsstring) : option json :=
  if JsString.eqb s (js "{}") then Some (JObj []) else None.

Definition host (fetch : outcome (option jsstring)) : Host :=
  {| toLowerCase := lower;
     JSON_parse := parse;
     JSON_stringify := fun _ _ => js "{}";
     type_error_message := fun _ => js "TypeError";
     readFileSync := fun path =>
       if JsString.eqb path (js "docs/prd.md") then Ret document
       else Throw (JsError (js "ENOENT: no such file or directory"));
     git_config_remote := Throw (JsError (js "Command failed"));
     clock := ticking;
     remote_getFile := fun _ _ _ _ => fetch;
     remote_createBranch := fun _ _ _ _ => Ret tt;
     remote_createOrUpdateFile := fun _ _ _ _ _ _ => Ret tt;
     remote_createPullRequest := fun _ _ _ _ _ _ =>
       Ret {| number := 7;
              url := js "https://github.com/gnyanee97/vulcan-prds/pull/7" |} |}.

(** The registry file does not exist yet. *)
Definition first_publish : Host := host (Ret None).

(** The token may not read the registry. *)
Definition denied : Host :=
  host (Throw (JsError (js "Permission denied accessing gnyanee97/vulcan-prds."))).

Definition publish_request (dry : bool) : PublishOptions :=
  {| file := js "docs/prd.md";
     domain := js "analytics";
     productName := None;
     ownerTeam := None;
     sourceRepo := None;
     tags := None;
     githubToken := js "ghp_token";
     prdRepo := None;
     baseBranch := None;
     dryRun := Some dry |}.

Definition nothing : world := World [] 0 [].

Definition entry_json (name path stamp : string) : json :=
  JObj [(js "product_name", JStr (js name));
        (js "prd_path", JStr (js path));
        (js "created_at", JStr (js stamp));
        (js "updated_at", JStr (js stamp))].

Definition registry_json (entries : list json) : json :=
  JObj [(js "version", JStr (js "1")); (js "items", JArr entries)].

Definition candidate (name dom path : string) (tags_array : loc) : Candidate :=
  {| product_name := js name;
     entry_domain := js dom;
     owner_team := js "";
     source_repo := js "";
     prd_path := js path;
     entry_tags := VRef tags_array |}.

(** A store holding the registry built from [j] and the entry of a
    candidate: the registry, the location of the entry, and the world. *)
Definition prepared (j : json) (c : loc -> Candidate) : outcome (val * loc) * world :=
  (registry ← build j;
   tags_array ← alloc (CArr []);
   e ← alloc (CObj (entry_literal (c tags_array)));
   mret (registry, e)) nothing.

(** Two products published under the names bar and Bar, in the domains b
    and a; the slug of both names is bar. *)
Definition two_entries : json :=
  registry_json
    [ entry_json "bar" "prds/b/bar.md" "2024-01-01T00:00:00.000Z";
      entry_json "Bar" "prds/a/bar.md" "2024-01-02T00:00:00.000Z" ].

Definition one_entry : json :=
  registry_json [ entry_json "Foo" "prds/analytics/foo.md" "2024-01-01T00:00:00.000Z" ].

(** Publishing bar again, now in the domain a. *)
Definition bar_in_a : loc -> Candidate := candidate "bar" "a" "prds/a/bar.md".

(** Publishing Bar again in the domain a. *)
Definition Bar_in_a : loc -> Candidate := candidate "Bar" "a" "prds/a/bar.md".

Definition foo : loc -> Candidate := candidate "Foo" "analytics" "prds/analytics/foo.md".

Definition registry_of (p : outcome (val * loc) * world) : val :=
  match fst p with
  | Ret (registry, _) => registry
  | Throw _ => VUndef
  end.

Definition entry_of (p : outcome (val * loc) * world) : loc :=
  match fst p with
  | Ret (_, e) => e
  | Throw _ => 0
  end.

(** The items of the registry an upsert returns, read in the store it
    leaves. *)
Definition items_after (run : outcome val * world) : option (list val) :=
  match fst run with
  | Ret registry => items_of (heap (snd run)) registry
  | Throw _ => None
  end.

End Examples.

(** ** What the expressions of the program mean

    A relation between the state before and the state after a match,
    independent of the order in which the matcher tries the alternatives. *)

Module Meaning.

(** Rounds of a repetition; every round moves forward. *)
Inductive iter (R : mstate -> mstate -> Prop) : mstate -> mstate -> Prop :=
| iter_stop st : iter R st st
| iter_round st st1 st2 :
    R st st1 -> length (after st1) < length (after st) ->
    iter R st1 st2 -> iter R st st2.

Fixpoint run (multiline : bool) (r : regex) (st st' : mstate) {struct r} : Prop :=
  match r with
  | Eps => st' = st
  | Chr c => exists rest, after st = c :: rest /\ st' = step st c rest
  | Cls p => exists x rest, after st = x :: rest /\ p x = true /\ st' = step st x rest
  | Seq r1 r2 => exists st1, run multiline r1 st st1 /\ run multiline r2 st1 st'
  | Alt r1 r2 => run multiline r1 st st' \/ run multiline r2 st st'
  | Star _ r1 => iter (run multiline r1) st st'
  | Bol => at_bol multiline st = true /\ st' = st
  | Eol => at_eol multiline st = true /\ st' = st
  | Grp i r1 => exists st1, run multiline r1 st st1 /\ st' = capture i st st1
  end.

(** The expression matches somewhere in [s]: after [pre], before [post]. *)
Definition found (multiline : bool) (r : regex) (s : jsstring) : Prop :=
  exists pre post st',
    s = pre ++ post /\ run multiline r (MState (rev pre) post []) st'.

(** [s] without one trailing [suffix]. *)
Fixpoint strip_suffix (suffix s : jsstring) : jsstring :=
  match s with
  | [] => []
  | x :: s' => if JsString.eqb s suffix then [] else x :: strip_suffix suffix s'
  end.

Definition ends_with (suffix s : jsstring) : bool :=
  JsString.eqb (drop (length s - length suffix) s) suffix.

Definition is_slash (c : N) : bool := N.eqb c 47.

Definition no_slash (s : jsstring) : bool := forallb (fun c => negb (is_slash c)) s.

(** The text ends here or goes on with a unit outside [p]. *)
Definition stops (p : N -> bool) (rest : jsstring) : bool :=
  match rest with
  | [] => true
  | x :: _ => negb (p x)
  end.

(** No space at either end. *)
Definition trimmed (s : jsstring) : bool :=
  stops is_space s && stops is_space (rev s).

Definition one_line (s : jsstring) : bool :=
  forallb (fun c => negb (is_line_terminator c)) s.

(** The place is the start of a line. *)
Definition line_start (pre : jsstring) : bool :=
  match rev pre with
  | [] => true
  | c :: _ => is_line_terminator c
  end.

Definition slashes (s : jsstring) : nat := length (List.filter is_slash s).

(** What [parseRepo] throws. *)
Definition invalid_repo (repo : jsstring) : thrown :=
  JsError (js "Invalid repo format: " ++ repo ++ js ". Use "
           ++ quote ++ js "owner/repo" ++ quote ++ js " or full GitHub URL").

(** [(\.git)?$], the end of the expression for the SSH form. *)
Definition re_ssh_tail : regex := Seq (Opt (Grp 3 (Lit (js ".git")))) Eol.

(** [/[:.]/g] replaced by a hyphen, unit by unit. *)
Definition dashed (c : N) : N := if N.eqb c 58 || N.eqb c 46 then 45%N else c.

Definition no_comma (t : jsstring) : bool := negb (existsb (N.eqb 44) t).

End Meaning.
Import Meaning.

(** ** The requests of a publish *)

Module Plan.

(** The five requests of a publish that goes through, in their order. *)
Definition plan (github : GitHubConfig)
    (baseBranch branchName prdPath prdContent prdMessage
     registryText registryMessage prTitle prBody : jsstring) : list request :=
  [ Request github (GetFile (js "registry.json") baseBranch);
    Request github (CreateBranch branchName baseBranch);
    Request github (CreateOrUpdateFile prdPath prdContent prdMessage branchName);
    Request github (CreateOrUpdateFile (js "registry.json") registryText
                      registryMessage branchName);
    Request github (CreatePullRequest prTitle prBody branchName baseBranch) ].

Section WithHost.

Variable H : Host.

(** [publish_to] between the fetch of the registry and the dry-run
    test: the registry loaded and upserted, the classification, the
    branch name and the text of the registry. *)
Definition prepare (options : PublishOptions) (productName : jsstring)
    (registryContent : option jsstring) : M (bool * jsstring * jsstring) :=
  let sourceRepo := resolveSourceRepo H options in
  let prdPath := prdPath_of H options productName in
  registry ← loadRegistry H registryContent;
  tags_array ← alloc (CArr (map VStr (default [] (tags options))));
  entry ← alloc (CObj (entry_literal
            {| product_name := productName;
               entry_domain := domain options;
               owner_team := or_else (ownerTeam options) [];
               source_repo := or_else sourceRepo [];
               prd_path := prdPath;
               entry_tags := VRef tags_array |}));
  updatedRegistry ← upsertRegistry H registry (VRef entry);
  isUpdate ← registry_items_some registry prdPath productName;
  branchName ← generateBranchName H (domain options) productName;
  registryText ← reading (fun h =>
    Ret (JSON_stringify H h updatedRegistry ++ [10%N]));
  mret (isUpdate, branchName, registryText).

Definition prdMessage_of (options : PublishOptions) (isUpdate : bool)
    (productName : jsstring) : jsstring :=
  wording isUpdate "Update" "Add" ++ js " PRD: " ++ domain options
    ++ js "/" ++ productName.

Definition registryMessage_of (options : PublishOptions)
    (productName : jsstring) : jsstring :=
  js "Update registry for PRD: " ++ domain options ++ js "/" ++ productName.

(** [publish_to] from the dry-run test on. *)
Definition finish (options : PublishOptions) (prdContent productName : jsstring)
    (github : GitHubConfig) (prepared : bool * jsstring * jsstring)
    : M PublishResult :=
  let '(isUpdate, branchName, registryText) := prepared in
  let sourceRepo := resolveSourceRepo H options in
  let baseBranch := or_else (baseBranch options) (js "main") in
  let prdPath := prdPath_of H options productName in
  if default false (dryRun options) then
    mret {| success := true; prUrl := None; prNumber := None;
            error := None; dryRun_marker := Some true |}
  else
    createBranch H github branchName baseBranch;;
    write_files H github branchName
      [ (prdPath, prdContent, prdMessage_of options isUpdate productName);
        (js "registry.json", registryText, registryMessage_of options productName) ];;
    pr ← createPullRequest H github (prTitle_of isUpdate productName)
           (prBody_of options isUpdate productName sourceRepo prdPath)
           branchName baseBranch;
    mret {| success := true; prUrl := Some (url pr);
            prNumber := Some (number pr);
            error := None; dryRun_marker := None |}.

End WithHost.

Definition published (pr : pull) : PublishResult :=
  {| success := true; prUrl := Some (url pr); prNumber := Some (number pr);
     error := None; dryRun_marker := None |}.

(** An object whose [items] member is an array. *)
Definition has_items_array (j : json) : bool :=
  match j with
  | JObj members => negb (no_items_array members)
  | _ => false
  end.

Definition silent {A} (c : M A) : Prop :=
  forall w, requests (snd (c w)) = requests w.

(** The message [publishPrd] reports for what was thrown. *)
Definition message_of (H : Host) (e : thrown) : jsstring :=
  match e with
  | JsError message => message
  | JsTypeError why => type_error_message H why
  | NonError => js "Unknown error"
  end.

End Plan.
Import Plan.

(** ** The client of the repository ([src/github.ts])

    [GitHubClient] over the REST client it wraps. The REST client and the
    [Buffer] of the runtime are parameters: an answer may depend on the
    calls made before. *)

Module Client.

(** What a failed call throws, as far as the client looks at it:
    [error.status], [error.message] and [error.toString()]. *)
Record error_value : Type := {
  status : option Z;
  message : option jsstring;
  text : jsstring
}.

(** [new Error(msg)] *)
Definition new_Error (msg : jsstring) : error_value :=
  {| status := None;
     message := Some msg;
     text := match msg with
             | [] => js "Error"
             | _ :: _ => js "Error: " ++ msg
             end |}.

(** [error.message || error.toString()] *)
Definition described (e : error_value) : jsstring :=
  match message e with
  | Some (c :: s) => c :: s
  | _ => text e
  end.

(** [error.status === n] *)
Definition has_status (e : error_value) (n : Z) : bool :=
  match status e with
  | Some s => Z.eqb s n
  | None => false
  end.

Inductive result (A : Type) : Type :=
| Done (a : A)
| Failed (e : error_value).
Arguments Done {A} a.
Arguments Failed {A} e.

(** The calls of the REST client, with their parameters. *)
Inductive api_call : Type :=
| ReposGet (owner repo : jsstring)
| GitGetRef (owner repo ref : jsstring)
| GitCreateRef (owner repo ref sha : jsstring)
| ReposGetContent (owner repo path : jsstring) (ref : option jsstring)
| ReposCreateOrUpdateFileContents (owner repo path message content branch : jsstring)
    (sha : option jsstring)
| PullsCreate (owner repo title body head base : jsstring).

(** The part of the answer of [repos.getContent] the client reads: the
    keys [content], [encoding] and [sha], each present or not. *)
Record content_data : Type := {
  content : option jsstring;
  encoding : option jsstring;
  sha : option jsstring
}.

Record pull_data : Type := { pull_number : Z; html_url : jsstring }.

(** An instance of the REST client: what each call answers after the
    calls of [log]. *)
Record Octokit : Type := {
  repos_get : list api_call -> jsstring -> jsstring -> result jsstring;
  git_getRef : list api_call -> jsstring -> jsstring -> jsstring -> result jsstring;
  git_createRef : list api_call -> jsstring -> jsstring -> jsstring -> jsstring
                  -> result unit;
  repos_getContent : list api_call -> jsstring -> jsstring -> jsstring
                     -> option jsstring -> result content_data;
  repos_createOrUpdateFileContents :
    list api_call -> jsstring -> jsstring -> jsstring -> jsstring -> jsstring
    -> jsstring -> option jsstring -> result unit;
  pulls_create : list api_call -> jsstring -> jsstring -> jsstring -> jsstring
                 -> jsstring -> jsstring -> result pull_data
}.

(** The runtime: [new Octokit({ auth })],
    [Buffer.from(content, encoding).toString('utf-8')] and
    [Buffer.from(content, 'utf-8').toString('base64')]. *)
Record Runtime : Type := {
  connect : jsstring -> Octokit;
  buffer_decode : jsstring -> jsstring -> result jsstring;
  buffer_base64 : jsstring -> jsstring
}.

(** Computations of the client: the calls made so far are the state. *)
Definition Api (A : Type) : Type := list api_call -> result A * list api_call.

#[global] Instance Api_ret : MRet Api := fun A a log => (Done a, log).
#[global] Instance Api_bind : MBind Api := fun A B f c log =>
  match c log with
  | (Done a, log') => f a log'
  | (Failed e, log') => (Failed e, log')
  end.

Definition raise {A : Type} (e : error_value) : Api A := fun log => (Failed e, log).

Definition attempt {A : Type} (c : Api A) (handler : error_value -> Api A) : Api A :=
  fun log =>
    match c log with
    | (Done a, log') => (Done a, log')
    | (Failed e, log') => handler e log'
    end.

Definition lift {A : Type} (r : result A) : Api A := fun log => (r, log).

Definition request {A : Type} (c : api_call) (answer : list api_call -> result A)
    : Api A :=
  fun log => (answer log, log ++ [c]).

Record GitHubClient : Type := {
  octokit : Octokit;
  client_owner : jsstring;
  client_repo : jsstring
}.

Record Access : Type := {
  hasRead : bool;
  hasWrite : bool;
  access_error : option jsstring
}.

Record PR : Type := { pr_number : Z; pr_url : jsstring }.

Record CreatePRParams : Type := {
  pr_branch : jsstring;
  pr_title : jsstring;
  pr_body : jsstring;
  pr_files : list (jsstring * jsstring * jsstring)
}.

Definition line_feed : jsstring := [10%N].

Section WithRuntime.

Variable R : Runtime.

(** The constructor. *)
Definition client (config : GitHubConfig) : GitHubClient :=
  {| octokit := connect R (token config);
     client_owner := owner config;
     client_repo := repo config |}.

Variable this : GitHubClient.

Definition repos_get_call : Api jsstring :=
  request (ReposGet (client_owner this) (client_repo this))
    (fun log => repos_get (octokit this) log (client_owner this) (client_repo this)).

Definition git_getRef_call (ref : jsstring) : Api jsstring :=
  request (GitGetRef (client_owner this) (client_repo this) ref)
    (fun log => git_getRef (octokit this) log (client_owner this)
                  (client_repo this) ref).

Definition git_createRef_call (ref sha : jsstring) : Api unit :=
  request (GitCreateRef (client_owner this) (client_repo this) ref sha)
    (fun log => git_createRef (octokit this) log (client_owner this)
                  (client_repo this) ref sha).

Definition repos_getContent_call (path : jsstring) (ref : option jsstring)
    : Api content_data :=
  request (ReposGetContent (client_owner this) (client_repo this) path ref)
    (fun log => repos_getContent (octokit this) log (client_owner this)
                  (client_repo this) path ref).

Definition repos_createOrUpdateFileContents_call
    (path message content branch : jsstring) (sha : option jsstring) : Api unit :=
  request (ReposCreateOrUpdateFileContents (client_owner this) (client_repo this)
             path message content branch sha)
    (fun log => repos_createOrUpdateFileContents (octokit this) log
                  (client_owner this) (client_repo this)
                  path message content branch sha).

Definition pulls_create_call (title body head base : jsstring) : Api pull_data :=
  request (PullsCreate (client_owner this) (client_repo this) title body head base)
    (fun log => pulls_create (octokit this) log (client_owner this)
                  (client_repo this) title body head base).

(** [`${this.owner}/${this.repo}`] *)
Definition full_name : jsstring := client_owner this ++ js "/" ++ client_repo this.

Definition verifyAccess : Api Access :=
  attempt
    (repos_get_call;;
     attempt
       (git_getRef_call (js "heads/main");;
        mret {| hasRead := true; hasWrite := true; access_error := None |})
       (fun error =>
          if has_status error 403 then
            mret {| hasRead := true; hasWrite := false;
                    access_error := Some (js "Token lacks write permissions") |}
          else
            mret {| hasRead := true; hasWrite := false;
                    access_error := message error |}))
    (fun error =>
       if has_status error 404 then
         mret {| hasRead := false; hasWrite := false;
                 access_error := Some (js "Repository " ++ full_name
                                       ++ js " not found or not accessible") |}
       else if has_status error 401 || has_status error 403 then
         mret {| hasRead := false; hasWrite := false;
                 access_error :=
                   Some (js "Token is invalid or lacks required permissions") |}
       else
         mret {| hasRead := false; hasWrite := false;
                 access_error := Some match message error with
                                      | Some (c :: s) => c :: s
                                      | _ => js "Unknown error"
                                      end |}).

Definition getDefaultBranch : Api jsstring := repos_get_call.

Definition read_denied (error : error_value) : jsstring :=
  js "Permission denied accessing " ++ full_name ++ js ". "
  ++ js "Ensure your GitHub token has read access to the repository. "
  ++ js "Original error: " ++ described error.

Definition getFile (path : jsstring) (ref : option jsstring)
    : Api (option jsstring) :=
  attempt
    (data ← repos_getContent_call path ref;
     match content data, encoding data with
     | Some c, Some enc =>
         decoded ← lift (buffer_decode R c enc);
         mret (Some decoded)
     | _, _ => mret None
     end)
    (fun error =>
       if has_status error 404 then mret None
       else if has_status error 403 || has_status error 401 then
         raise (new_Error (read_denied error))
       else raise error).

Definition branch_denied (error : error_value) : jsstring :=
  (if has_status error 403
   then js "Permission denied: Your GitHub token doesn't have write access to "
        ++ full_name
   else js "Repository not found or not accessible: " ++ full_name)
  ++ line_feed ++ line_feed
  ++ js "To fix this:" ++ line_feed
  ++ js "1. Ensure your GitHub token has the 'repo' scope (for private repos) or 'public_repo' scope (for public repos)"
  ++ line_feed
  ++ js "2. Verify you have write access to " ++ full_name ++ line_feed
  ++ js "3. If the repo is private, make sure your token has access to it"
  ++ line_feed
  ++ js "4. Create a new token at https://github.com/settings/tokens with appropriate permissions"
  ++ line_feed ++ line_feed
  ++ js "Original error: " ++ described error.

Definition createBranch (branchName baseBranch : jsstring) : Api unit :=
  attempt
    (baseSha ← git_getRef_call (js "heads/" ++ baseBranch);
     git_createRef_call (js "refs/heads/" ++ branchName) baseSha)
    (fun error =>
       if has_status error 403 || has_status error 404 then
         raise (new_Error (branch_denied error))
       else raise error).

Definition write_denied (error : error_value) : jsstring :=
  js "Permission denied: Cannot write to " ++ full_name ++ js ". "
  ++ js "Ensure your GitHub token has write access. "
  ++ js "Original error: " ++ described error.

Definition createOrUpdateFile (path content message branch : jsstring) : Api unit :=
  attempt
    (sha ← attempt
             (data ← repos_getContent_call path (Some branch);
              mret (sha data))
             (fun error =>
                if negb (has_status error 404) then raise error
                else mret None);
     repos_createOrUpdateFileContents_call path message
       (buffer_base64 R content) branch sha)
    (fun error =>
       if has_status error 403 || has_status error 404 then
         raise (new_Error (write_denied error))
       else raise error).

Definition createPullRequest (title body head base : jsstring) : Api PR :=
  data ← pulls_create_call title body head base;
  mret {| pr_number := pull_number data; pr_url := html_url data |}.

(** [for (const file of params.files) await this.createOrUpdateFile(...)] *)
Fixpoint write_all (branch : jsstring) (files : list (jsstring * jsstring * jsstring))
    : Api unit :=
  match files with
  | [] => mret tt
  | (path, content, message) :: files' =>
      createOrUpdateFile path content message branch;;
      write_all branch files'
  end.

Definition createPR (params : CreatePRParams) : Api PR :=
  defaultBranch ← getDefaultBranch;
  createBranch (pr_branch params) defaultBranch;;
  write_all (pr_branch params) (pr_files params);;
  createPullRequest (pr_title params) (pr_body params) (pr_branch params)
    defaultBranch.

End WithRuntime.

End Client.

(** ** Reading the runs of the client *)

Module ClientObserve.

Import Client.

(** The two calls one file costs: the lookup on the branch, then the
    write with the [sha] the lookup gave. *)
Definition file_calls (R : Runtime) (this : GitHubClient) (branch : jsstring)
    (file : jsstring * jsstring * jsstring) (found : option jsstring)
    : list api_call :=
  let '(path, text, message) := file in
  [ ReposGetContent (client_owner this) (client_repo this) path (Some branch);
    ReposCreateOrUpdateFileContents (client_owner this) (client_repo this)
      path message (buffer_base64 R text) branch found ].

Fixpoint files_calls (R : Runtime) (this : GitHubClient) (branch : jsstring)
    (files : list (jsstring * jsstring * jsstring)) (found : list (option jsstring))
    : list api_call :=
  match files, found with
  | file :: files', s :: found' =>
      file_calls R this branch file s ++ files_calls R this branch files' found'
  | _, _ => []
  end.

(** What the [catch] of [getFile] makes of a failure. *)
Definition read_caught (this : GitHubClient) (e : error_value)
    : result (option jsstring) :=
  if has_status e 404 then Done None
  else if has_status e 403 || has_status e 401
       then Failed (new_Error (read_denied this e))
       else Failed e.

(** What the [catch] of [createBranch] makes of a failure. *)
Definition branch_caught (this : GitHubClient) (e : error_value) : result unit :=
  if has_status e 403 || has_status e 404
  then Failed (new_Error (branch_denied this e))
  else Failed e.

(** What the outer [catch] of [createOrUpdateFile] makes of a failure. *)
Definition write_caught (this : GitHubClient) (e : error_value) : result unit :=
  if has_status e 403 || has_status e 404
  then Failed (new_Error (write_denied this e))
  else Failed e.

Definition is_write_call (c : api_call) : bool :=
  match c with
  | GitCreateRef _ _ _ _ => true
  | ReposCreateOrUpdateFileContents _ _ _ _ _ _ _ => true
  | PullsCreate _ _ _ _ _ _ => true
  | _ => false
  end.

End ClientObserve.

(** ** The answers of a PRD ([src/prd-types.ts]) *)

Module Answers.

(** A key that is absent, [undefined] or [null] is [None]. *)
Record Entity : Type := {
  entity_name : option jsstring;
  entity_id : option jsstring
}.

Record PrimaryTime : Type := {
  time_field : option jsstring;
  timezone : option jsstring;
  meaning : option jsstring
}.

Record Measure : Type := {
  measure_name : jsstring;
  measure_definition : option jsstring;
  unit_ : option jsstring
}.

Record Metric : Type := {
  metric_name : jsstring;
  metric_definition : jsstring;
  formula : option jsstring
}.

Record Source : Type := {
  system : jsstring;
  table : option jsstring;
  source_owner : option jsstring;
  notes : option jsstring
}.

Record Freshness : Type := {
  cadence : option jsstring;
  sla : option jsstring;
  backfill_window : option jsstring
}.

(** [Partial<PrdAnswers>] *)
Record PrdAnswers : Type := {
  product_name : option jsstring;
  goal : option (list jsstring);
  consumers : option (list jsstring);
  grain : option jsstring;
  entities : option (list Entity);
  primary_time : option PrimaryTime;
  dimensions : option (list jsstring);
  measures : option (list Measure);
  metrics : option (list Metric);
  sources : option (list Source);
  freshness_backfill : option Freshness
}.

Record FieldError : Type := { field : jsstring; message : jsstring }.

Record ValidationResult : Type := {
  ok : bool;
  missing : list jsstring;
  errors : list FieldError
}.

(** [value == null] for a key that holds a string or an object. *)
Definition absent {A : Type} (value : option A) : bool :=
  match value with
  | None => true
  | Some _ => false
  end.

(** [value == null || (Array.isArray(value) && value.length === 0)] for a
    key that holds an array. *)
Definition absent_or_empty {A : Type} (value : option (list A)) : bool :=
  match value with
  | None | Some [] => true
  | Some (_ :: _) => false
  end.

(** The keys of [required], in their order, each with the test of the
    loop on the value of [a] under it. *)
Definition required (a : PrdAnswers) : list (jsstring * bool) :=
  [ (js "product_name", absent (product_name a));
    (js "goal", absent_or_empty (goal a));
    (js "consumers", absent_or_empty (consumers a));
    (js "grain", absent (grain a));
    (js "entities", absent_or_empty (entities a));
    (js "primary_time", absent (primary_time a));
    (js "dimensions", absent_or_empty (dimensions a));
    (js "measures", absent_or_empty (measures a));
    (js "metrics", absent_or_empty (metrics a));
    (js "sources", absent_or_empty (sources a));
    (js "freshness_backfill", absent (freshness_backfill a)) ].

(** [!s] for an optional string. *)
Definition blank (s : option jsstring) : bool :=
  match s with
  | Some (_ :: _) => false
  | _ => true
  end.

(** The callback of [a.entities.forEach], from index [index] on. *)
Fixpoint entity_errors (index : nat) (es : list Entity) : list FieldError :=
  match es with
  | [] => []
  | entity :: es' =>
      (if blank (entity_name entity) || blank (entity_id entity) then
         [ {| field := js "entities[" ++ index_key index ++ js "]";
              message := js "Entity at index " ++ index_key index
                         ++ js " must have both 'name' and 'id' fields" |} ]
       else [])
      ++ entity_errors (S index) es'
  end.

Definition validateAnswers (a : PrdAnswers) : ValidationResult :=
  let missing := map fst (List.filter snd (required a)) in
  let errors :=
    match entities a with
    | Some es => entity_errors 0 es
    | None => []
    end
    ++ match primary_time a with
       | Some t =>
           if blank (time_field t) then
             [ {| field := js "primary_time.field";
                  message := js "Primary time must have a 'field' property" |} ]
           else []
       | None => []
       end
    ++ match freshness_backfill a with
       | Some f =>
           if blank (cadence f) then
             [ {| field := js "freshness_backfill.cadence";
                  message := js "Freshness/backfill must have a 'cadence' field" |} ]
           else []
       | None => []
       end in
  {| ok := match missing, errors with
           | [], [] => true
           | _, _ => false
           end;
     missing := missing;
     errors := errors |}.

(** Every required key holds something, the arrays something in them;
    every entity has a name and an identifier, the primary time a field
    and the freshness a cadence. *)
Definition complete (a : PrdAnswers) : Prop :=
  (exists s, product_name a = Some s) /\
  (exists x l, goal a = Some (x :: l)) /\
  (exists x l, consumers a = Some (x :: l)) /\
  (exists s, grain a = Some s) /\
  (exists x l, entities a = Some (x :: l) /\
               Forall (fun e => blank (entity_name e) = false /\ blank (entity_id e) = false)
                 (x :: l)) /\
  (exists t, primary_time a = Some t /\ blank (time_field t) = false) /\
  (exists x l, dimensions a = Some (x :: l)) /\
  (exists x l, measures a = Some (x :: l)) /\
  (exists x l, metrics a = Some (x :: l)) /\
  (exists x l, sources a = Some (x :: l)) /\
  (exists f, freshness_backfill a = Some f /\ blank (cadence f) = false).

(** The error [validateAnswers] reports for the entity in place [index]. *)
Definition entity_error (index : nat) : FieldError :=
  {| field := js "entities[" ++ index_key index ++ js "]";
     message := js "Entity at index " ++ index_key index
                ++ js " must have both 'name' and 'id' fields" |}.

End Answers.

(** ** The command line ([src/index.ts])

    The action of the [publish] command, given the options as the parser
    of the command line hands them over (defaults applied). What it prints
    and the status it exits with, if it exits, are its result. *)

Module Cli.

Inductive console : Type := Log | Warn | Error.

Record CliRun : Type := {
  printed : list (console * jsstring);
  exit_status : option Z
}.

Record Env : Type := {
  VULCAN_PRD_GITHUB_TOKEN : option jsstring;
  GITHUB_TOKEN : option jsstring
}.

Record CliOptions : Type := {
  opt_file : jsstring;
  opt_domain : jsstring;
  opt_name : option jsstring;
  opt_ownerTeam : option jsstring;
  opt_sourceRepo : option jsstring;
  opt_tags : option jsstring;
  opt_repo : jsstring;
  opt_base : jsstring;
  opt_dryRun : bool
}.

(** The file system and the printing of numbers. *)
Record System : Type := {
  resolve : jsstring -> jsstring;
  existsSync : jsstring -> bool;
  number_text : Z -> jsstring
}.

Definition cross : jsstring := [10060%N].
Definition warning_sign : jsstring := [9888%N; 65039%N].
Definition receipt : jsstring := [55358%N; 56830%N].
Definition check_mark : jsstring := [9989%N].
Definition link : jsstring := [55357%N; 56599%N].

Definition validDomains : list jsstring :=
  [js "analytics"; js "platform"; js "marketing"; js "finance"; js "operations"].

(** [options.tags ? options.tags.split(',').map(t => t.trim()).filter(Boolean)
    : undefined] *)
Definition parseTags (tags : option jsstring) : option (list jsstring) :=
  if truthy tags then
    Some (List.filter (fun t => match t with [] => false | _ :: _ => true end)
            (map trim (split 44 (default [] tags))))
  else None.

(** [a || b] for two optional strings. *)
Definition first_truthy (a b : option jsstring) : option jsstring :=
  if truthy a then a else if truthy b then b else None.

(** [`${x}`] for an optional string. *)
Definition shown (x : option jsstring) : jsstring := default (js "undefined") x.

Definition no_token : list (console * jsstring) :=
  [ (Error, cross ++ js " Error: GitHub token environment variable is required");
    (Error, js "");
    (Error, js "Set it with one of:");
    (Error, js "  export VULCAN_PRD_GITHUB_TOKEN=ghp_your_token_here");
    (Error, js "  export GITHUB_TOKEN=ghp_your_token_here");
    (Error, js "");
    (Error, js "Or use GitHub CLI:");
    (Error, js "  export VULCAN_PRD_GITHUB_TOKEN=$(gh auth token)") ].

Definition when (b : bool) (line : jsstring) : list (console * jsstring) :=
  if b then [(Log, line)] else [].

Section WithHost.

Variable H : Host.
Variable S : System.

Definition no_file (options : CliOptions) : list (console * jsstring) :=
  [ (Error, cross ++ js " Error: PRD file not found: " ++ opt_file options);
    (Error, js "   Looked for: " ++ resolve S (opt_file options)) ].

Definition domain_of (options : CliOptions) : jsstring :=
  toLowerCase H (opt_domain options).

Definition known_domain (domain : jsstring) : bool :=
  existsb (JsString.eqb domain) validDomains.

Definition domain_warning (options : CliOptions) : list (console * jsstring) :=
  if known_domain (domain_of options) then []
  else [ (Warn, warning_sign ++ js "  Warning: Domain " ++ quote ++ opt_domain options
                ++ quote ++ js " is not in standard list: "
                ++ join (js ", ") validDomains) ].

(** [options.sourceRepo], or else the normalized git remote. *)
Definition sourceRepo_of (options : CliOptions) : option jsstring :=
  if truthy (opt_sourceRepo options) then opt_sourceRepo options
  else
    let normalized := normalizeRepoUrl (getGitRemoteUrl H) in
    if truthy normalized then normalized else None.

Definition banner (options : CliOptions) : list (console * jsstring) :=
  [ (Log, [10%N] ++ receipt ++ js " Publishing PRD");
    (Log, js "   File: " ++ resolve S (opt_file options));
    (Log, js "   Domain: " ++ domain_of options) ]
  ++ when (truthy (opt_name options))
       (js "   Name: " ++ shown (opt_name options))
  ++ when (truthy (opt_ownerTeam options))
       (js "   Owner: " ++ shown (opt_ownerTeam options))
  ++ when (truthy (sourceRepo_of options))
       (js "   Source: " ++ shown (sourceRepo_of options))
  ++ match parseTags (opt_tags options) with
     | Some tags => [(Log, js "   Tags: " ++ join (js ", ") tags)]
     | None => []
     end
  ++ [ (Log, js "   Central repo: " ++ opt_repo options);
       (Log, js "   Base branch: " ++ opt_base options) ]
  ++ when (opt_dryRun options)
       (js "   Mode: DRY RUN (no GitHub changes will be made)")
  ++ [ (Log, js "") ].

(** The options [publishPrd] is called with. *)
Definition publish_options (options : CliOptions) (githubToken : jsstring)
    : PublishOptions :=
  {| file := resolve S (opt_file options);
     domain := domain_of options;
     productName := opt_name options;
     ownerTeam := opt_ownerTeam options;
     sourceRepo := sourceRepo_of options;
     tags := parseTags (opt_tags options);
     githubToken := githubToken;
     prdRepo := Some (opt_repo options);
     baseBranch := Some (opt_base options);
     dryRun := Some (opt_dryRun options) |}.

Definition report (result : PublishResult) : CliRun :=
  if success result then
    if default false (dryRun_marker result) then
      {| printed := [ (Log, check_mark ++ js " Dry run complete. (No changes pushed.)"
                            ++ [10%N]) ];
         exit_status := None |}
    else
      {| printed :=
           [ (Log, check_mark ++ js " PRD published successfully!");
             (Log, js "");
             (Log, link ++ js " PR #"
                   ++ match prNumber result with
                      | Some n => number_text S n
                      | None => js "undefined"
                      end
                   ++ js ": " ++ shown (prUrl result));
             (Log, js "");
             (Log, js "Your PRD is ready for review. Once merged, it will be automatically indexed.") ];
         exit_status := None |}
  else
    {| printed := [ (Error, cross ++ js " Failed to publish PRD:");
                    (Error, js "   " ++ shown (error result)) ];
       exit_status := Some 1%Z |}.

Definition action (env : Env) (options : CliOptions) : M CliRun :=
  match first_truthy (VULCAN_PRD_GITHUB_TOKEN env) (GITHUB_TOKEN env) with
  | None => mret {| printed := no_token; exit_status := Some 1%Z |}
  | Some githubToken =>
      if negb (existsSync S (resolve S (opt_file options))) then
        mret {| printed := no_file options; exit_status := Some 1%Z |}
      else
        result ← publishPrd H (publish_options options githubToken);
        let said := report result in
        mret {| printed := domain_warning options ++ banner options ++ printed said;
                exit_status := exit_status said |}
  end.

End WithHost.

End Cli.

(** ** A repository that grants every call *)

Module Samples.

Import Client.

Definition not_found : error_value :=
  {| status := Some 404%Z;
     message := Some (js "Not Found");
     text := js "HttpError: Not Found" |}.

(** The default branch is main, no file exists yet, every write goes
    through and the pull request gets the number 7. *)
Definition granting : Octokit :=
  {| repos_get := fun _ _ _ => Done (js "main");
     git_getRef := fun _ _ _ _ => Done (js "4b825dc");
     git_createRef := fun _ _ _ _ _ => Done tt;
     repos_getContent := fun _ _ _ _ _ => Failed not_found;
     repos_createOrUpdateFileContents := fun _ _ _ _ _ _ _ _ => Done tt;
     pulls_create := fun _ _ _ _ _ _ _ =>
       Done {| pull_number := 7;
               html_url := js "https://github.com/gnyanee97/vulcan-prds/pull/7" |} |}.

(** A runtime whose [Buffer] leaves the text as it is. *)
Definition plain : Runtime :=
  {| connect := fun _ => granting;
     buffer_decode := fun c _ => Done c;
     buffer_base64 := fun s => s |}.

Definition central : GitHubClient :=
  client plain {| token := js "ghp_token";
                  owner := js "gnyanee97";
                  repo := js "vulcan-prds" |}.

Definition one_file : CreatePRParams :=
  {| pr_branch := js "prd/analytics/foo-2024-01-15T10-30-45-000Z";
     pr_title := js "Add PRD: Foo";
     pr_body := js "## PRD: Foo";
     pr_files := [ (js "prds/analytics/foo.md", js "# PRD: Foo", js "Add PRD: analytics/Foo") ] |}.

(** The registry file holds an object without members. *)
Definition bare_registry : Host := Examples.host (Ret (Some (js "{}"))).

Definition title : jsstring := js "Test Data Product".

(** What follows the first line of [Examples.document]. *)
Definition below_title : jsstring :=
  [10%N; 10%N] ++ js "## Overview" ++ [10%N]
  ++ js "This is a test PRD to verify the CLI tool works correctly." ++ [10%N].

End Samples.
(** * Properties *)

Arguments js : simpl never.
Arguments entry_literal : simpl never.

(** ** Basic facts on strings, property lists and the store *)

Module Facts.

Lemma eqb_eq (a b : jsstring) : JsString.eqb a b = true <-> a = b.
Proof.
  revert b.
  induction a as [|x a IH]; intros [|y b]; simpl; try (split; congruence).
  rewrite andb_true_iff, N.eqb_eq, IH.
  split; [intros [-> ->]; reflexivity | intros [= -> ->]; auto].
Qed.

Lemma eqb_refl (a : jsstring) : JsString.eqb a a = true.
Proof. apply eqb_eq. reflexivity. Qed.

Lemma eqb_neq (a b : jsstring) : JsString.eqb a b = false <-> a <> b.
Proof.
  rewrite <- eqb_eq. destruct (JsString.eqb a b); split; congruence.
Qed.

Lemma obj_get_set_eq k v ps : obj_get k (obj_set k v ps) = Some v.
Proof.
  induction ps as [|[k' v'] ps IH]; simpl.
  - rewrite eqb_refl. reflexivity.
  - destruct (JsString.eqb k k') eqn:E; simpl; rewrite ?eqb_refl, ?E; auto.
Qed.

Lemma obj_get_set_ne k k' v ps :
  k <> k' -> obj_get k' (obj_set k v ps) = obj_get k' ps.
Proof.
  intros Hne. induction ps as [|[k0 v0] ps IH]; simpl.
  - apply eqb_neq in Hne. destruct (JsString.eqb k' k) eqn:E; auto.
    apply eqb_eq in E. subst. rewrite eqb_refl in Hne. discriminate.
  - destruct (JsString.eqb k k0) eqn:E; simpl.
    + apply eqb_eq in E. subst k0.
      destruct (JsString.eqb k' k) eqn:E'; auto.
      apply eqb_eq in E'. congruence.
    + destruct (JsString.eqb k' k0); auto.
Qed.

Lemma obj_get_app k ps qs :
  obj_get k (ps ++ qs) =
  match obj_get k ps with Some v => Some v | None => obj_get k qs end.
Proof.
  induction ps as [|[k' v'] ps IH]; simpl; auto.
  destruct (JsString.eqb k k'); auto.
Qed.

(** A literal gives each key the value of its last definition. *)
Lemma obj_get_fold k entries acc :
  obj_get k (fold_left (fun ps kv => obj_set (fst kv) (snd kv) ps) entries acc) =
  match obj_get k (rev entries) with
  | Some v => Some v
  | None => obj_get k acc
  end.
Proof.
  revert acc. induction entries as [|[k1 v1] entries IH]; intros acc; simpl; auto.
  rewrite IH, obj_get_app. destruct (obj_get k (rev entries)); auto.
  simpl. destruct (JsString.eqb k k1) eqn:E.
  - apply eqb_eq in E. subst. apply obj_get_set_eq.
  - apply obj_get_set_ne. apply eqb_neq in E. congruence.
Qed.

Lemma object_literal_get k entries :
  obj_get k (object_literal entries) = obj_get k (rev entries).
Proof.
  unfold object_literal. rewrite obj_get_fold. destruct (obj_get k (rev entries)); auto.
Qed.

Lemma as_array_inv h v a vs :
  as_array h v = Some (a, vs) -> v = VRef a /\ h !! a = Some (CArr vs).
Proof.
  unfold as_array. destruct v; try discriminate.
  destruct (h !! l) as [[|]|] eqn:E; try discriminate.
  intros [= <- <-]. auto.
Qed.

Lemma as_array_ref h a vs : h !! a = Some (CArr vs) -> as_array h (VRef a) = Some (a, vs).
Proof. intros E. simpl. rewrite E. reflexivity. Qed.

(** Cells below the end of the store survive an allocation and a write
    elsewhere. *)
Lemma lookup_alloc (h : list cell) (l : loc) (c d : cell) :
  h !! l = Some c -> (h ++ [d]) !! l = Some c.
Proof. intros E. apply lookup_app_l_Some. exact E. Qed.

Lemma lookup_store_other (h : list cell) (a l : loc) (c d : cell) :
  a <> l -> h !! l = Some c -> <[a := d]> h !! l = Some c.
Proof. intros Hne E. rewrite list_lookup_insert_ne; auto. Qed.

Lemma lookup_store_same (h : list cell) (a : loc) (c d : cell) :
  h !! a = Some c -> <[a := d]> h !! a = Some d.
Proof.
  intros E. apply list_lookup_insert_eq. eapply lookup_lt_Some; eauto.
Qed.

Lemma lookup_fresh (h : list cell) (c : cell) : (h ++ [c]) !! length h = Some c.
Proof. apply list_lookup_middle. reflexivity. Qed.

End Facts.
Import Facts.

(** ** What a run of [upsertRegistry] leaves behind *)

Module Runs.

Section WithHost.

Variable H : Host.

Lemma insert_run (w : world) (registry entry held : val) (a : loc) (vs : list val) :
  get_prop (heap w) registry (js "items") = Ret held ->
  as_array (heap w) held = Some (a, vs) ->
  findIndex (same_entry (heap w) entry) 0%Z vs = Ret (-1)%Z ->
  upsertRegistry H registry entry w =
  let n := length (heap w) in
  let h1 := <[a := CArr (vs ++ [VRef n])]> (heap w ++ [inserted H w entry]) in
  (Ret (VRef (S n)),
   World (h1 ++ [returned h1 registry a]) (S (S (clock_reads w))) (requests w)).
Proof.
  intros Hg Ha Hf. destruct (as_array_inv _ _ _ _ Ha) as [-> Hcell].
  unfold upsertRegistry, mbind, M_bind, reading, elements, alloc, store, now,
    mret, M_ret.
  cbn. rewrite Hg. cbn. rewrite Hcell. cbn. rewrite Hcell, Hf. cbn.
  rewrite (lookup_alloc _ _ _ _ Hcell).
  rewrite length_insert, length_app. cbn.
  rewrite Nat.add_1_r. reflexivity.
Qed.

Lemma update_run (w : world) (registry entry held : val) (a : loc)
    (vs : list val) (idx : Z) :
  get_prop (heap w) registry (js "items") = Ret held ->
  as_array (heap w) held = Some (a, vs) ->
  findIndex (same_entry (heap w) entry) 0%Z vs = Ret idx ->
  (0 <= idx)%Z ->
  upsertRegistry H registry entry w =
  let n := length (heap w) in
  let old := default VUndef (vs !! Z.to_nat idx) in
  let h1 := <[a := CArr (array_set (Z.to_nat idx) (VRef n) vs)]>
              (heap w ++ [merged H w old entry]) in
  (Ret (VRef (S n)),
   World (h1 ++ [returned h1 registry a]) (S (clock_reads w)) (requests w)).
Proof.
  intros Hg Ha Hf Hidx. destruct (as_array_inv _ _ _ _ Ha) as [-> Hcell].
  unfold upsertRegistry, mbind, M_bind, reading, elements, alloc, store, now,
    mret, M_ret.
  cbn. rewrite Hg. cbn. rewrite Hcell. cbn. rewrite Hcell, Hf. cbn.
  destruct (Z.leb_spec 0 idx) as [_|]; [|lia]. cbn.
  rewrite Hcell. cbn.
  rewrite length_insert, length_app. cbn.
  rewrite Nat.add_1_r. reflexivity.
Qed.

Lemma fresh_run (w : world) (registry entry held : val) :
  get_prop (heap w) registry (js "items") = Ret held ->
  as_array (heap w) held = None ->
  upsertRegistry H registry entry w =
  let n := length (heap w) in
  let w0 := World (heap w ++ [CArr []]) (clock_reads w) (requests w) in
  let h1 := <[n := CArr [VRef (S n)]]> (heap w0 ++ [inserted H w0 entry]) in
  (Ret (VRef (S (S n))),
   World (h1 ++ [returned h1 registry n]) (S (S (clock_reads w))) (requests w)).
Proof.
  intros Hg Ha.
  unfold upsertRegistry, mbind, M_bind, reading, elements, alloc, store, now,
    mret, M_ret.
  cbn. rewrite Hg. cbn. rewrite Ha. cbn.
  rewrite lookup_fresh. cbn.
  rewrite (lookup_alloc _ _ _ _ (lookup_fresh _ _)). cbn.
  rewrite length_insert, !length_app. cbn.
  rewrite !Nat.add_1_r. reflexivity.
Qed.

End WithHost.

End Runs.
Import Runs.

(** ** Reading the store after a run *)

Module After.

Lemma items_of_inv h registry vs :
  items_of h registry = Some vs ->
  exists r rps a,
    registry = VRef r /\ h !! r = Some (CObj rps) /\
    obj_get (js "items") rps = Some (VRef a) /\ h !! a = Some (CArr vs).
Proof.
  unfold items_of, get_prop. intros E.
  destruct registry as [| |b|n|s|r]; try discriminate.
  destruct (h !! r) as [[rps|els]|] eqn:Er; try discriminate.
  destruct (obj_get (js "items") rps) as [held|] eqn:Eg; cbn in E; [|discriminate].
  destruct (as_array h held) as [[a vs']|] eqn:Ea; [|discriminate].
  cbn in E. injection E as ->.
  apply as_array_inv in Ea as [-> Ha].
  exists r, rps, a. auto.
Qed.

Lemma items_of_held h registry vs :
  items_of h registry = Some vs ->
  exists a, get_prop h registry (js "items") = Ret (VRef a) /\
            as_array h (VRef a) = Some (a, vs).
Proof.
  intros E. destruct (items_of_inv _ _ _ E) as (r & rps & a & -> & Hr & Hg & Ha).
  exists a. split.
  - unfold get_prop. rewrite Hr, Hg. reflexivity.
  - apply as_array_ref. exact Ha.
Qed.

Lemma items_of_intro h r rps a vs :
  h !! r = Some (CObj rps) -> obj_get (js "items") rps = Some (VRef a) ->
  h !! a = Some (CArr vs) -> items_of h (VRef r) = Some vs.
Proof.
  intros Hr Hg Ha. unfold items_of, get_prop. rewrite Hr, Hg. cbn. rewrite Ha.
  reflexivity.
Qed.

(** The returned registry holds the array [a]. *)
Lemma returned_items h1 registry a :
  obj_get (js "items") (object_literal (own_props h1 registry ++ [(js "items", VRef a)]))
  = Some (VRef a).
Proof.
  rewrite object_literal_get, rev_app_distr. reflexivity.
Qed.

Lemma items_of_returned h1 registry a vs n :
  h1 !! a = Some (CArr vs) -> length h1 = n ->
  items_of (h1 ++ [returned h1 registry a]) (VRef n) = Some vs.
Proof.
  intros Ha <-. eapply items_of_intro.
  - apply lookup_fresh.
  - apply returned_items.
  - apply lookup_alloc. exact Ha.
Qed.

Lemma length_after (h : list cell) a (c d : cell) :
  length (<[a := c]> (h ++ [d])) = S (length h).
Proof. rewrite length_insert, length_app, Nat.add_1_r. reflexivity. Qed.

(** In the store [<[a := c]> (h ++ [d]) ++ [e]] left by a run: the array,
    the new entry, and every older cell. *)
Lemma final_array (h : list cell) a (c0 c d e : cell) :
  h !! a = Some c0 -> (<[a := c]> (h ++ [d]) ++ [e]) !! a = Some c.
Proof.
  intros Ha. apply lookup_alloc. eapply lookup_store_same.
  apply lookup_alloc. exact Ha.
Qed.

Lemma final_new (h : list cell) a (c0 c d e : cell) :
  h !! a = Some c0 -> (<[a := c]> (h ++ [d]) ++ [e]) !! length h = Some d.
Proof.
  intros Ha. apply lookup_alloc. apply lookup_store_other.
  - apply lookup_lt_Some in Ha. lia.
  - apply lookup_fresh.
Qed.

Lemma final_old (h : list cell) a l (c x d e : cell) :
  h !! l = Some x -> a <> l -> (<[a := c]> (h ++ [d]) ++ [e]) !! l = Some x.
Proof.
  intros Hl Hne. apply lookup_alloc. apply lookup_store_other; auto.
  apply lookup_alloc. exact Hl.
Qed.

Lemma keys_once_rev k ps : keys_once ps = true -> obj_get k (rev ps) = obj_get k ps.
Proof.
  induction ps as [|[k' v'] ps IH]; intros Hk; simpl in *; auto.
  destruct (obj_get k' ps) eqn:E'; [discriminate|].
  rewrite obj_get_app, IH by exact Hk. simpl.
  destruct (JsString.eqb k k') eqn:E.
  - apply eqb_eq in E. subst. rewrite E'. reflexivity.
  - destruct (obj_get k ps); reflexivity.
Qed.

Lemma store_ok_lookup h l ps :
  store_ok h = true -> h !! l = Some (CObj ps) -> keys_once ps = true.
Proof.
  unfold store_ok. rewrite forallb_forall. intros Hok Hl.
  apply (Hok (CObj ps)). apply list_elem_of_In. eapply list_elem_of_lookup_2. exact Hl.
Qed.

Lemma entry_literal_path (c : Candidate) :
  obj_get (js "prd_path") (entry_literal c) = Some (VStr (prd_path c)).
Proof. reflexivity. Qed.


Lemma field_string_inv h v k s :
  field h v k = VStr s ->
  exists o ops, v = VRef o /\ h !! o = Some (CObj ops) /\ obj_get k ops = Some (VStr s).
Proof.
  unfold field, get_prop. intros E.
  destruct v as [| |b|n|t|o]; try discriminate.
  destruct (h !! o) as [[ops|els]|] eqn:Eo; try discriminate.
  destruct (obj_get k ops) as [x|] eqn:Eg; cbn in E; [|discriminate].
  subst x. eauto.
Qed.

End After.
Import After.

(** ** The registry upsert *)

Module UpsertProps.

Section WithHost.

Variable H : Host.

Lemma empty_registry_run (w : world) (registry entry : val) :
  items_of (heap w) registry = Some [] ->
  exists r' w' item,
    upsertRegistry H registry entry w = (Ret r', w') /\
    items_of (heap w') r' = Some [item] /\
    field (heap w') item (js "created_at") = VStr (clock H (clock_reads w)) /\
    field (heap w') item (js "updated_at") = VStr (clock H (S (clock_reads w))).
Proof.
  intros Hitems.
  destruct (items_of_held _ _ _ Hitems) as (a & Hg & Ha).
  pose proof (insert_run H w registry entry _ a [] Hg Ha eq_refl) as Hrun.
  cbn zeta in Hrun.
  apply as_array_inv in Ha as [_ Ha].
  eexists _, _, (VRef (length (heap w))). split; [exact Hrun|]. cbn [heap].
  split; [|split].
  - apply items_of_returned; [|apply length_after].
    eapply lookup_store_same. apply lookup_alloc. exact Ha.
  - unfold field, get_prop. erewrite final_new by exact Ha.
    unfold inserted. rewrite object_literal_get, rev_app_distr. reflexivity.
  - unfold field, get_prop. erewrite final_new by exact Ha.
    unfold inserted. rewrite object_literal_get, rev_app_distr. reflexivity.
Qed.


(** C2, at the inputs where it fails. When the items of the registry are
    an array and no entry matches, the upsert pushes the new entry onto
    that very array: after the call the registry passed in has one item
    more than before, the same items as the registry returned. *)
Theorem upsert_insert_changes_the_registry_passed_in
    (w : world) (registry entry : val) (vs : list val) :
  items_of (heap w) registry = Some vs ->
  findIndex (same_entry (heap w) entry) 0%Z vs = Ret (-1)%Z ->
  exists r' w',
    upsertRegistry H registry entry w = (Ret r', w') /\
    items_of (heap w') registry = Some (vs ++ [VRef (length (heap w))]) /\
    items_of (heap w') r' = items_of (heap w') registry.
Proof.
  intros Hitems Hfind.
  destruct (items_of_inv _ _ _ Hitems) as (r & rps & a & -> & Hr & Hg & Ha).
  assert (Hheld : get_prop (heap w) (VRef r) (js "items") = Ret (VRef a)).
  { unfold get_prop. rewrite Hr, Hg. reflexivity. }
  pose proof (insert_run H w (VRef r) entry _ a vs Hheld (as_array_ref _ _ _ Ha) Hfind)
    as Hrun.
  cbn zeta in Hrun.
  eexists _, _. split; [exact Hrun|]. cbn [heap].
  match goal with
  | |- items_of ?h' _ = _ /\ _ =>
      assert (items_of h' (VRef r) = Some (vs ++ [VRef (length (heap w))])) as Hold
  end.
  { eapply items_of_intro.
    - eapply final_old; [exact Hr|]. intros ->. congruence.
    - exact Hg.
    - eapply final_array. exact Ha. }
  split; [exact Hold|]. rewrite Hold.
  apply items_of_returned; [|apply length_after].
  eapply lookup_store_same. apply lookup_alloc. exact Ha.
Qed.

(** C4. When the registry holds exactly one entry and its [prd_path] is
    the candidate's, the upsert returns a registry that still holds
    exactly one item; that item keeps the [created_at] of the old entry,
    its [updated_at] is the reading of the clock, and every field of the
    candidate has the candidate's value. *)
Theorem upsert_updates_the_matching_entry
    (w : world) (registry old : val) (e : loc) (c : Candidate) :
  store_ok (heap w) = true ->
  items_of (heap w) registry = Some [old] ->
  field (heap w) old (js "prd_path") = VStr (prd_path c) ->
  heap w !! e = Some (CObj (entry_literal c)) ->
  exists r' w' item,
    upsertRegistry H registry (VRef e) w = (Ret r', w') /\
    items_of (heap w') r' = Some [item] /\
    field (heap w') item (js "created_at") = field (heap w) old (js "created_at") /\
    field (heap w') item (js "updated_at") = VStr (clock H (clock_reads w)) /\
    forall k v, obj_get k (entry_literal c) = Some v -> field (heap w') item k = v.
Proof.
  intros Hok Hitems Hpath He.
  destruct (items_of_held _ _ _ Hitems) as (a & Hg & Ha).
  destruct (field_string_inv _ _ _ _ Hpath) as (o & ops & -> & Ho & Hop).
  assert (Hfind : findIndex (same_entry (heap w) (VRef e)) 0%Z [VRef o] = Ret 0%Z).
  { unfold findIndex, same_entry, get_prop.
    rewrite Ho, He, Hop, entry_literal_path.
    cbn. rewrite eqb_refl. reflexivity. }
  pose proof (update_run H w registry (VRef e) _ a [VRef o] 0%Z Hg Ha Hfind
                (Z.le_refl 0)) as Hrun.
  cbn in Hrun.
  apply as_array_inv in Ha as [_ Ha].
  eexists _, _, (VRef (length (heap w))). split; [exact Hrun|]. cbn [heap].
  match goal with
  | |- items_of ?h' _ = _ /\ _ =>
      assert (forall k,
                field h' (VRef (length (heap w))) k
                = default VUndef
                    (obj_get k ([(js "updated_at", VStr (clock H (clock_reads w)))]
                                ++ rev (entry_literal c) ++ rev ops))) as Hitem
  end.
  { intros k. unfold field, get_prop. erewrite final_new by exact Ha.
    change (default VUndef ([VRef o] !! Z.to_nat 0%Z)) with (VRef o).
    unfold merged, own_props. rewrite Ho, He.
    rewrite object_literal_get, !rev_app_distr. reflexivity. }
  split; [|split; [|split]].
  - apply items_of_returned; [|apply length_after].
    eapply lookup_store_same. apply lookup_alloc. exact Ha.
  - rewrite Hitem. unfold field, get_prop. rewrite Ho.
    rewrite <- (keys_once_rev _ ops (store_ok_lookup _ _ _ Hok Ho)).
    reflexivity.
  - rewrite Hitem. reflexivity.
  - intros k v Hk. rewrite Hitem.
    rewrite obj_get_app. cbn [obj_get].
    destruct (JsString.eqb k (js "updated_at")) eqn:E.
    + apply eqb_eq in E. subst k. discriminate Hk.
    + rewrite obj_get_app, keys_once_rev, Hk by reflexivity. reflexivity.
Qed.

End WithHost.

End UpsertProps.
Import UpsertProps.

(** ** Uniqueness of [prd_path] *)

Module Paths.

Lemma existsb_lookup {A} (f : A -> bool) (l : list A) :
  existsb f l = true <-> exists i x, l !! i = Some x /\ f x = true.
Proof.
  rewrite existsb_exists. split.
  - intros (x & Hin & Hf). apply list_elem_of_In, list_elem_of_lookup in Hin as [i Hi].
    eauto.
  - intros (i & x & Hi & Hf). exists x. split; auto.
    apply list_elem_of_In. eapply list_elem_of_lookup_2. exact Hi.
Qed.

Lemma is_path_eq p o : is_path p o = true <-> o = Some p.
Proof.
  destruct o as [s|]; simpl; [|split; discriminate].
  rewrite eqb_eq. split; congruence.
Qed.

Lemma distinct_spec (l : list (option jsstring)) :
  distinct l = true <->
  forall i j s, l !! i = Some (Some s) -> l !! j = Some (Some s) -> i = j.
Proof.
  induction l as [|o l IH]; simpl.
  - split; auto. intros _ i j s Hi. discriminate.
  - rewrite andb_true_iff, IH. split.
    + intros [Hhead Htail] i j s Hi Hj.
      destruct i as [|i], j as [|j]; simpl in *; auto.
      * injection Hi as ->. exfalso.
        apply negb_true_iff, not_true_iff_false in Hhead. apply Hhead.
        apply existsb_lookup. exists j, (Some s). split; auto.
        apply is_path_eq. reflexivity.
      * injection Hj as ->. exfalso.
        apply negb_true_iff, not_true_iff_false in Hhead. apply Hhead.
        apply existsb_lookup. exists i, (Some s). split; auto.
        apply is_path_eq. reflexivity.
      * f_equal. eapply Htail; eauto.
    + intros Hall. split.
      * destruct o as [p|]; auto.
        apply negb_true_iff, not_true_iff_false. intros Hex.
        apply existsb_lookup in Hex as (i & x & Hi & Hx).
        apply is_path_eq in Hx. subst x.
        specialize (Hall 0 (S i) p eq_refl Hi). discriminate.
      * intros i j s Hi Hj. specialize (Hall (S i) (S j) s Hi Hj). lia.
Qed.

Lemma holders_spec h p vs : forall i idx,
  forallb (Z.eqb idx) (holders h p i vs) = true <->
  forall j v, vs !! j = Some v -> holds_path h p v = true -> (i + Z.of_nat j)%Z = idx.
Proof.
  induction vs as [|v vs IH]; intros i idx; simpl.
  - split; auto. intros _ j v Hj. discriminate.
  - destruct (holds_path h p v) eqn:Ev; simpl.
    + rewrite andb_true_iff, IH, Z.eqb_eq. split.
      * intros [-> Hrest] [|j] x Hj Hx; simpl in *; [lia|].
        specialize (Hrest j x Hj Hx). lia.
      * intros Hall. split.
        -- specialize (Hall 0 v eq_refl Ev). simpl in Hall. lia.
        -- intros j x Hj Hx. specialize (Hall (S j) x Hj Hx). lia.
    + rewrite IH. split.
      * intros Hrest [|j] x Hj Hx; simpl in *.
        -- injection Hj as <-. congruence.
        -- specialize (Hrest j x Hj Hx). lia.
      * intros Hall j x Hj Hx. specialize (Hall (S j) x Hj Hx). lia.
Qed.

(** What [findIndex] found. *)
Lemma findIndex_spec (p : val -> outcome bool) vs : forall i idx,
  findIndex p i vs = Ret idx ->
  (idx = (-1)%Z /\ forall j v, vs !! j = Some v -> p v = Ret false) \/
  (exists k v, idx = (i + Z.of_nat k)%Z /\ vs !! k = Some v /\ p v = Ret true /\
               forall j x, (j < k)%nat -> vs !! j = Some x -> p x = Ret false).
Proof.
  induction vs as [|v vs IH]; intros i idx; simpl.
  - intros [= <-]. left. split; auto. intros j v Hj. discriminate.
  - destruct (p v) as [[|]|] eqn:Ev; cbn; try discriminate.
    + intros [= <-]. right. exists 0, v. repeat split; auto; [lia|].
      intros j x Hlt. lia.
    + intros Hrest. destruct (IH _ _ Hrest) as [[-> Hall]|(k & x & -> & Hk & Hx & Hbefore)].
      * left. split; auto. intros [|j] y Hj; simpl in Hj; [congruence|eauto].
      * right. exists (S k), x. repeat split; auto; [lia|].
        intros [|j] y Hlt Hj; simpl in Hj; [congruence|].
        eapply Hbefore; [|exact Hj]. lia.
Qed.

(** On objects the callback of [findIndex] does not throw. *)
Lemma same_entry_object h e eps it :
  h !! e = Some (CObj eps) -> is_object h it = true ->
  exists b, same_entry h (VRef e) it = Ret b.
Proof.
  intros He Hit. destruct it as [| | | | |o]; try discriminate.
  simpl in Hit. unfold same_entry, get_prop.
  destruct (h !! o) as [[ops|]|]; try discriminate.
  rewrite He. cbn.
  destruct (strict_eq _ _); cbn; eauto.
Qed.

Lemma findIndex_objects h e eps vs : forall i,
  h !! e = Some (CObj eps) -> forallb (is_object h) vs = true ->
  exists idx, findIndex (same_entry h (VRef e)) i vs = Ret idx.
Proof.
  induction vs as [|v vs IH]; intros i He Hall; simpl; eauto.
  simpl in Hall. apply andb_true_iff in Hall as [Hv Hall].
  destruct (same_entry_object _ _ _ _ He Hv) as [b ->]. cbn.
  destruct b; eauto.
Qed.

(** An entry the candidate does not match does not hold its path. *)
Lemma same_entry_false h e (c : Candidate) it :
  h !! e = Some (CObj (entry_literal c)) ->
  same_entry h (VRef e) it = Ret false ->
  holds_path h (prd_path c) it = false.
Proof.
  intros He. unfold same_entry, holds_path, path_of, field.
  destruct (get_prop h it (js "prd_path")) as [a|] eqn:Ea; cbn; [|discriminate].
  unfold get_prop at 1. rewrite He, entry_literal_path. cbn.
  destruct (strict_eq a (VStr (prd_path c))) eqn:Es; cbn; [discriminate|].
  intros _. destruct a; auto.
Qed.

Lemma is_object_frame h h' vs :
  (forall l ps, h !! l = Some (CObj ps) -> h' !! l = Some (CObj ps)) ->
  forallb (is_object h) vs = true ->
  map (path_of h') vs = map (path_of h) vs.
Proof.
  intros Hframe. induction vs as [|v vs IH]; simpl; auto.
  rewrite andb_true_iff. intros [Hv Hall]. rewrite IH by exact Hall. f_equal.
  destruct v as [| | | | |o]; try discriminate. simpl in Hv.
  unfold path_of, field, get_prop.
  destruct (h !! o) as [[ops|]|] eqn:Eo; try discriminate.
  rewrite (Hframe _ _ Eo). reflexivity.
Qed.

End Paths.
Import Paths.

Module PathsKept.

Lemma map_lookup {A B} (f : A -> B) (l : list A) (i : nat) :
  map f l !! i = f <$> (l !! i).
Proof.
  revert i. induction l as [|x l IH]; intros [|i]; simpl; auto.
Qed.

Lemma map_insert {A B} (f : A -> B) (l : list A) (i : nat) (x : A) :
  map f (<[i := x]> l) = <[i := f x]> (map f l).
Proof.
  revert i. induction l as [|y l IH]; intros [|i]; simpl; auto.
  f_equal. apply IH.
Qed.

Lemma distinct_snoc (l : list (option jsstring)) (p : jsstring) :
  distinct l = true ->
  (forall j, l !! j <> Some (Some p)) ->
  distinct (l ++ [Some p]) = true.
Proof.
  rewrite !distinct_spec. intros Hl Hfree i j s Hi Hj.
  destruct (lookup_app_Some l [Some p] i (Some s)) as [[Hi'|[Hge Hi']] _]; [exact Hi| |];
  destruct (lookup_app_Some l [Some p] j (Some s)) as [[Hj'|[Hge' Hj']] _];
    try exact Hj.
  - eauto.
  - destruct (j - length l) as [|?] eqn:E; simpl in Hj'; [|discriminate].
    injection Hj' as <-. elim (Hfree i). exact Hi'.
  - destruct (i - length l) as [|?] eqn:E; simpl in Hi'; [|discriminate].
    injection Hi' as <-. elim (Hfree j). exact Hj'.
  - destruct (i - length l) as [|?] eqn:E; simpl in Hi'; [|discriminate].
    destruct (j - length l) as [|?] eqn:E'; simpl in Hj'; [|discriminate].
    lia.
Qed.

Lemma distinct_insert (l : list (option jsstring)) (p : jsstring) (i : nat) :
  distinct l = true ->
  (forall j, j <> i -> l !! j <> Some (Some p)) ->
  distinct (<[i := Some p]> l) = true.
Proof.
  rewrite !distinct_spec. intros Hl Hfree j k s Hj Hk.
  destruct (decide (j = i)) as [->|Hji], (decide (k = i)) as [->|Hki]; auto.
  - rewrite list_lookup_insert_ne in Hk by auto.
    destruct (decide (i < length l)) as [Hlt|Hge].
    + rewrite list_lookup_insert_eq in Hj by exact Hlt. injection Hj as <-.
      elim (Hfree k Hki). exact Hk.
    + rewrite list_insert_ge in Hj by lia. eauto.
  - rewrite list_lookup_insert_ne in Hj by auto.
    destruct (decide (i < length l)) as [Hlt|Hge].
    + rewrite list_lookup_insert_eq in Hk by exact Hlt. injection Hk as <-.
      elim (Hfree j Hji). exact Hj.
    + rewrite list_insert_ge in Hk by lia. eauto.
  - rewrite list_lookup_insert_ne in Hj, Hk by auto. eauto.
Qed.

Lemma path_lookup h vs j p :
  map (path_of h) vs !! j = Some (Some p) ->
  exists v, vs !! j = Some v /\ holds_path h p v = true.
Proof.
  rewrite map_lookup. destruct (vs !! j) as [v|]; [|discriminate].
  cbn. intros [= E]. exists v. split; auto.
  unfold holds_path. rewrite E. apply is_path_eq. reflexivity.
Qed.

Section WithHost.

Variable H : Host.

(** C3, as amended. In a registry of objects no two of which share a
    [prd_path], when every entry that holds the candidate's [prd_path] is
    the entry the upsert matches (the first one equal to the candidate by
    [prd_path] or by [product_name]), the registry returned has no two
    entries sharing a [prd_path] either. *)
Theorem upsert_keeps_paths_unique
    (w : world) (registry : val) (e : loc) (c : Candidate)
    (vs : list val) (idx : Z) :
  items_of (heap w) registry = Some vs ->
  forallb (is_object (heap w)) vs = true ->
  heap w !! e = Some (CObj (entry_literal c)) ->
  unique_paths (heap w) vs = true ->
  findIndex (same_entry (heap w) (VRef e)) 0%Z vs = Ret idx ->
  forallb (Z.eqb idx) (holders (heap w) (prd_path c) 0%Z vs) = true ->
  exists r' w' vs',
    upsertRegistry H registry (VRef e) w = (Ret r', w') /\
    items_of (heap w') r' = Some vs' /\
    unique_paths (heap w') vs' = true.
Proof.
  intros Hitems Hobj He Huniq Hfind Hsc.
  destruct (items_of_inv _ _ _ Hitems) as (r & rps & a & -> & Hr & Hg & Ha).
  assert (Hheld : get_prop (heap w) (VRef r) (js "items") = Ret (VRef a)).
  { unfold get_prop. rewrite Hr, Hg. reflexivity. }
  pose proof (as_array_ref _ _ _ Ha) as Harr.
  assert (Hframe : forall (x d : cell) l ps,
             heap w !! l = Some (CObj ps) ->
             (<[a := x]> (heap w ++ [d]) ++ [returned (<[a := x]> (heap w ++ [d])) (VRef r) a])
               !! l = Some (CObj ps)).
  { intros x d l ps Hl. eapply final_old; [exact Hl|]. intros ->. congruence. }
  destruct (findIndex_spec _ _ _ _ Hfind)
    as [[-> Hnone]|(k & v & -> & Hk & Hv & _)].
  - pose proof (insert_run H w (VRef r) (VRef e) _ a vs Hheld Harr Hfind) as Hrun.
    cbn zeta in Hrun.
    eexists _, _, _. split; [exact Hrun|]. cbn [heap]. split.
    + apply items_of_returned; [|apply length_after].
      eapply lookup_store_same. apply lookup_alloc. exact Ha.
    + unfold unique_paths. rewrite map_app.
      rewrite (is_object_frame (heap w)) by (auto using Hframe).
      cbn [map]. unfold path_of at 2, field, get_prop.
      erewrite final_new by exact Ha.
      unfold inserted, own_props. rewrite He.
      rewrite object_literal_get, rev_app_distr.
      change (distinct (map (path_of (heap w)) vs ++ [Some (prd_path c)]) = true).
      apply distinct_snoc; [exact Huniq|].
      intros j Hj. apply path_lookup in Hj as (x & Hx & Hp).
      rewrite (same_entry_false _ _ _ _ He (Hnone _ _ Hx)) in Hp. discriminate.
  - pose proof (update_run H w (VRef r) (VRef e) _ a vs _ Hheld Harr Hfind
                  ltac:(lia)) as Hrun.
    cbn zeta in Hrun.
    eexists _, _, _. split; [exact Hrun|]. cbn [heap]. split.
    + apply items_of_returned; [|apply length_after].
      eapply lookup_store_same. apply lookup_alloc. exact Ha.
    + unfold unique_paths, array_set.
      replace (Z.to_nat (0 + Z.of_nat k)) with k by lia.
      pose proof (lookup_lt_Some _ _ _ Hk) as Hlt.
      apply Nat.ltb_lt in Hlt as Hltb. rewrite Hltb.
      rewrite map_insert.
      rewrite (is_object_frame (heap w)) by (auto using Hframe).
      unfold path_of at 1, field, get_prop.
      erewrite final_new by exact Ha.
      unfold merged. unfold own_props at 2. rewrite He.
      rewrite object_literal_get, !rev_app_distr.
      change (distinct (<[k := Some (prd_path c)]> (map (path_of (heap w)) vs)) = true).
      apply distinct_insert; [exact Huniq|].
      intros j Hjk Hj. apply path_lookup in Hj as (x & Hx & Hp).
      pose proof (proj1 (holders_spec _ _ _ _ _) Hsc j x Hx Hp). lia.
Qed.

End WithHost.

End PathsKept.
Import PathsKept.

(** ** Building parsed values in the store *)

Module Building.

Lemma kind0_prefix (j : json) (h h' : list cell) (v : val) :
  kind0 j h v -> h `prefix_of` h' -> kind0 j h' v.
Proof.
  intros Hk Hp. destruct j; cbn in *; auto.
  - destruct Hk as (l & vs & -> & Hl). eauto using prefix_lookup_Some.
  - destruct Hk as (l & ps & -> & Hl). eauto using prefix_lookup_Some.
Qed.

Lemma kind_prefix (j : json) (h h' : list cell) (v : val) :
  kind j h v -> h `prefix_of` h' -> kind j h' v.
Proof.
  intros Hk Hp. destruct j as [|b|n|s|elems|members].
  1: exact (kind0_prefix JNull _ _ _ Hk Hp).
  1: exact (kind0_prefix (JBool b) _ _ _ Hk Hp).
  1: exact (kind0_prefix (JNum n) _ _ _ Hk Hp).
  1: exact (kind0_prefix (JStr s) _ _ _ Hk Hp).
  2: exact (kind0_prefix (JObj members) _ _ _ Hk Hp).
  cbn in *. destruct Hk as (l & vs & -> & Hl & Hall).
  exists l, vs. split; [reflexivity|].
  split; [eapply prefix_lookup_Some; eassumption|].
  eapply Forall2_impl; [exact Hall|]. intros x u Hx. cbn in Hx.
  eapply kind0_prefix; eassumption.
Qed.

Lemma kind_top (j : json) (h : list cell) (v : val) : kind j h v -> kind0 j h v.
Proof.
  destruct j; auto. cbn. intros (l & vs & -> & Hl & _). eauto.
Qed.

Lemma alloc_elements_prefix (l : list json) :
  Forall (fun j => forall h v h', alloc_json j h = (v, h') ->
                                  h `prefix_of` h' /\ kind j h' v) l ->
  forall h vs h', alloc_elements alloc_json l h = (vs, h') ->
                  h `prefix_of` h' /\ Forall2 (fun j v => kind j h' v) l vs.
Proof.
  induction 1 as [|j l Hj _ IH]; intros h vs h'; cbn.
  - intros [= <- <-]. split; [reflexivity|constructor].
  - destruct (alloc_json j h) as [v h1] eqn:E1.
    destruct (alloc_elements alloc_json l h1) as [vs2 h2] eqn:E2.
    intros [= <- <-].
    destruct (Hj _ _ _ E1) as [P1 K1]. destruct (IH _ _ _ E2) as [P2 K2].
    split; [etrans; eauto|]. constructor; eauto using kind_prefix.
Qed.

Lemma keys_once_set k v ps : keys_once ps = true -> keys_once (obj_set k v ps) = true.
Proof.
  induction ps as [|[k' v'] ps IH]; cbn; auto.
  destruct (obj_get k' ps) eqn:E'; [discriminate|]. intros Hk.
  destruct (JsString.eqb k k') eqn:E; cbn.
  - apply eqb_eq in E. subst k'. rewrite E'. exact Hk.
  - rewrite obj_get_set_ne; [rewrite E'; auto|].
    apply eqb_neq in E. exact E.
Qed.

Lemma alloc_members_prefix (l : list (jsstring * json)) :
  Forall (fun kv => forall h v h', alloc_json (snd kv) h = (v, h') ->
                                   h `prefix_of` h' /\ kind (snd kv) h' v) l ->
  forall acc h ps h',
    alloc_members alloc_json l acc h = (ps, h') ->
    keys_once acc = true ->
    h `prefix_of` h' /\ keys_once ps = true /\
    forall k, match member k l with
              | Some x => exists u, obj_get k ps = Some u /\ kind x h' u
              | None => obj_get k ps = obj_get k acc
              end.
Proof.
  induction 1 as [|[k1 x1] l Hj _ IH]; intros acc h ps h'; cbn.
  - intros [= <- <-] Hacc. repeat split; auto.
  - destruct (alloc_json x1 h) as [v1 h1] eqn:E1. intros E2 Hacc.
    destruct (Hj _ _ _ E1) as [P1 K1]. cbn in K1.
    destruct (IH _ _ _ _ E2 (keys_once_set k1 v1 acc Hacc)) as (P2 & Hps & Hget).
    split; [etrans; eauto|]. split; [exact Hps|].
    intros k. specialize (Hget k). destruct (member k l) as [y|]; [exact Hget|].
    destruct (JsString.eqb k k1) eqn:E.
    + apply eqb_eq in E. subst k1. exists v1. rewrite Hget, obj_get_set_eq.
      split; [reflexivity|]. eapply kind_prefix; eauto.
    + rewrite Hget. apply obj_get_set_ne. apply eqb_neq in E. congruence.
Qed.

(** A built value lies in a store that extends the old one, and is what
    the parsed value says. *)
Lemma alloc_json_kind (j : json) :
  forall h v h', alloc_json j h = (v, h') -> h `prefix_of` h' /\ kind j h' v.
Proof.
  induction j as [| | | |elems IH|members IH] using json_nested_ind;
    intros h v h'; cbn.
  1-4: intros [= <- <-]; split; reflexivity.
  - destruct (alloc_elements alloc_json elems h) as [vs h1] eqn:E.
    intros [= <- <-]. destruct (alloc_elements_prefix _ IH _ _ _ E) as [P1 Hall].
    split; [etrans; [exact P1|apply prefix_app_r; reflexivity]|].
    exists (length h1), vs. split; [reflexivity|]. split; [apply lookup_fresh|].
    eapply Forall2_impl; [exact Hall|]. intros x u Hx. cbn in Hx.
    eapply kind0_prefix; [apply kind_top; exact Hx|apply prefix_app_r; reflexivity].
  - destruct (alloc_members alloc_json members [] h) as [ps h1] eqn:E.
    intros [= <- <-].
    destruct (alloc_members_prefix _ IH _ _ _ _ E eq_refl) as (P1 & _).
    split; [etrans; [exact P1|apply prefix_app_r; reflexivity]|].
    exists (length h1), ps. split; [reflexivity|apply lookup_fresh].
Qed.

Lemma all_kinds (l : list json) :
  Forall (fun j => forall h v h', alloc_json j h = (v, h') ->
                                  h `prefix_of` h' /\ kind j h' v) l.
Proof. apply Forall_forall. intros j _. apply alloc_json_kind. Qed.

Lemma all_member_kinds (l : list (jsstring * json)) :
  Forall (fun kv => forall h v h', alloc_json (snd kv) h = (v, h') ->
                                   h `prefix_of` h' /\ kind (snd kv) h' v) l.
Proof. apply Forall_forall. intros kv _. apply alloc_json_kind. Qed.

(** The object built from the members of a parsed object. *)
Lemma alloc_object (members : list (jsstring * json)) (h : list cell) :
  exists r ps h',
    alloc_json (JObj members) h = (VRef r, h') /\
    h `prefix_of` h' /\
    h' !! r = Some (CObj ps) /\ keys_once ps = true /\
    forall k, match member k members with
              | Some x => exists u, obj_get k ps = Some u /\ kind x h' u
              | None => obj_get k ps = None
              end.
Proof.
  cbn. destruct (alloc_members alloc_json members [] h) as [ps h1] eqn:E.
  destruct (alloc_members_prefix _ (all_member_kinds members) _ _ _ _ E eq_refl)
    as (P1 & Hps & Hget).
  exists (length h1), ps, (h1 ++ [CObj ps]). split; [reflexivity|].
  split; [etrans; [exact P1|apply prefix_app_r; reflexivity]|].
  split; [apply lookup_fresh|]. split; [exact Hps|].
  intros k. specialize (Hget k). destruct (member k members) as [x|]; [|exact Hget].
  destruct Hget as (u & Hu & Hk). exists u. split; [exact Hu|].
  eapply kind_prefix; [exact Hk|apply prefix_app_r; reflexivity].
Qed.

End Building.
Import Building.

(** ** The classification computed after the upsert *)

Module Classification.

Lemma some_reaches (p : val -> outcome bool) (pre : list val) (x : val)
    (post : list val) :
  (forall v, In v pre -> exists b, p v = Ret b) ->
  p x = Ret true ->
  some p (pre ++ x :: post) = Ret true.
Proof.
  intros Hpre Hx. induction pre as [|v pre IH]; simpl.
  - rewrite Hx. reflexivity.
  - destruct (Hpre v (or_introl eq_refl)) as [b ->]. cbn.
    destruct b; auto. apply IH. intros u Hu. apply Hpre. right. exact Hu.
Qed.

Lemma same_entry_returns h entry v b :
  same_entry h entry v = Ret b -> v <> VUndef /\ v <> VNull.
Proof.
  unfold same_entry. destruct v; cbn; try discriminate; split; discriminate.
Qed.

Lemma is_published_total h p n v :
  v <> VUndef -> v <> VNull -> exists b, is_published h p n v = Ret b.
Proof.
  intros Hu Hn. unfold is_published.
  destruct v as [| |b|x|s|l]; try congruence; cbn; eauto.
  destruct (h !! l) as [[ps|]|]; cbn; eauto.
  destruct (strict_eq _ _); cbn; eauto.
Qed.

Lemma is_published_new h l ps p n :
  h !! l = Some (CObj ps) -> obj_get (js "prd_path") ps = Some (VStr p) ->
  is_published h p n (VRef l) = Ret true.
Proof.
  intros Hl Hp. unfold is_published, get_prop. rewrite Hl, Hp. cbn.
  rewrite eqb_refl. reflexivity.
Qed.

Lemma registry_items_some_run (w : world) (r a : loc) rps (vs : list val) p n :
  heap w !! r = Some (CObj rps) -> obj_get (js "items") rps = Some (VRef a) ->
  heap w !! a = Some (CArr vs) ->
  registry_items_some (VRef r) p n w = (some (is_published (heap w) p n) vs, w).
Proof.
  intros Hr Hg Ha. unfold registry_items_some, reading, get_prop, as_array.
  rewrite Hr, Hg. cbn. rewrite Ha. reflexivity.
Qed.

Section WithHost.

Variable H : Host.

Lemma upsert_throws (w : world) (registry entry held : val) (a : loc)
    (vs : list val) (t : thrown) :
  get_prop (heap w) registry (js "items") = Ret held ->
  as_array (heap w) held = Some (a, vs) ->
  findIndex (same_entry (heap w) entry) 0%Z vs = Throw t ->
  upsertRegistry H registry entry w = (Throw t, w).
Proof.
  intros Hg Ha Hf. destruct (as_array_inv _ _ _ _ Ha) as [-> Hcell].
  unfold upsertRegistry, mbind, M_bind, reading, elements, alloc, store, now,
    mret, M_ret.
  cbn. rewrite Hg. cbn. rewrite Hcell. cbn. rewrite Hcell, Hf. reflexivity.
Qed.

(** Whatever the registry held before, once the upsert has returned the
    test [registry.items.some(...)] of [publishPrd] answers [true]: the
    array it scans is the one the upsert has just written the candidate
    into. *)
Theorem classification_after_upsert
    (w : world) (registry : val) (e : loc) (c : Candidate) (vs : list val)
    (r' : val) (w' : world) :
  items_of (heap w) registry = Some vs ->
  heap w !! e = Some (CObj (entry_literal c)) ->
  upsertRegistry H registry (VRef e) w = (Ret r', w') ->
  registry_items_some registry (prd_path c) (product_name c) w' = (Ret true, w').
Proof.
  intros Hitems He Hup.
  destruct (items_of_inv _ _ _ Hitems) as (r & rps & a & -> & Hr & Hg & Ha).
  assert (Hheld : get_prop (heap w) (VRef r) (js "items") = Ret (VRef a)).
  { unfold get_prop. rewrite Hr, Hg. reflexivity. }
  pose proof (as_array_ref _ _ _ Ha) as Harr.
  assert (Hra : a <> r) by (intros ->; congruence).
  destruct (findIndex (same_entry (heap w) (VRef e)) 0%Z vs) as [idx|t] eqn:Hfind.
  2:{ rewrite (upsert_throws w _ _ _ a vs t Hheld Harr Hfind) in Hup. discriminate. }
  destruct (findIndex_spec _ _ _ _ Hfind)
    as [[-> Hnone]|(k & v & -> & Hk & Hv & Hbefore)].
  - rewrite (insert_run H w _ _ _ a vs Hheld Harr Hfind) in Hup.
    cbn zeta in Hup. injection Hup as <- <-.
    erewrite registry_items_some_run;
      [|eapply final_old; eauto|exact Hg|eapply final_array; exact Ha].
    cbn [heap]. f_equal.
    apply some_reaches.
    + intros x Hx. apply list_elem_of_In, list_elem_of_lookup in Hx as [j Hj].
      destruct (same_entry_returns _ _ _ _ (Hnone _ _ Hj)).
      apply is_published_total; auto.
    + eapply is_published_new; [eapply final_new; exact Ha|].
      unfold own_props. rewrite He.
      rewrite object_literal_get, rev_app_distr. reflexivity.
  - rewrite (update_run H w _ _ _ a vs _ Hheld Harr Hfind ltac:(lia)) in Hup.
    cbn zeta in Hup. injection Hup as <- <-.
    erewrite registry_items_some_run;
      [|eapply final_old; eauto|exact Hg|eapply final_array; exact Ha].
    cbn [heap]. f_equal.
    replace (Z.to_nat (0 + Z.of_nat k)) with k by lia.
    pose proof (lookup_lt_Some _ _ _ Hk) as Hlt.
    unfold array_set. apply Nat.ltb_lt in Hlt as Hltb. rewrite Hltb.
    rewrite (insert_take_drop vs) by exact Hlt.
    apply some_reaches.
    + intros x Hx. apply list_elem_of_In, list_elem_of_lookup in Hx as [j Hj].
      apply lookup_take_Some in Hj as [Hj Hjk].
      destruct (same_entry_returns _ _ _ _ (Hbefore _ _ Hjk Hj)).
      apply is_published_total; auto.
    + eapply is_published_new; [eapply final_new; exact Ha|].
      unfold own_props at 2. rewrite He.
      rewrite object_literal_get, !rev_app_distr. reflexivity.
Qed.

End WithHost.

End Classification.
Import Classification.

(** ** Loading the registry *)

Module Loading.

Section WithHost.

Variable H : Host.

Lemma build_new_registry (w : world) :
  build new_registry w =
  (Ret (VRef (S (length (heap w)))),
   World (heap w ++ [CArr []]
                 ++ [CObj [(js "version", VStr (js "1"));
                           (js "items", VRef (length (heap w)))]])
     (clock_reads w) (requests w)).
Proof.
  unfold build, new_registry. cbn.
  rewrite length_app, Nat.add_1_r, <- app_assoc. reflexivity.
Qed.

Lemma new_registry_items (h : list cell) :
  items_of (h ++ [CArr []]
              ++ [CObj [(js "version", VStr (js "1")); (js "items", VRef (length h))]])
    (VRef (S (length h))) = Some [].
Proof.
  eapply items_of_intro.
  - rewrite app_assoc. replace (S (length h)) with (length (h ++ [CArr []])).
    + apply lookup_fresh.
    + rewrite length_app, Nat.add_1_r. reflexivity.
  - reflexivity.
  - apply list_lookup_middle. reflexivity.
Qed.

(** C6. Content that is absent, empty or not JSON loads, without an
    error, as the new registry with version 1 and no items, and the
    upsert that follows is the upsert against that empty registry: it
    returns a registry holding the candidate as its single item. *)
Theorem unreadable_registry_is_replaced
    (w : world) (content : option jsstring) (entry : val) :
  truthy content = false \/ JSON_parse H (default [] content) = None ->
  exists registry w1,
    loadRegistry H content w = (Ret registry, w1) /\
    build new_registry w = (Ret registry, w1) /\
    field (heap w1) registry (js "version") = VStr (js "1") /\
    items_of (heap w1) registry = Some [] /\
    (registry ← loadRegistry H content; upsertRegistry H registry entry) w
    = (registry ← build new_registry; upsertRegistry H registry entry) w /\
    exists r' w' item,
      upsertRegistry H registry entry w1 = (Ret r', w') /\
      items_of (heap w') r' = Some [item].
Proof.
  intros Hcontent.
  assert (Hload : loadRegistry H content w = build new_registry w).
  { unfold loadRegistry. destruct Hcontent as [-> | ->]; [reflexivity|].
    destruct (truthy content); reflexivity. }
  eexists _, _. split; [rewrite Hload; apply build_new_registry|].
  split; [apply build_new_registry|]. cbn [heap].
  split; [|split; [apply new_registry_items|split]].
  - unfold field, get_prop. rewrite app_assoc.
    replace (S (length (heap w))) with (length (heap w ++ [CArr []]))
      by (rewrite length_app, Nat.add_1_r; reflexivity).
    rewrite lookup_fresh. reflexivity.
  - unfold mbind, M_bind. rewrite Hload. reflexivity.
  - destruct (empty_registry_run H
                (World (heap w ++ [CArr []]
                          ++ [CObj [(js "version", VStr (js "1"));
                                    (js "items", VRef (length (heap w)))]])
                   (clock_reads w) (requests w))
                (VRef (S (length (heap w)))) entry
                (new_registry_items (heap w)))
      as (r' & w' & item & Hrun & Hitems & _).
    eauto.
Qed.


Lemma load_is_build (content : option jsstring) :
  loadRegistry H content = build (loaded H content).
Proof.
  unfold loadRegistry, loaded. destruct (truthy content); [|reflexivity].
  destruct (JSON_parse H _); reflexivity.
Qed.


End WithHost.

End Loading.
Import Loading.

(** ** The publisher *)

Module Publisher.

Lemma run_bind {A B} (c : M A) (f : A -> M B) (w w1 : world) (a : A) :
  c w = (Ret a, w1) -> (c ≫= f) w = f a w1.
Proof. intros E. unfold mbind, M_bind. rewrite E. reflexivity. Qed.

Lemma run_bind_throw {A B} (c : M A) (f : A -> M B) (w w1 : world) (t : thrown) :
  c w = (Throw t, w1) -> (c ≫= f) w = (Throw t, w1).
Proof. intros E. unfold mbind, M_bind. rewrite E. reflexivity. Qed.

Lemma quiet_same {A} (c : M A) :
  (forall w, requests (snd (c w)) = requests w) -> quiet c.
Proof. intros E w. exists []. rewrite E, app_nil_r. auto. Qed.

Lemma quiet_bind {A B} (c : M A) (f : A -> M B) :
  quiet c -> (forall a, quiet (f a)) -> quiet (c ≫= f).
Proof.
  intros Hc Hf w. unfold mbind, M_bind.
  destruct (Hc w) as (new1 & E1 & R1).
  destruct (c w) as [[a|t] w1]; cbn in *.
  - destruct (Hf a w1) as (new2 & E2 & R2). exists (new1 ++ new2).
    rewrite E2, E1, app_assoc, forallb_app, R1, R2. auto.
  - exists new1. auto.
Qed.

Lemma quiet_ret {A} (a : A) : quiet (mret a : M A).
Proof. apply quiet_same. reflexivity. Qed.

Lemma quiet_throw {A} (t : thrown) : quiet (throw t : M A).
Proof. apply quiet_same. reflexivity. Qed.

Lemma quiet_reading {A} (f : list cell -> outcome A) : quiet (reading f).
Proof. apply quiet_same. reflexivity. Qed.

Lemma quiet_alloc (c : cell) : quiet (alloc c).
Proof. apply quiet_same. reflexivity. Qed.

Lemma quiet_store (l : loc) (c : cell) : quiet (store l c).
Proof. apply quiet_same. reflexivity. Qed.

Lemma quiet_elements (l : loc) : quiet (elements l).
Proof. apply quiet_same. reflexivity. Qed.

Lemma quiet_build (j : json) : quiet (build j).
Proof.
  apply quiet_same. intros w. unfold build.
  destruct (alloc_json j (heap w)). reflexivity.
Qed.

Lemma quiet_try_catch {A} (c : M A) (handler : thrown -> M A) :
  quiet c -> (forall t, quiet (handler t)) -> quiet (try_catch c handler).
Proof.
  intros Hc Hh w. unfold try_catch.
  destruct (Hc w) as (new1 & E1 & R1).
  destruct (c w) as [[a|t] w1]; cbn in *.
  - exists new1. auto.
  - destruct (Hh t w1) as (new2 & E2 & R2). exists (new1 ++ new2).
    rewrite E2, E1, app_assoc, forallb_app, R1, R2. auto.
Qed.

Section WithHost.

Variable H : Host.

Lemma quiet_now : quiet (now H).
Proof. apply quiet_same. reflexivity. Qed.

Lemma quiet_getFile cfg path ref : quiet (getFile H cfg path ref).
Proof. intros w. exists [Request cfg (GetFile path ref)]. auto. Qed.

Lemma quiet_upsertRegistry registry entry : quiet (upsertRegistry H registry entry).
Proof.
  unfold upsertRegistry.
  repeat first
    [ apply quiet_bind; [|intros ?]
    | apply quiet_reading | apply quiet_alloc | apply quiet_store
    | apply quiet_elements | apply quiet_now | apply quiet_ret
    | match goal with
      | |- quiet (match ?x with _ => _ end) => destruct x
      | |- quiet (if ?x then _ else _) => destruct x
      end ].
Qed.

Lemma quiet_loadRegistry content : quiet (loadRegistry H content).
Proof.
  unfold loadRegistry.
  destruct (truthy content); [destruct (JSON_parse H _)|]; apply quiet_build.
Qed.

Lemma quiet_generateBranchName d n : quiet (generateBranchName H d n).
Proof.
  unfold generateBranchName. apply quiet_bind; [apply quiet_now|].
  intros ?. apply quiet_ret.
Qed.

Lemma quiet_registry_items_some registry p n :
  quiet (registry_items_some registry p n).
Proof. apply quiet_reading. Qed.

Lemma discreet_ret (res : PublishResult) :
  prNumber res = None -> prUrl res = None -> discreet (mret res).
Proof.
  intros Hn Hu w. split; [|cbn; auto].
  exists []. cbn. rewrite app_nil_r. auto.
Qed.

Lemma discreet_bind {A} (c : M A) (f : A -> M PublishResult) :
  quiet c -> (forall a, discreet (f a)) -> discreet (c ≫= f).
Proof.
  intros Hc Hf w. unfold mbind, M_bind.
  destruct (Hc w) as (new1 & E1 & R1).
  destruct (c w) as [[a|t] w1]; cbn in *.
  - destruct (Hf a w1) as [(new2 & E2 & R2) Hres]. split; [|exact Hres].
    exists (new1 ++ new2).
    rewrite E2, E1, app_assoc, forallb_app, R1, R2. auto.
  - split; [|exact I]. exists new1. auto.
Qed.

Lemma publish_to_discreet (options : PublishOptions)
    (prdContent productName : jsstring) (github : GitHubConfig) :
  dryRun options = Some true ->
  discreet (publish_to H options prdContent productName github).
Proof.
  intros Hdry. unfold publish_to. rewrite Hdry. cbn [default from_option id].
  repeat first
    [ apply discreet_bind; [|intros ?]
    | apply discreet_ret; reflexivity
    | apply quiet_getFile | apply quiet_loadRegistry | apply quiet_alloc
    | apply quiet_upsertRegistry | apply quiet_registry_items_some
    | apply quiet_generateBranchName | apply quiet_reading ].
Qed.

Lemma publish_steps_discreet (options : PublishOptions) :
  dryRun options = Some true -> discreet (publish_steps H options).
Proof.
  intros Hdry. unfold publish_steps.
  destruct (negb (valid _)); [apply discreet_ret; reflexivity|].
  apply discreet_bind; [apply quiet_reading|]. intros prdContent.
  destruct (negb (truthy _)); [apply discreet_ret; reflexivity|].
  apply discreet_bind; [apply quiet_reading|]. intros target.
  apply publish_to_discreet. exact Hdry.
Qed.

Lemma publishPrd_dry (options : PublishOptions) (w : world) :
  dryRun options = Some true ->
  exists res w' new,
    publishPrd H options w = (Ret res, w') /\
    requests w' = requests w ++ new /\
    forallb is_read new = true /\
    prNumber res = None /\ prUrl res = None.
Proof.
  intros Hdry. unfold publishPrd, try_catch.
  destruct (publish_steps_discreet options Hdry w) as [(new & E & R) Hres].
  destruct (publish_steps H options w) as [[res|t] w']; cbn in *.
  - destruct Hres. exists res, w', new. auto.
  - eexists _, w', new. split; [reflexivity|]. auto.
Qed.

End WithHost.

End Publisher.
Import Publisher.

Module DryRun.

Lemma items_of_app h ext registry vs :
  items_of h registry = Some vs -> items_of (h ++ ext) registry = Some vs.
Proof.
  intros E. destruct (items_of_inv _ _ _ E) as (r & rps & a & -> & Hr & Hg & Ha).
  eapply items_of_intro; eauto using lookup_app_l_Some.
Qed.

Lemma is_object_app h ext vs :
  forallb (is_object h) vs = true -> forallb (is_object (h ++ ext)) vs = true.
Proof.
  rewrite !forallb_forall. intros Hall v Hv. specialize (Hall v Hv).
  destruct v as [| | | | |l]; try discriminate. simpl in *.
  destruct (h !! l) as [[ps|]|] eqn:E; try discriminate.
  rewrite (lookup_app_l_Some _ _ _ _ E). reflexivity.
Qed.

Section WithHost.

Variable H : Host.

Lemma shaped_registry_loads (content : option jsstring) (w : world) :
  registry_shape (loaded H content) = true ->
  exists registry w2 vs,
    loadRegistry H content w = (Ret registry, w2) /\
    requests w2 = requests w /\
    items_of (heap w2) registry = Some vs /\
    forallb (is_object (heap w2)) vs = true.
Proof.
  rewrite load_is_build. destruct (loaded H content) as [| | | | |members];
    try discriminate.
  cbn [registry_shape].
  destruct (member (js "items") members) as [[| | | |elems|]|] eqn:Hm;
    try discriminate.
  intros Helems.
  destruct (alloc_object members (heap w))
    as (r & rps & h1 & Halloc & _ & Hr & _ & Hget).
  specialize (Hget (js "items")). rewrite Hm in Hget.
  destruct Hget as (u & Hu & l & vs & -> & Hl & Hall).
  exists (VRef r), (World h1 (clock_reads w) (requests w)), vs.
  split; [unfold build; rewrite Halloc; reflexivity|].
  split; [reflexivity|]. cbn [heap].
  split; [eapply items_of_intro; eassumption|].
  clear - Helems Hall. induction Hall as [|x v elems vs Hx _ IH]; [reflexivity|].
  cbn in Helems. apply andb_true_iff in Helems as [Hobj Hrest].
  cbn. rewrite IH by exact Hrest.
  destruct x; try discriminate. destruct Hx as (o & ps & -> & Ho).
  cbn. rewrite Ho. reflexivity.
Qed.

Lemma upsert_returns (w : world) (registry : val) (e : loc) (c : Candidate)
    (vs : list val) :
  items_of (heap w) registry = Some vs ->
  forallb (is_object (heap w)) vs = true ->
  heap w !! e = Some (CObj (entry_literal c)) ->
  exists r' w', upsertRegistry H registry (VRef e) w = (Ret r', w').
Proof.
  intros Hitems Hobj He.
  destruct (items_of_held _ _ _ Hitems) as (a & Hg & Ha).
  destruct (findIndex_objects _ _ _ vs 0%Z He Hobj) as [idx Hfind].
  destruct (findIndex_spec _ _ _ _ Hfind) as [[-> _]|(k & v & -> & _)].
  - rewrite (insert_run H w _ _ _ a vs Hg Ha Hfind). eauto.
  - rewrite (update_run H w _ _ _ a vs _ Hg Ha Hfind ltac:(lia)). eauto.
Qed.

Lemma publish_to_dry_success (options : PublishOptions)
    (prdContent productName : jsstring) (github : GitHubConfig)
    (registryContent : option jsstring) (w : world) :
  dryRun options = Some true ->
  remote_getFile H (requests w) github (js "registry.json")
    (or_else (baseBranch options) (js "main")) = Ret registryContent ->
  registry_shape (loaded H registryContent) = true ->
  exists w',
    publish_to H options prdContent productName github w = (Ret dry_run_success, w').
Proof.
  intros Hdry Hfetch Hready. unfold publish_to.
  erewrite run_bind; [|unfold getFile, send; rewrite Hfetch; reflexivity].
  match goal with
  | |- context [(loadRegistry H registryContent ≫= _) ?w1] =>
      destruct (shaped_registry_loads registryContent w1 Hready)
        as (registry & w2 & vs & Hload & Hlog2 & Hitems & Hobj)
  end.
  cbn [requests] in Hlog2.
  erewrite run_bind by exact Hload.
  erewrite run_bind by reflexivity.
  erewrite run_bind by reflexivity.
  cbn [heap clock_reads requests].
  match goal with
  | |- exists _, (upsertRegistry H registry (VRef ?e) ≫= _) ?w3 = _ =>
      destruct (upsert_returns w3 registry e
                  {| product_name := productName;
                     entry_domain := domain options;
                     owner_team := or_else (ownerTeam options) [];
                     source_repo := or_else (resolveSourceRepo H options) [];
                     prd_path := prdPath_of H options productName;
                     entry_tags := VRef (length (heap w2)) |} vs)
        as (r' & w4 & Hup);
      [ cbn [heap]; rewrite <- app_assoc; apply items_of_app; exact Hitems
      | cbn [heap]; rewrite <- app_assoc; apply is_object_app; exact Hobj
      | cbn [heap]; apply lookup_fresh
      | pose proof (classification_after_upsert H w3 registry e _ vs r' w4
                      ltac:(cbn [heap]; rewrite <- app_assoc;
                            apply items_of_app; exact Hitems)
                      ltac:(cbn [heap]; apply lookup_fresh) Hup) as Hclass ]
  end.
  cbn [prd_path product_name] in Hclass.
  erewrite run_bind by exact Hup.
  erewrite run_bind by exact Hclass.
  erewrite run_bind by reflexivity.
  erewrite run_bind by reflexivity.
  rewrite Hdry. cbn [default from_option id]. eexists. reflexivity.
Qed.

Lemma titles_app (l1 l2 : list request) :
  pull_request_titles (l1 ++ l2) = pull_request_titles l1 ++ pull_request_titles l2.
Proof. unfold pull_request_titles. apply omap_app. Qed.

(** Over a registry that loads as an array of objects, whatever entries
    it holds, a publish that is not a dry run asks for no pull request
    but one titled as an update. *)
Lemma publish_to_announces_an_update (options : PublishOptions)
    (prdContent productName : jsstring) (github : GitHubConfig)
    (registryContent : option jsstring) (w : world) :
  default false (dryRun options) = false ->
  remote_getFile H (requests w) github (js "registry.json")
    (or_else (baseBranch options) (js "main")) = Ret registryContent ->
  registry_shape (loaded H registryContent) = true ->
  forall title,
    In title (pull_request_titles
                (requests (snd (publish_to H options prdContent productName github w)))) ->
    In title (pull_request_titles (requests w)) \/
    title = js "Update PRD: " ++ productName.
Proof.
  intros Hdry Hfetch Hready title. unfold publish_to.
  erewrite run_bind; [|unfold getFile, send; rewrite Hfetch; reflexivity].
  match goal with
  | |- context [(loadRegistry H registryContent ≫= _) ?w1] =>
      destruct (shaped_registry_loads registryContent w1 Hready)
        as (registry & w2 & vs & Hload & Hlog2 & Hitems & Hobj)
  end.
  cbn [requests] in Hlog2.
  erewrite run_bind by exact Hload.
  erewrite run_bind by reflexivity.
  erewrite run_bind by reflexivity.
  cbn [heap clock_reads requests].
  match goal with
  | |- context [(upsertRegistry H registry (VRef ?e) ≫= _) ?w3] =>
      destruct (upsert_returns w3 registry e
                  {| product_name := productName;
                     entry_domain := domain options;
                     owner_team := or_else (ownerTeam options) [];
                     source_repo := or_else (resolveSourceRepo H options) [];
                     prd_path := prdPath_of H options productName;
                     entry_tags := VRef (length (heap w2)) |} vs)
        as (r' & w4 & Hup);
      [ cbn [heap]; rewrite <- app_assoc; apply items_of_app; exact Hitems
      | cbn [heap]; rewrite <- app_assoc; apply is_object_app; exact Hobj
      | cbn [heap]; apply lookup_fresh
      | pose proof (classification_after_upsert H w3 registry e _ vs r' w4
                      ltac:(cbn [heap]; rewrite <- app_assoc;
                            apply items_of_app; exact Hitems)
                      ltac:(cbn [heap]; apply lookup_fresh) Hup) as Hclass;
        destruct (quiet_upsertRegistry H registry (VRef e) w3)
          as (new & Hlog4 & Hreads) ]
  end.
  rewrite Hup in Hlog4. cbn [snd requests] in Hlog4.
  assert (Hnew : pull_request_titles (requests w4)
                 = pull_request_titles (requests w) ++ pull_request_titles new).
  { rewrite Hlog4, Hlog2, !titles_app. cbn. rewrite app_nil_r. reflexivity. }
  cbn [prd_path product_name] in Hclass.
  erewrite run_bind by exact Hup.
  erewrite run_bind by exact Hclass.
  erewrite run_bind by reflexivity.
  erewrite run_bind by reflexivity.
  rewrite Hdry.
  unfold write_files, createBranch, createOrUpdateFile, createPullRequest, send,
    mbind, M_bind, mret, M_ret.
  cbn [heap clock_reads requests].
  assert (Hquiet : pull_request_titles new = []).
  { clear - Hreads. induction new as [|r new IH]; [reflexivity|].
    cbn in Hreads. apply andb_true_iff in Hreads as [Hr Hrest].
    unfold pull_request_titles. cbn. unfold is_read, is_write in Hr.
    destruct (operation r); try discriminate. apply IH. exact Hrest. }
  rewrite Hquiet, app_nil_r in Hnew.
  repeat match goal with
         | |- context [match ?o with Ret _ => _ | Throw _ => _ end] =>
             match o with
             | remote_createBranch _ _ _ _ _ => destruct o
             | remote_createOrUpdateFile _ _ _ _ _ _ _ => destruct o
             | remote_createPullRequest _ _ _ _ _ _ _ => destruct o
             end
         end;
    cbn [snd requests]; rewrite ?titles_app, Hnew; cbn;
    rewrite ?app_nil_r; intros Hin;
    try (left; exact Hin);
    apply in_app_or in Hin as [Hin|[<-|[]]]; auto.
Qed.

(** C9, as amended. With the dry-run flag set, [publishPrd] sends no
    write to the remote (no createBranch, createOrUpdateFile or
    createPullRequest; at most the read of the registry) and answers
    without a pull-request number or URL; and when the document is valid,
    a product name is resolved, the repository reference parses, the
    fetch of the registry does not fail and the registry loaded from it
    is an object whose items are an array of objects, the answer is a
    success with the dry-run marker. *)
Theorem dry_run_publishes_nothing (options : PublishOptions) (w : world) :
  dryRun options = Some true ->
  exists res w' new,
    publishPrd H options w = (Ret res, w') /\
    requests w' = requests w ++ new /\
    forallb is_read new = true /\
    prNumber res = None /\ prUrl res = None /\
    forall content target registryContent,
      valid (validatePrdFile H (file options)) = true ->
      readFileSync H (file options) = Ret content ->
      truthy (resolveProductName options content) = true ->
      parseRepo (repoUrl options) = Ret target ->
      remote_getFile H (requests w) (github_of options target) (js "registry.json")
        (or_else (baseBranch options) (js "main")) = Ret registryContent ->
      registry_shape (loaded H registryContent) = true ->
      res = dry_run_success.
Proof.
  intros Hdry.
  destruct (publishPrd_dry H options w Hdry) as (res & w' & new & Hrun & Hlog & Hread & Hn & Hu).
  exists res, w', new. repeat (split; [assumption|]).
  intros content target registryContent Hvalid Hfile Hname Hrepo Hfetch Hready.
  destruct (publish_to_dry_success options content
              (default [] (resolveProductName options content))
              (github_of options target) registryContent w Hdry Hfetch Hready)
    as [w'' Hto].
  unfold publishPrd, try_catch, publish_steps in Hrun.
  rewrite Hvalid in Hrun. cbn [negb] in Hrun.
  erewrite run_bind in Hrun by (unfold reading; rewrite Hfile; reflexivity).
  rewrite Hname in Hrun. cbn [negb] in Hrun.
  erewrite run_bind in Hrun by (unfold reading; rewrite Hrepo; reflexivity).
  unfold github_of in Hto. rewrite Hto in Hrun.
  congruence.
Qed.

End WithHost.

End DryRun.
Import DryRun.

(** ** The slug *)

Module Slug.

Lemma drop_while_length (p : N -> bool) (s : jsstring) :
  length (drop_while p s) <= length s.
Proof.
  induction s as [|x s IH]; simpl; auto. destruct (p x); simpl; lia.
Qed.

Lemma m_class (ml : bool) (p : N -> bool) (b : jsstring) (x : N) (s : jsstring)
    (cs : list (nat * jsstring)) (k : mstate -> option mstate) :
  m ml (Cls p) (MState b (x :: s) cs) k
  = if p x then k (MState (x :: b) s cs) else None.
Proof. reflexivity. Qed.

Lemma m_seq (ml : bool) (r1 r2 : regex) (st : mstate) (k : mstate -> option mstate) :
  m ml (Seq r1 r2) st k = m ml r1 st (fun st1 => m ml r2 st1 k).
Proof. reflexivity. Qed.

Lemma m_alt (ml : bool) (r1 r2 : regex) (st : mstate) (k : mstate -> option mstate) :
  m ml (Alt r1 r2) st k
  = match m ml r1 st k with Some res => Some res | None => m ml r2 st k end.
Proof. reflexivity. Qed.

Lemma m_star (ml greedy : bool) (r : regex) (st : mstate)
    (k : mstate -> option mstate) :
  m ml (Star greedy r) st k = star_loop (m ml r) greedy k (length (after st)) st.
Proof. reflexivity. Qed.

Lemma star_greedy_step (body : mstate -> (mstate -> option mstate) -> option mstate)
    (k : mstate -> option mstate) (fuel : nat) (st : mstate) :
  star_loop body true k (S fuel) st
  = match body st (fun st1 =>
                     if Nat.ltb (length (after st1)) (length (after st))
                     then star_loop body true k fuel st1 else None) with
    | Some res => Some res
    | None => k st
    end.
Proof. reflexivity. Qed.

(** The greedy repetition of a class takes the whole run when what
    follows accepts that. *)
Lemma star_class_all (ml : bool) (p : N -> bool) (s : jsstring) :
  forall (fuel : nat) (b : jsstring) (cs : list (nat * jsstring)),
    length s <= fuel ->
    exists b',
      star_loop (m ml (Cls p)) true Some fuel (MState b s cs)
      = Some (MState b' (drop_while p s) cs).
Proof.
  induction s as [|x s IH]; intros fuel b cs Hfuel.
  - destruct fuel; cbn; eauto.
  - destruct fuel as [|fuel]; [cbn in Hfuel; lia|].
    rewrite star_greedy_step, m_class. cbn [after drop_while].
    destruct (p x) eqn:Ex; [|eauto].
    destruct (Nat.ltb_spec (length s) (length (x :: s))) as [_|Hle];
      [|cbn in Hle; lia].
    destruct (IH fuel (x :: b) cs ltac:(cbn in Hfuel; lia)) as [b' ->]. eauto.
Qed.

(** The same when the end of the text has to follow: the run is taken
    when it reaches the end, and nothing shorter will do. *)
Lemma star_class_to_end (p : N -> bool) (s : jsstring) :
  forall (fuel : nat) (b : jsstring) (cs : list (nat * jsstring)),
    length s <= fuel ->
    star_loop (m false (Cls p)) true
      (fun st => if at_eol false st then Some st else None) fuel (MState b s cs)
    = match drop_while p s with
      | [] => Some (MState (rev s ++ b) [] cs)
      | _ :: _ => None
      end.
Proof.
  induction s as [|x s IH]; intros fuel b cs Hfuel.
  - destruct fuel; reflexivity.
  - destruct fuel as [|fuel]; [cbn in Hfuel; lia|].
    rewrite star_greedy_step, m_class. cbn [after drop_while].
    destruct (p x) eqn:Ex; [|reflexivity].
    destruct (Nat.ltb_spec (length s) (length (x :: s))) as [_|Hle];
      [|cbn in Hle; lia].
    rewrite (IH fuel (x :: b) cs ltac:(cbn in Hfuel; lia)).
    destruct (drop_while p s); [|reflexivity].
    cbn [rev]. rewrite <- app_assoc. reflexivity.
Qed.

Lemma match_plus_class (ml : bool) (p : N -> bool) (prev s : jsstring) :
  match s with
  | [] => match_here ml (Plus true (Cls p)) prev s = None
  | x :: s' =>
      if p x then
        exists b', match_here ml (Plus true (Cls p)) prev s
                   = Some (MState b' (drop_while p s') [])
      else match_here ml (Plus true (Cls p)) prev s = None
  end.
Proof.
  destruct s as [|x s']; [reflexivity|].
  unfold match_here, Plus. rewrite m_seq, m_class.
  destruct (p x); [|reflexivity].
  rewrite m_star. apply star_class_all. reflexivity.
Qed.

(** Passing over [k] units of a match is resuming after them. *)
Lemma skip_drop (ml : bool) (r : regex) (rep : jsstring) (s : jsstring) :
  forall (k : nat) (prev : jsstring),
    k <= length s ->
    replace_scan ml r rep prev k s
    = replace_scan ml r rep (rev (take k s) ++ prev) 0 (drop k s).
Proof.
  induction s as [|x s IH]; intros k prev Hk.
  - destruct k; [reflexivity|cbn in Hk; lia].
  - destruct k as [|k]; [reflexivity|].
    cbn [replace_scan take drop rev]. rewrite IH by (cbn in Hk; lia).
    rewrite <- app_assoc. reflexivity.
Qed.

Lemma run_drop (p : N -> bool) (s : jsstring) :
  drop (length s - length (drop_while p s)) s = drop_while p s.
Proof.
  induction s as [|x s IH]; [reflexivity|]. cbn [drop_while].
  destruct (p x) eqn:Ex.
  - pose proof (drop_while_length p s).
    replace (length (x :: s) - length (drop_while p s))
      with (S (length s - length (drop_while p s))) by (cbn; lia).
    exact IH.
  - replace (length (x :: s) - length (x :: s)) with 0 by lia. reflexivity.
Qed.

(** One step of the global replacement of the runs of a class. *)
Lemma replace_runs_step (p : N -> bool) (rep prev : jsstring) (x : N) (s : jsstring) :
  replace_scan false (Plus true (Cls p)) rep prev 0 (x :: s)
  = if p x
    then rep ++ replace_scan false (Plus true (Cls p)) rep
                  (rev (take (length s - length (drop_while p s)) s) ++ x :: prev)
                  0 (drop_while p s)
    else x :: replace_scan false (Plus true (Cls p)) rep (x :: prev) 0 s.
Proof.
  pose proof (match_plus_class false p prev (x :: s)) as Hm. cbn beta iota in Hm.
  cbn [replace_scan]. destruct (p x).
  - destruct Hm as [b' ->]. cbn [after].
    pose proof (drop_while_length p s) as Hlen.
    replace (length (x :: s) - length (drop_while p s))
      with (S (length s - length (drop_while p s))) by (cbn; lia).
    rewrite skip_drop by lia. rewrite run_drop. reflexivity.
  - rewrite Hm. reflexivity.
Qed.

Lemma squash_in_run (p : N -> bool) (rep s : jsstring) :
  squash p rep true s = squash p rep false (drop_while p s).
Proof.
  induction s as [|x s IH]; [reflexivity|]. cbn [squash drop_while].
  destruct (p x) eqn:Ex; [exact IH|]. cbn [squash]. rewrite Ex. reflexivity.
Qed.

(** The global replacement of the runs of a class is [squash]. *)
Lemma replace_runs (p : N -> bool) (rep : jsstring) (n : nat) :
  forall (s prev : jsstring),
    length s <= n ->
    replace_scan false (Plus true (Cls p)) rep prev 0 s = squash p rep false s.
Proof.
  induction n as [|n IH]; intros s prev Hn.
  - destruct s; [reflexivity|cbn in Hn; lia].
  - destruct s as [|x s]; [reflexivity|].
    rewrite replace_runs_step. cbn [squash]. destruct (p x).
    + rewrite squash_in_run, IH; [reflexivity|].
      pose proof (drop_while_length p s). cbn in Hn. lia.
    + rewrite IH by (cbn in Hn; lia). reflexivity.
Qed.

(** The replacement sees an expression through its matches only. *)
Lemma replace_scan_ext (ml : bool) (r1 r2 : regex) (rep : jsstring) :
  (forall prev s, match_here ml r1 prev s = match_here ml r2 prev s) ->
  forall s k prev,
    replace_scan ml r1 rep prev k s = replace_scan ml r2 rep prev k s.
Proof.
  intros Hm. induction s as [|x s IH]; intros k prev.
  - destruct k; cbn; [rewrite Hm|]; reflexivity.
  - destruct k; cbn [replace_scan]; [|apply IH].
    rewrite Hm. destruct (match_here ml r2 prev (x :: s)); [|rewrite IH; reflexivity].
    destruct (length (x :: s) - length (after m0)); rewrite IH; reflexivity.
Qed.

Lemma plus_chr_class (ml : bool) (c : N) (prev s : jsstring) :
  match_here ml (Plus true (Chr c)) prev s
  = match_here ml (Plus true (Cls (fun x => N.eqb x c))) prev s.
Proof. reflexivity. Qed.

Lemma non_alnum_runs (s : jsstring) :
  replace_g false re_non_alnum (js "-") s
  = squash (fun c => negb (is_alnum c)) [hyphen] false s.
Proof. apply (replace_runs _ _ (length s)). reflexivity. Qed.

Lemma hyphen_runs (s : jsstring) :
  replace_g false re_hyphens (js "-") s = squash is_hyphen [hyphen] false s.
Proof.
  unfold replace_g, re_hyphens.
  rewrite (replace_scan_ext false _ _ _ (plus_chr_class false hyphen)).
  apply (replace_runs _ _ (length s)). reflexivity.
Qed.

Lemma edge_match_start (x : N) (s : jsstring) :
  if is_hyphen x then
    exists b', match_here false re_edge_hyphens [] (x :: s)
               = Some (MState b' (drop_while is_hyphen s) [])
  else match_here false re_edge_hyphens [] (x :: s) = None.
Proof.
  pose proof (match_plus_class false is_hyphen [] (x :: s)) as Hm.
  cbn beta iota in Hm. unfold match_here, re_edge_hyphens in *.
  rewrite m_alt, m_seq.
  change (m false Bol (MState [] (x :: s) [])
            (fun st1 => m false (Plus true (Chr hyphen)) st1 Some))
    with (m false (Plus true (Cls is_hyphen)) (MState [] (x :: s) []) Some).
  destruct (is_hyphen x) eqn:Ex.
  - destruct Hm as [b' ->]. eauto.
  - rewrite Hm. unfold Plus. rewrite !m_seq.
    change (m false (Chr hyphen)) with (m false (Cls is_hyphen)).
    rewrite m_class, Ex. reflexivity.
Qed.

Lemma edge_match_later (y : N) (prev : jsstring) (x : N) (s : jsstring) :
  match_here false re_edge_hyphens (y :: prev) (x :: s)
  = if is_hyphen x then
      match drop_while is_hyphen s with
      | [] => Some (MState (rev s ++ x :: y :: prev) [] [])
      | _ :: _ => None
      end
    else None.
Proof.
  unfold match_here, re_edge_hyphens. rewrite m_alt, m_seq.
  change (m false Bol (MState (y :: prev) (x :: s) [])
            (fun st1 => m false (Plus true (Chr hyphen)) st1 Some))
    with (@None mstate).
  unfold Plus. rewrite !m_seq.
  change (m false (Chr hyphen)) with (m false (Cls is_hyphen)).
  rewrite m_class. destruct (is_hyphen x); [|reflexivity].
  rewrite m_star.
  change (fun st1 => m false Eol st1 Some)
    with (fun st => if at_eol false st then Some st else None).
  apply star_class_to_end. reflexivity.
Qed.

Lemma edge_match_end (prev : jsstring) :
  match_here false re_edge_hyphens prev [] = None.
Proof. destruct prev; reflexivity. Qed.

Lemma replace_edges_later (s : jsstring) :
  forall (y : N) (prev : jsstring),
    replace_scan false re_edge_hyphens [] (y :: prev) 0 s = trim_end s.
Proof.
  induction s as [|x s IH]; intros y prev; [reflexivity|].
  cbn [replace_scan trim_end]. rewrite edge_match_later.
  destruct (is_hyphen x); [|rewrite IH; reflexivity].
  destruct (drop_while is_hyphen s) eqn:Ed; [|rewrite IH; reflexivity].
  cbn [after length]. rewrite Nat.sub_0_r. cbn [app].
  rewrite skip_drop by reflexivity. rewrite drop_all.
  cbn [replace_scan]. rewrite edge_match_end. reflexivity.
Qed.

(** The global removal of the hyphens at the two ends. *)
Lemma replace_edges (s : jsstring) :
  replace_g false re_edge_hyphens (js "") s = trim_end (drop_while is_hyphen s).
Proof.
  unfold replace_g. destruct s as [|x s]; [reflexivity|].
  pose proof (edge_match_start x s) as Hm.
  cbn [replace_scan drop_while]. destruct (is_hyphen x) eqn:Ex.
  - destruct Hm as [b' ->]. cbn [after].
    pose proof (drop_while_length is_hyphen s) as Hlen.
    replace (length (x :: s) - length (drop_while is_hyphen s))
      with (S (length s - length (drop_while is_hyphen s))) by (cbn; lia).
    cbn [app]. change (js "") with (@nil N). cbn [app].
    rewrite skip_drop by lia. rewrite run_drop.
    destruct (rev (take (length s - length (drop_while is_hyphen s)) s) ++ [x])
      as [|y prev] eqn:E.
    + apply (f_equal (@length N)) in E. rewrite length_app in E. cbn in E. lia.
    + apply replace_edges_later.
  - rewrite Hm. rewrite replace_edges_later. cbn [trim_end]. rewrite Ex.
    reflexivity.
Qed.

(** The name before the cut, in terms of runs and ends. *)
Lemma uncut_runs (toLowerCase : jsstring -> jsstring) (name : jsstring) :
  uncut toLowerCase name
  = squash is_hyphen [hyphen] false
      (trim_end (drop_while is_hyphen
         (squash (fun c => negb (is_alnum c)) [hyphen] false (toLowerCase name)))).
Proof.
  unfold uncut. rewrite non_alnum_runs, replace_edges, hyphen_runs. reflexivity.
Qed.

(** *** What the three replacements leave *)

Lemma squash_non_alnum_safe (s : jsstring) : forall b,
  forallb is_safe (squash (fun c => negb (is_alnum c)) [hyphen] b s) = true.
Proof.
  induction s as [|x s IH]; intros b; [reflexivity|]. cbn [squash].
  destruct (is_alnum x) eqn:Ex; cbn [negb].
  - cbn. unfold is_safe at 1. rewrite Ex. apply IH.
  - destruct b; [apply IH|]. cbn. apply IH.
Qed.

Lemma drop_while_all (P q : N -> bool) (s : jsstring) :
  forallb P s = true -> forallb P (drop_while q s) = true.
Proof.
  induction s as [|x s IH]; [reflexivity|]. cbn [drop_while].
  destruct (q x); [|auto]. cbn. rewrite andb_true_iff. intros [_ Hs]. auto.
Qed.

Lemma trim_end_all (P : N -> bool) (s : jsstring) :
  forallb P s = true -> forallb P (trim_end s) = true.
Proof.
  induction s as [|x s IH]; [reflexivity|]. cbn [trim_end forallb].
  rewrite andb_true_iff. intros [Hx Hs].
  destruct (is_hyphen x), (drop_while is_hyphen s); cbn; rewrite ?Hx, ?IH; auto.
Qed.

Lemma drop_while_start (s : jsstring) :
  starts_with_hyphen (drop_while is_hyphen s) = false.
Proof.
  induction s as [|x s IH]; [reflexivity|]. cbn [drop_while].
  destruct (is_hyphen x) eqn:Ex; [exact IH|]. exact Ex.
Qed.

Lemma trim_end_start (s : jsstring) :
  starts_with_hyphen s = false -> starts_with_hyphen (trim_end s) = false.
Proof.
  destruct s as [|x s]; [reflexivity|]. cbn [starts_with_hyphen trim_end].
  intros Hx. rewrite Hx. exact Hx.
Qed.

Lemma trim_end_end (s : jsstring) : ends_with_hyphen (trim_end s) = false.
Proof.
  induction s as [|x s IH]; [reflexivity|]. cbn [trim_end].
  destruct (is_hyphen x) eqn:Ex.
  - destruct (drop_while is_hyphen s) as [|y t] eqn:Ed; [reflexivity|].
    cbn [ends_with_hyphen]. destruct (trim_end s) as [|z u] eqn:Et; [|exact IH].
    exfalso. clear IH. revert Ed Et. clear. induction s as [|a s IH]; [discriminate|].
    cbn [drop_while trim_end]. destruct (is_hyphen a).
    + destruct (drop_while is_hyphen s); [discriminate|]. discriminate.
    + discriminate.
  - cbn [ends_with_hyphen]. destruct (trim_end s) as [|z u] eqn:Et; [exact Ex|exact IH].
Qed.

Lemma squash_hyphen_safe (s : jsstring) : forall b,
  forallb is_safe s = true -> forallb is_safe (squash is_hyphen [hyphen] b s) = true.
Proof.
  induction s as [|x s IH]; intros b; [reflexivity|]. cbn [squash forallb].
  rewrite andb_true_iff. intros [Hx Hs].
  destruct (is_hyphen x); [destruct b|].
  - apply IH, Hs.
  - cbn [app forallb]. rewrite (IH true Hs). reflexivity.
  - cbn [forallb]. rewrite Hx, (IH false Hs). reflexivity.
Qed.

Lemma squash_hyphen_start (s : jsstring) :
  starts_with_hyphen s = false ->
  starts_with_hyphen (squash is_hyphen [hyphen] false s) = false.
Proof.
  destruct s as [|x s]; [reflexivity|]. cbn [starts_with_hyphen squash].
  intros Hx. rewrite Hx. exact Hx.
Qed.

Lemma squash_in_run_start (s : jsstring) :
  starts_with_hyphen (squash is_hyphen [hyphen] true s) = false.
Proof.
  induction s as [|x s IH]; [reflexivity|]. cbn [squash].
  destruct (is_hyphen x) eqn:Ex; [exact IH|]. exact Ex.
Qed.

Lemma no_double_cons (x : N) (s : jsstring) :
  no_double (x :: s) = negb (is_hyphen x && starts_with_hyphen s) && no_double s.
Proof. destruct s; cbn; rewrite ?andb_false_r; reflexivity. Qed.

Lemma squash_hyphen_no_double (s : jsstring) : forall b,
  no_double (squash is_hyphen [hyphen] b s) = true.
Proof.
  induction s as [|x s IH]; intros b; [reflexivity|]. cbn [squash].
  destruct (is_hyphen x) eqn:Ex.
  - destruct b; [apply IH|]. cbn [app]. rewrite no_double_cons.
    rewrite squash_in_run_start, IH, andb_false_r. reflexivity.
  - rewrite no_double_cons, Ex, IH. reflexivity.
Qed.

Lemma ends_cons (x : N) (s : jsstring) :
  ends_with_hyphen (x :: s)
  = match s with [] => is_hyphen x | _ :: _ => ends_with_hyphen s end.
Proof. reflexivity. Qed.

Lemma squash_hyphen_end (s : jsstring) : forall b,
  ends_with_hyphen s = false ->
  ends_with_hyphen (squash is_hyphen [hyphen] b s) = false.
Proof.
  induction s as [|x s IH]; intros b; [reflexivity|].
  rewrite ends_cons. cbn [squash]. destruct s as [|y s].
  - intros Hx. rewrite Hx. cbn [squash ends_with_hyphen]. exact Hx.
  - intros Hs. specialize (IH true Hs) as IHt. specialize (IH false Hs) as IHf.
    destruct (is_hyphen x) eqn:Ex; [destruct b|].
    + exact IHt.
    + cbn [app]. rewrite ends_cons.
      destruct (squash is_hyphen [hyphen] true (y :: s)) eqn:E; [|exact IHt].
      exfalso. revert Hs E. clear. revert y.
      induction s as [|z s IH]; intros y; cbn.
      * intros ->. discriminate.
      * destruct (is_hyphen y); [apply IH|discriminate].
    + rewrite ends_cons.
      destruct (squash is_hyphen [hyphen] false (y :: s)) eqn:E; [exact Ex|exact IHf].
Qed.

Lemma take_all (P : N -> bool) (n : nat) (s : jsstring) :
  forallb P s = true -> forallb P (take n s) = true.
Proof.
  revert n. induction s as [|x s IH]; intros [|n]; try reflexivity.
  cbn. rewrite !andb_true_iff. intros [Hx Hs]. auto.
Qed.

Lemma take_start (n : nat) (s : jsstring) :
  starts_with_hyphen s = false -> starts_with_hyphen (take n s) = false.
Proof. destruct s, n; auto. Qed.

Lemma take_no_double (n : nat) (s : jsstring) :
  no_double s = true -> no_double (take n s) = true.
Proof.
  revert n. induction s as [|x s IH]; intros [|n]; try reflexivity.
  cbn [take]. rewrite !no_double_cons, !andb_true_iff. intros [Hx Hs].
  split; [|auto]. destruct (is_hyphen x); [|reflexivity].
  cbn in *. apply negb_true_iff in Hx. rewrite (take_start n s Hx). reflexivity.
Qed.

Lemma clean_cut (toLowerCase : jsstring -> jsstring) (name : jsstring) :
  clean toLowerCase name = take 100 (uncut toLowerCase name).
Proof. reflexivity. Qed.

(** What holds of every slug: at most 100 units, not empty, safe units
    only, no hyphen first, no two hyphens side by side, the fallback when
    nothing is left; and no hyphen last when the name was not cut. *)
Lemma sanitize_shape (toLowerCase : jsstring -> jsstring) (name : jsstring) :
  length (sanitizeFilename toLowerCase name) <= 100 /\
  sanitizeFilename toLowerCase name <> [] /\
  forallb is_safe (sanitizeFilename toLowerCase name) = true /\
  starts_with_hyphen (sanitizeFilename toLowerCase name) = false /\
  no_double (sanitizeFilename toLowerCase name) = true /\
  (length (uncut toLowerCase name) <= 100 ->
   ends_with_hyphen (sanitizeFilename toLowerCase name) = false) /\
  (clean toLowerCase name = [] ->
   sanitizeFilename toLowerCase name = fallback_slug).
Proof.
  unfold sanitizeFilename. rewrite clean_cut.
  pose proof (uncut_runs toLowerCase name) as Hu.
  remember (uncut toLowerCase name) as u eqn:Eu. clear Eu.
  assert (Hsafe : forallb is_safe u = true).
  { subst u. apply squash_hyphen_safe, trim_end_all, drop_while_all,
      squash_non_alnum_safe. }
  assert (Hstart : starts_with_hyphen u = false).
  { subst u. apply squash_hyphen_start, trim_end_start, drop_while_start. }
  assert (Hdouble : no_double u = true).
  { subst u. apply squash_hyphen_no_double. }
  assert (Hend : ends_with_hyphen u = false).
  { subst u. apply squash_hyphen_end, trim_end_end. }
  clear Hu. destruct (take 100 u) as [|x t] eqn:Et.
  - split; [vm_compute; lia|]. split; [discriminate|].
    repeat (split; [reflexivity|]). split; reflexivity.
  - rewrite <- Et. split; [rewrite length_take; lia|].
    split; [rewrite Et; discriminate|].
    split; [apply take_all, Hsafe|]. split; [apply take_start, Hstart|].
    split; [apply take_no_double, Hdouble|]. split; [|rewrite Et; discriminate].
    intros Hlen. rewrite take_ge by exact Hlen. exact Hend.
Qed.

Lemma drop_while_fixed (s : jsstring) :
  starts_with_hyphen s = false -> drop_while is_hyphen s = s.
Proof. destruct s as [|x s]; [reflexivity|]. cbn. intros ->. reflexivity. Qed.

Lemma all_hyphens_end (s : jsstring) :
  s <> [] -> drop_while is_hyphen s = [] -> ends_with_hyphen s = true.
Proof.
  induction s as [|x s IH]; [congruence|]. intros _. cbn [drop_while].
  destruct (is_hyphen x) eqn:Ex; [|discriminate]. intros Hs.
  rewrite ends_cons. destruct s as [|y s]; [exact Ex|].
  apply IH; [discriminate|exact Hs].
Qed.

Lemma trim_end_fixed (s : jsstring) :
  ends_with_hyphen s = false -> trim_end s = s.
Proof.
  induction s as [|x s IH]; [reflexivity|]. intros Hend. cbn [trim_end].
  assert (Hs : trim_end s = s).
  { destruct s as [|y s]; [reflexivity|]. apply IH. exact Hend. }
  rewrite Hs. destruct (is_hyphen x) eqn:Ex; [|reflexivity].
  destruct (drop_while is_hyphen s) eqn:Ed; [|reflexivity].
  exfalso. destruct s as [|y s].
  - cbn in Hend. congruence.
  - rewrite ends_cons in Hend.
    rewrite (all_hyphens_end (y :: s)) in Hend; [discriminate|discriminate|exact Ed].
Qed.

Lemma squash_hyphen_fixed (s : jsstring) :
  no_double s = true -> squash is_hyphen [hyphen] false s = s.
Proof.
  induction s as [|x s IH]; [reflexivity|].
  rewrite no_double_cons, andb_true_iff. intros [Hx Hs]. cbn [squash].
  destruct (is_hyphen x) eqn:Ex.
  - cbn in Hx. apply negb_true_iff in Hx.
    rewrite squash_in_run, (drop_while_fixed s Hx), (IH Hs).
    apply N.eqb_eq in Ex. subst x. reflexivity.
  - rewrite (IH Hs). reflexivity.
Qed.

Lemma squash_ext (p q : N -> bool) (rep s : jsstring) : forall b,
  (forall x, In x s -> p x = q x) -> squash p rep b s = squash q rep b s.
Proof.
  induction s as [|x s IH]; intros b Hpq; [reflexivity|]. cbn [squash].
  rewrite (Hpq x (or_introl eq_refl)), !IH by (intros y Hy; apply Hpq; right; exact Hy).
  reflexivity.
Qed.

Lemma safe_non_alnum (x : N) : is_safe x = true -> negb (is_alnum x) = is_hyphen x.
Proof.
  unfold is_safe. destruct (is_alnum x) eqn:Ea; cbn; [|auto].
  intros _. symmetry. apply not_true_is_false. intros Eh.
  apply N.eqb_eq in Eh. subst x. discriminate Ea.
Qed.

(** A tidy text is its own slug. *)
Lemma sanitize_fixed (toLowerCase : jsstring -> jsstring) (t : jsstring) :
  toLowerCase t = t -> t <> [] -> length t <= 100 ->
  forallb is_safe t = true -> starts_with_hyphen t = false ->
  ends_with_hyphen t = false -> no_double t = true ->
  sanitizeFilename toLowerCase t = t.
Proof.
  intros Hlow Hne Hlen Hsafe Hstart Hend Hdouble.
  assert (Hu : uncut toLowerCase t = t).
  { rewrite uncut_runs, Hlow.
    rewrite (squash_ext (fun c => negb (is_alnum c)) is_hyphen [hyphen] t false).
    - rewrite (squash_hyphen_fixed t Hdouble), (drop_while_fixed t Hstart),
        (trim_end_fixed t Hend). apply squash_hyphen_fixed, Hdouble.
    - intros x Hx. apply safe_non_alnum.
      rewrite forallb_forall in Hsafe. apply Hsafe, Hx. }
  unfold sanitizeFilename. rewrite clean_cut, Hu, take_ge by exact Hlen.
  destruct t; congruence.
Qed.

(** A second pass changes nothing unless the first was cut right after a
    hyphen. *)
Lemma sanitize_idempotent_unless_cut_at_a_hyphen
    (toLowerCase : jsstring -> jsstring) (name : jsstring) :
  (forall t, forallb is_safe t = true -> toLowerCase t = t) ->
  ends_with_hyphen (sanitizeFilename toLowerCase name) = false ->
  sanitizeFilename toLowerCase (sanitizeFilename toLowerCase name)
  = sanitizeFilename toLowerCase name.
Proof.
  intros Hlow Hend.
  destruct (sanitize_shape toLowerCase name)
    as (Hlen & Hne & Hsafe & Hstart & Hdouble & _).
  apply sanitize_fixed; auto.
Qed.

Lemma sanitize_idempotent_when_not_cut
    (toLowerCase : jsstring -> jsstring) (name : jsstring) :
  (forall t, forallb is_safe t = true -> toLowerCase t = t) ->
  length (uncut toLowerCase name) <= 100 ->
  sanitizeFilename toLowerCase (sanitizeFilename toLowerCase name)
  = sanitizeFilename toLowerCase name.
Proof.
  intros Hlow Hlen. apply sanitize_idempotent_unless_cut_at_a_hyphen; [exact Hlow|].
  apply (sanitize_shape toLowerCase name). exact Hlen.
Qed.

End Slug.

(** ** The properties at concrete inputs *)

Module Concrete.

Import Examples.

(** C1, at an input where it fails. A first publish, against a repository
    that has no registry file, so that the registry as fetched holds no
    entry at all, opens its pull request under the title of an update. *)
Theorem first_publish_is_announced_as_an_update :
  remote_getFile first_publish [] (github_of (publish_request false)
                                     (js "gnyanee97", js "vulcan-prds"))
    (js "registry.json") (js "main") = Ret None /\
  items_of (heap (snd (loadRegistry first_publish None nothing)))
    (VRef 1) = Some [] /\
  option_map success
    match fst (publishPrd first_publish (publish_request false) nothing) with
    | Ret res => Some res
    | Throw _ => None
    end = Some true /\
  pull_request_titles
    (requests (snd (publishPrd first_publish (publish_request false) nothing)))
  = [js "Update PRD: Test Data Product"].
Proof. vm_compute. repeat split; reflexivity. Qed.

Lemma upsert_insert_changes_the_registry_passed_in_witness :
  items_of (heap (snd (prepared new_registry foo)))
    (registry_of (prepared new_registry foo)) = Some [] /\
  exists r' w',
    upsertRegistry first_publish (registry_of (prepared new_registry foo))
      (VRef (entry_of (prepared new_registry foo)))
      (snd (prepared new_registry foo)) = (Ret r', w') /\
    items_of (heap w') (registry_of (prepared new_registry foo))
    = Some ([] ++ [VRef (length (heap (snd (prepared new_registry foo))))]) /\
    items_of (heap w') r' = items_of (heap w') (registry_of (prepared new_registry foo)).
Proof.
  split; [vm_compute; reflexivity|].
  apply (upsert_insert_changes_the_registry_passed_in first_publish
           (snd (prepared new_registry foo))
           (registry_of (prepared new_registry foo))
           (VRef (entry_of (prepared new_registry foo))) []);
    vm_compute; reflexivity.
Defined.

(** C3 fails here: the registry holds bar (domain b) and Bar (domain a)
    under different paths; publishing bar in the domain a matches the
    first entry by name and gives it the path of the second. *)
Lemma a_name_match_can_duplicate_a_path :
  option_map (unique_paths (heap (snd (prepared two_entries bar_in_a))))
    (items_of (heap (snd (prepared two_entries bar_in_a)))
       (registry_of (prepared two_entries bar_in_a))) = Some true /\
  (let run := upsertRegistry first_publish
                (registry_of (prepared two_entries bar_in_a))
                (VRef (entry_of (prepared two_entries bar_in_a)))
                (snd (prepared two_entries bar_in_a)) in
   option_map (unique_paths (heap (snd run))) (items_after run) = Some false /\
   option_map (map (path_of (heap (snd run)))) (items_after run)
   = Some [Some (js "prds/a/bar.md"); Some (js "prds/a/bar.md")]).
Proof. vm_compute. repeat split; reflexivity. Qed.

Lemma upsert_keeps_paths_unique_witness :
  exists r' w' vs',
    upsertRegistry first_publish (registry_of (prepared two_entries Bar_in_a))
      (VRef (entry_of (prepared two_entries Bar_in_a)))
      (snd (prepared two_entries Bar_in_a)) = (Ret r', w') /\
    items_of (heap w') r' = Some vs' /\
    unique_paths (heap w') vs' = true.
Proof.
  apply (upsert_keeps_paths_unique first_publish
           (snd (prepared two_entries Bar_in_a))
           (registry_of (prepared two_entries Bar_in_a))
           (entry_of (prepared two_entries Bar_in_a))
           (Bar_in_a 4) [VRef 0; VRef 1] 1%Z);
    vm_compute; reflexivity.
Defined.

Lemma upsert_updates_the_matching_entry_witness :
  exists r' w' item,
    upsertRegistry first_publish (registry_of (prepared one_entry foo))
      (VRef (entry_of (prepared one_entry foo)))
      (snd (prepared one_entry foo)) = (Ret r', w') /\
    items_of (heap w') r' = Some [item] /\
    field (heap w') item (js "created_at")
    = field (heap (snd (prepared one_entry foo))) (VRef 0) (js "created_at") /\
    field (heap w') item (js "updated_at")
    = VStr (clock first_publish (clock_reads (snd (prepared one_entry foo)))) /\
    forall k v, obj_get k (entry_literal (foo 3)) = Some v -> field (heap w') item k = v.
Proof.
  apply (upsert_updates_the_matching_entry first_publish
           (snd (prepared one_entry foo))
           (registry_of (prepared one_entry foo)) (VRef 0)
           (entry_of (prepared one_entry foo)) (foo 3));
    vm_compute; reflexivity.
Defined.



Lemma unreadable_registry_is_replaced_witness :
  JSON_parse first_publish (default [] (Some (js "<html>Not Found</html>"))) = None /\
  exists registry w1,
    loadRegistry first_publish (Some (js "<html>Not Found</html>")) nothing
    = (Ret registry, w1) /\
    build new_registry nothing = (Ret registry, w1) /\
    field (heap w1) registry (js "version") = VStr (js "1") /\
    items_of (heap w1) registry = Some [] /\
    (registry ← loadRegistry first_publish (Some (js "<html>Not Found</html>"));
     upsertRegistry first_publish registry VUndef) nothing
    = (registry ← build new_registry;
       upsertRegistry first_publish registry VUndef) nothing /\
    exists r' w' item,
      upsertRegistry first_publish registry VUndef w1 = (Ret r', w') /\
      items_of (heap w') r' = Some [item].
Proof.
  split; [vm_compute; reflexivity|].
  apply (unreadable_registry_is_replaced first_publish nothing
           (Some (js "<html>Not Found</html>")) VUndef).
  right. vm_compute. reflexivity.
Defined.


(** C9 fails here: the flag is set and the document is valid, but the
    token may not read the registry. *)
Lemma a_dry_run_can_fail :
  dryRun (publish_request true) = Some true /\
  valid (validatePrdFile denied (file (publish_request true))) = true /\
  fst (publishPrd denied (publish_request true) nothing)
  = Ret (failure (js "Permission denied accessing gnyanee97/vulcan-prds.")) /\
  success (failure (js "Permission denied accessing gnyanee97/vulcan-prds.")) = false.
Proof. vm_compute. repeat split; reflexivity. Qed.

Lemma dry_run_publishes_nothing_witness :
  dryRun (publish_request true) = Some true /\
  exists w',
    publishPrd first_publish (publish_request true) nothing
    = (Ret dry_run_success, w') /\
    filter (fun r => is_write r = true) (requests w') = [].
Proof.
  split; [reflexivity|].
  destruct (dry_run_publishes_nothing first_publish (publish_request true) nothing
              eq_refl)
    as (res & w' & new & Hrun & Hlog & Hreads & _ & _ & Hsuccess).
  exists w'. split.
  - rewrite Hrun. f_equal. f_equal.
    apply (Hsuccess document (js "gnyanee97", js "vulcan-prds") None);
      vm_compute; reflexivity.
  - rewrite Hlog. cbn [requests nothing app].
    clear Hrun Hlog Hsuccess. induction new as [|r new IH]; [reflexivity|].
    cbn in Hreads. apply andb_true_iff in Hreads as [Hr Hnew].
    rewrite filter_cons. unfold is_read in Hr.
    destruct (is_write r); [discriminate|].
    destruct (decide (false = true)); [discriminate|]. apply IH. exact Hnew.
Defined.

(** C7, at an input where it fails. The name is cut at 100 units after
    the hyphens at its ends have been removed, and the cut falls right
    after a hyphen: the slug ends with it. *)
Theorem sanitize_can_end_with_a_hyphen (toLowerCase : jsstring -> jsstring) :
  toLowerCase long_name = long_name ->
  sanitizeFilename toLowerCase long_name = repeat 97%N 99 ++ [hyphen] /\
  length (sanitizeFilename toLowerCase long_name) = 100 /\
  last (sanitizeFilename toLowerCase long_name) = Some hyphen.
Proof.
  intros E. unfold sanitizeFilename, clean. rewrite E.
  vm_compute. repeat split; reflexivity.
Qed.

Lemma sanitize_can_end_with_a_hyphen_witness :
  lower long_name = long_name /\
  sanitizeFilename lower long_name = repeat 97%N 99 ++ [hyphen] /\
  length (sanitizeFilename lower long_name) = 100 /\
  last (sanitizeFilename lower long_name) = Some hyphen.
Proof.
  split; [vm_compute; reflexivity|].
  apply (sanitize_can_end_with_a_hyphen lower). vm_compute. reflexivity.
Defined.

(** C8, at an input where it fails. The same name is not empty and holds
    safe units only; its slug ends with a hyphen, which a second pass
    removes. *)
Theorem sanitize_twice_can_differ (toLowerCase : jsstring -> jsstring) :
  toLowerCase long_name = long_name ->
  toLowerCase (repeat 97%N 99 ++ [hyphen]) = repeat 97%N 99 ++ [hyphen] ->
  long_name <> [] /\
  forallb is_safe long_name = true /\
  sanitizeFilename toLowerCase long_name = repeat 97%N 99 ++ [hyphen] /\
  sanitizeFilename toLowerCase (sanitizeFilename toLowerCase long_name)
  = repeat 97%N 99 /\
  sanitizeFilename toLowerCase (sanitizeFilename toLowerCase long_name)
  <> sanitizeFilename toLowerCase long_name.
Proof.
  intros E1 E2.
  assert (S1 : sanitizeFilename toLowerCase long_name = repeat 97%N 99 ++ [hyphen]).
  { unfold sanitizeFilename, clean. rewrite E1. vm_compute. reflexivity. }
  assert (S2 : sanitizeFilename toLowerCase (repeat 97%N 99 ++ [hyphen])
               = repeat 97%N 99).
  { unfold sanitizeFilename, clean. rewrite E2. vm_compute. reflexivity. }
  rewrite S1, S2. repeat split; try (vm_compute; reflexivity).
  - vm_compute. discriminate.
  - intros E. apply (f_equal (@length N)) in E. vm_compute in E. discriminate E.
Qed.

Lemma sanitize_twice_can_differ_witness :
  lower long_name = long_name /\
  lower (repeat 97%N 99 ++ [hyphen]) = repeat 97%N 99 ++ [hyphen] /\
  sanitizeFilename lower (sanitizeFilename lower long_name)
  <> sanitizeFilename lower long_name.
Proof.
  split; [vm_compute; reflexivity|]. split; [vm_compute; reflexivity|].
  apply (sanitize_twice_can_differ lower); vm_compute; reflexivity.
Defined.

End Concrete.

(** ** The examples of the specification, run on the embedding *)

Module Checks.

Import Examples.

Example slug_of_a_title :
  sanitizeFilename lower (js "Test Data Product") = js "test-data-product".
Proof. vm_compute. reflexivity. Qed.

Example slug_of_nothing : sanitizeFilename lower (js "") = js "data-product-prd".
Proof. vm_compute. reflexivity. Qed.

Example slug_of_marks : sanitizeFilename lower (js "!!!") = js "data-product-prd".
Proof. vm_compute. reflexivity. Qed.

Example slug_of_a_mixed_name :
  sanitizeFilename lower (js "  --Device__360--x- ") = js "device-360-x".
Proof. vm_compute. reflexivity. Qed.

Example name_after_the_prefix :
  extractProductName (js "# PRD: Device 360" ++ [10%N; 10%N] ++ js "body")
  = Some (js "Device 360").
Proof. vm_compute. reflexivity. Qed.

Example name_of_a_plain_heading :
  extractProductName (js "# Device 360" ++ [10%N; 10%N] ++ js "body")
  = Some (js "Device 360").
Proof. vm_compute. reflexivity. Qed.

Example name_without_a_heading :
  extractProductName ([10%N; 10%N] ++ js "no heading") = None.
Proof. vm_compute. reflexivity. Qed.

Example name_after_a_comment :
  extractProductName (js "<!-- docs/prd.md -->" ++ [10%N; 10%N]
                      ++ js "# PRD: Device 360" ++ [10%N])
  = Some (js "Device 360").
Proof. vm_compute. reflexivity. Qed.

Example the_document_is_valid :
  validatePrdFile first_publish (js "docs/prd.md")
  = {| valid := true; errors := [] |}.
Proof. vm_compute. reflexivity. Qed.

Example a_missing_file_is_invalid :
  validatePrdFile first_publish (js "missing.md")
  = {| valid := false;
       errors := [js "Failed to read file: ENOENT: no such file or directory"] |}.
Proof. vm_compute. reflexivity. Qed.

Example repo_of_a_url :
  parseRepo (js "https://github.com/acme/widgets.git") = Ret (js "acme", js "widgets").
Proof. vm_compute. reflexivity. Qed.

Example repo_of_a_shorthand :
  parseRepo (js "acme/widgets") = Ret (js "acme", js "widgets").
Proof. vm_compute. reflexivity. Qed.

Example repo_of_anything_else :
  parseRepo (js "not-a-repo-string")
  = Throw (JsError (js "Invalid repo format: not-a-repo-string. Use " ++ quote
                    ++ js "owner/repo" ++ quote ++ js " or full GitHub URL")).
Proof. vm_compute. reflexivity. Qed.

Example remote_over_ssh :
  normalizeRepoUrl (Some (js "git@github.com:acme/widgets.git"))
  = Some (js "https://github.com/acme/widgets").
Proof. vm_compute. reflexivity. Qed.

Example remote_over_https :
  normalizeRepoUrl (Some (js "https://github.com/acme/widgets.git"))
  = Some (js "https://github.com/acme/widgets").
Proof. vm_compute. reflexivity. Qed.

Example destination_of_the_document :
  prdPath_of first_publish (publish_request true) (js "Test Data Product")
  = js "prds/analytics/test-data-product.md".
Proof. vm_compute. reflexivity. Qed.

Example branch_of_the_document :
  fst (generateBranchName first_publish (js "analytics") (js "Test Data Product")
         nothing)
  = Ret (js "prd/analytics/test-data-product-2024-01-15T10-30-45-000Z").
Proof. vm_compute. reflexivity. Qed.

(** A registry whose text is an empty object: the upsert goes through, the
    test that follows it throws, and the publish fails, dry run or not. *)
Example an_object_without_items_fails_the_publish :
  fst (publishPrd (host (Ret (Some (js "{}")))) (publish_request true) nothing)
  = Ret (failure (js "TypeError")).
Proof. vm_compute. reflexivity. Qed.

End Checks.

(** ** The matcher against the meaning of the expressions *)

Module Matcher.

Lemma star_sound (R : mstate -> mstate -> Prop)
    (body : mstate -> (mstate -> option mstate) -> option mstate) (greedy : bool) :
  (forall st k res, body st k = Some res -> exists st', R st st' /\ k st' = Some res) ->
  forall fuel st k res,
    star_loop body greedy k fuel st = Some res ->
    exists st', iter R st st' /\ k st' = Some res.
Proof.
  intros Hbody. induction fuel as [|fuel IH]; intros st k res Hrun.
  - exists st. split; [constructor|exact Hrun].
  - cbn [star_loop] in Hrun.
    assert (Hmore : forall res',
      body st (fun st1 => if Nat.ltb (length (after st1)) (length (after st))
                          then star_loop body greedy k fuel st1 else None) = Some res' ->
      exists st', iter R st st' /\ k st' = Some res').
    { intros res' Hb. apply Hbody in Hb as (st1 & HR & Hk).
      destruct (Nat.ltb_spec (length (after st1)) (length (after st))) as [Hlt|];
        [|discriminate].
      apply IH in Hk as (st2 & Hiter & Hk).
      exists st2. split; [econstructor; eauto|exact Hk]. }
    destruct greedy.
    + destruct (body st _) as [res'|] eqn:Hb.
      * injection Hrun as <-. apply Hmore. reflexivity.
      * exists st. split; [constructor|exact Hrun].
    + destruct (k st) as [res'|] eqn:Hk.
      * injection Hrun as <-. exists st. split; [constructor|exact Hk].
      * apply Hmore. exact Hrun.
Qed.

(** Whatever the matcher answers is a match. *)
Lemma m_sound (ml : bool) (r : regex) :
  forall st k res,
    m ml r st k = Some res -> exists st', run ml r st st' /\ k st' = Some res.
Proof.
  induction r as [|c|p|r1 IH1 r2 IH2|r1 IH1 r2 IH2|g r1 IH1| | |i r1 IH1];
    intros st k res Hm; cbn [m run] in *.
  - eauto.
  - destruct (after st) as [|x rest] eqn:Ha; [discriminate|].
    destruct (N.eqb_spec x c) as [->|]; [|discriminate].
    exists (step st c rest). split; [exists rest; split; reflexivity|exact Hm].
  - destruct (after st) as [|x rest] eqn:Ha; [discriminate|].
    destruct (p x) eqn:Hp; [|discriminate].
    exists (step st x rest). split; [exists x, rest; repeat split; auto|exact Hm].
  - apply IH1 in Hm as (st1 & H1 & Hm). apply IH2 in Hm as (st2 & H2 & Hk). eauto.
  - destruct (m ml r1 st k) as [res'|] eqn:H1.
    + injection Hm as <-. apply IH1 in H1 as (st' & ? & ?). eauto.
    + apply IH2 in Hm as (st' & ? & ?). eauto.
  - eapply star_sound; eauto.
  - destruct (at_bol ml st) eqn:Hb; [|discriminate]. eauto.
  - destruct (at_eol ml st) eqn:Hb; [|discriminate]. eauto.
  - apply IH1 in Hm as (st1 & H1 & Hk). eauto.
Qed.

Lemma star_complete (R : mstate -> mstate -> Prop)
    (body : mstate -> (mstate -> option mstate) -> option mstate) (greedy : bool) :
  (forall st st' k, R st st' -> k st' <> None -> body st k <> None) ->
  forall st st', iter R st st' ->
  forall fuel k, length (after st) <= fuel -> k st' <> None ->
    star_loop body greedy k fuel st <> None.
Proof.
  intros Hbody st st' Hiter.
  induction Hiter as [st|st st1 st2 HR Hlt Hiter IH]; intros fuel k Hfuel Hk.
  - destruct fuel as [|fuel]; cbn [star_loop]; [exact Hk|].
    destruct greedy.
    + destruct (body st _); [discriminate|exact Hk].
    + destruct (k st); [discriminate|contradiction].
  - destruct fuel as [|fuel]; [lia|]. cbn [star_loop].
    assert (Hmore :
      body st (fun st1 => if Nat.ltb (length (after st1)) (length (after st))
                          then star_loop body greedy k fuel st1 else None) <> None).
    { apply (Hbody st st1); [exact HR|].
      destruct (Nat.ltb_spec (length (after st1)) (length (after st))); [|lia].
      apply IH; [lia|exact Hk]. }
    destruct greedy.
    + destruct (body st _); [discriminate|contradiction].
    + destruct (k st); [discriminate|exact Hmore].
Qed.

(** Whatever matches, the matcher finds some match. *)
Lemma m_complete (ml : bool) (r : regex) :
  forall st st' k, run ml r st st' -> k st' <> None -> m ml r st k <> None.
Proof.
  induction r as [|c|p|r1 IH1 r2 IH2|r1 IH1 r2 IH2|g r1 IH1| | |i r1 IH1];
    intros st st' k Hrun Hk; cbn [m run] in *.
  - subst st'. exact Hk.
  - destruct Hrun as (rest & -> & ->). rewrite N.eqb_refl. exact Hk.
  - destruct Hrun as (x & rest & -> & -> & ->). exact Hk.
  - destruct Hrun as (st1 & H1 & H2). eapply IH1; eauto.
  - destruct (m ml r1 st k) eqn:H1; [discriminate|].
    destruct Hrun as [Hrun|Hrun]; [|eauto].
    exfalso. eapply IH1; eauto.
  - eapply star_complete; eauto.
  - destruct Hrun as [-> ->]. exact Hk.
  - destruct Hrun as [-> ->]. exact Hk.
  - destruct Hrun as (st1 & H1 & ->). eapply IH1; eauto.
Qed.

Lemma match_here_sound ml r prev s st' :
  match_here ml r prev s = Some st' -> run ml r (MState prev s []) st'.
Proof.
  unfold match_here. intros Hm. apply m_sound in Hm as (st1 & Hrun & Hk).
  injection Hk as <-. exact Hrun.
Qed.

Lemma match_here_complete ml r prev s st' :
  run ml r (MState prev s []) st' -> match_here ml r prev s <> None.
Proof.
  intros Hrun. unfold match_here. eapply m_complete; [exact Hrun|discriminate].
Qed.

(** The search answers with a match at the place it names, and nothing
    matches before that place. *)
Lemma search_sound ml r : forall s prev skipped at_ st',
  search ml r prev s = Some (skipped, at_, st') ->
  s = skipped ++ at_ /\
  run ml r (MState (rev skipped ++ prev) at_ []) st' /\
  forall pre post, skipped = pre ++ post -> post <> [] ->
    match_here ml r (rev pre ++ prev) (post ++ at_) = None.
Proof.
  induction s as [|c s IH]; intros prev skipped at_ st' Hs; cbn [search] in Hs.
  - destruct (match_here ml r prev []) eqn:Hm; [|discriminate].
    injection Hs as <- <- <-. split; [reflexivity|]. split.
    + apply match_here_sound. exact Hm.
    + intros pre post Heq Hpost. destruct pre, post; try discriminate. contradiction.
  - destruct (match_here ml r prev (c :: s)) eqn:Hm.
    + injection Hs as <- <- <-. split; [reflexivity|]. split.
      * apply match_here_sound. exact Hm.
      * intros pre post Heq Hpost. destruct pre, post; try discriminate. contradiction.
    + destruct (search ml r (c :: prev) s) as [[[sk a] st1]|] eqn:Hrec; [|discriminate].
      injection Hs as <- <- <-.
      apply IH in Hrec as (-> & Hrun & Hbefore).
      split; [reflexivity|]. split.
      * cbn [rev]. rewrite <- app_assoc. exact Hrun.
      * intros pre post Heq Hpost. destruct pre as [|x pre].
        -- cbn in Heq. subst post. cbn [rev app]. exact Hm.
        -- injection Heq as <- ->. cbn [rev]. rewrite <- app_assoc.
           apply Hbefore; auto.
Qed.

Lemma search_complete ml r : forall pre post prev st',
  run ml r (MState (rev pre ++ prev) post []) st' ->
  search ml r prev (pre ++ post) <> None.
Proof.
  induction pre as [|c pre IH]; intros post prev st' Hrun.
  - cbn [rev app] in *. apply match_here_complete in Hrun.
    destruct post; cbn [search]; destruct (match_here ml r prev _); congruence.
  - cbn [app search]. destruct (match_here ml r prev (c :: pre ++ post)); [discriminate|].
    cbn [rev] in Hrun. rewrite <- app_assoc in Hrun.
    specialize (IH post (c :: prev) st' Hrun).
    destruct (search ml r (c :: prev) (pre ++ post)) as [[[? ?] ?]|];
      [discriminate|contradiction].
Qed.

(** [r.test(s)] answers whether [r] matches somewhere in [s]. *)
Lemma test_found ml r s : test ml r s = true <-> found ml r s.
Proof.
  unfold test, exec, found. split.
  - destruct (search ml r [] s) as [[[sk a] st']|] eqn:Hs; [|discriminate].
    intros _. apply search_sound in Hs as (-> & Hrun & _).
    rewrite app_nil_r in Hrun. eauto.
  - intros (pre & post & st' & -> & Hrun).
    pose proof (search_complete ml r pre post [] st') as Hc.
    rewrite app_nil_r in Hc. specialize (Hc Hrun).
    destruct (search ml r [] (pre ++ post)) as [[[? ?] ?]|]; [reflexivity|contradiction].
Qed.

(** A match only moves forward over the text. *)
Lemma iter_advance (R : mstate -> mstate -> Prop) :
  (forall st st', R st st' ->
     exists t, after st = t ++ after st' /\ before st' = rev t ++ before st) ->
  forall st st', iter R st st' ->
    exists t, after st = t ++ after st' /\ before st' = rev t ++ before st.
Proof.
  intros HR st st' Hiter. induction Hiter as [st|st st1 st2 H1 _ _ IH].
  - exists []. split; reflexivity.
  - apply HR in H1 as (t1 & Ha1 & Hb1). destruct IH as (t2 & Ha2 & Hb2).
    exists (t1 ++ t2). rewrite Ha1, Ha2, Hb2, Hb1, rev_app_distr, !app_assoc.
    split; reflexivity.
Qed.

Lemma run_advance ml r : forall st st',
  run ml r st st' ->
  exists t, after st = t ++ after st' /\ before st' = rev t ++ before st.
Proof.
  induction r as [|c|p|r1 IH1 r2 IH2|r1 IH1 r2 IH2|g r1 IH1| | |i r1 IH1];
    intros st st' Hrun; cbn [run] in Hrun.
  - subst. exists []. split; reflexivity.
  - destruct Hrun as (rest & Ha & ->). exists [c]. rewrite Ha. split; reflexivity.
  - destruct Hrun as (x & rest & Ha & _ & ->). exists [x]. rewrite Ha. split; reflexivity.
  - destruct Hrun as (st1 & H1 & H2).
    apply IH1 in H1 as (t1 & Ha1 & Hb1). apply IH2 in H2 as (t2 & Ha2 & Hb2).
    exists (t1 ++ t2). rewrite Ha1, Ha2, Hb2, Hb1, rev_app_distr, !app_assoc.
    split; reflexivity.
  - destruct Hrun as [Hrun|Hrun]; eauto.
  - eapply iter_advance; eauto.
  - destruct Hrun as [_ ->]. exists []. split; reflexivity.
  - destruct Hrun as [_ ->]. exists []. split; reflexivity.
  - destruct Hrun as (st1 & H1 & ->). apply IH1 in H1. exact H1.
Qed.

(** The text a match has passed. *)
Lemma consumed_advance (st st' : mstate) (t : jsstring) :
  after st = t ++ after st' -> consumed st st' = t.
Proof.
  intros Ha. unfold consumed. rewrite Ha, length_app.
  replace (length t + length (after st') - length (after st')) with (length t) by lia.
  apply take_app_length.
Qed.

(** Rounds over a class pass units of the class only. *)
Lemma iter_class ml (p : N -> bool) : forall st st',
  iter (run ml (Cls p)) st st' ->
  exists t, after st = t ++ after st' /\ before st' = rev t ++ before st /\
            caps st' = caps st /\ forallb p t = true.
Proof.
  intros st st' Hiter. induction Hiter as [st|st st1 st2 H1 _ _ IH].
  - exists []. repeat split; reflexivity.
  - destruct H1 as (x & rest & Ha & Hp & ->).
    destruct IH as (t & Ha2 & Hb2 & Hc2 & Hall). cbn in Ha2, Hb2, Hc2.
    exists (x :: t). rewrite Ha, Ha2, Hb2, Hc2. cbn. rewrite Hp, Hall, <- app_assoc.
    repeat split; reflexivity.
Qed.

Lemma plus_class ml g (p : N -> bool) st st' :
  run ml (Plus g (Cls p)) st st' ->
  exists t, after st = t ++ after st' /\ before st' = rev t ++ before st /\
            caps st' = caps st /\ forallb p t = true /\ t <> [].
Proof.
  intros (st1 & (x & rest & Ha & Hp & ->) & Hiter).
  apply iter_class in Hiter as (t & Ha2 & Hb2 & Hc2 & Hall). cbn in Ha2, Hb2, Hc2.
  exists (x :: t). rewrite Ha, Ha2, Hb2, Hc2. cbn. rewrite Hp, Hall, <- app_assoc.
  repeat split; try reflexivity. discriminate.
Qed.

Lemma lit_run ml (l : jsstring) : forall st st',
  run ml (Lit l) st st' ->
  after st = l ++ after st' /\ before st' = rev l ++ before st /\ caps st' = caps st.
Proof.
  induction l as [|c l IH]; intros st st' Hrun; cbn [Lit run] in Hrun.
  - subst. repeat split; reflexivity.
  - destruct Hrun as (st1 & (rest & Ha & ->) & H2).
    apply IH in H2 as (Ha2 & Hb2 & Hc2). cbn in Ha2, Hb2, Hc2.
    rewrite Ha, Ha2, Hb2, Hc2. cbn. rewrite <- app_assoc. repeat split; reflexivity.
Qed.

Lemma lit_intro ml (l : jsstring) : forall b s cs,
  run ml (Lit l) (MState b (l ++ s) cs) (MState (rev l ++ b) s cs).
Proof.
  induction l as [|c l IH]; intros b s cs; cbn [Lit run].
  - reflexivity.
  - exists (MState (c :: b) (l ++ s) cs). split.
    + exists (l ++ s). split; reflexivity.
    + cbn [rev]. rewrite <- app_assoc. apply IH.
Qed.

Lemma iter_class_intro ml (p : N -> bool) (t : jsstring) : forall b s cs,
  forallb p t = true ->
  iter (run ml (Cls p)) (MState b (t ++ s) cs) (MState (rev t ++ b) s cs).
Proof.
  induction t as [|x t IH]; intros b s cs Hall; cbn in *.
  - constructor.
  - apply andb_prop in Hall as [Hx Hall].
    apply (iter_round _ _ (MState (x :: b) (t ++ s) cs)).
    + exists x, (t ++ s). repeat split; auto.
    + cbn. lia.
    + rewrite <- app_assoc. apply IH. exact Hall.
Qed.

Lemma plus_class_intro ml g (p : N -> bool) (t : jsstring) b s cs :
  forallb p t = true -> t <> [] ->
  run ml (Plus g (Cls p)) (MState b (t ++ s) cs) (MState (rev t ++ b) s cs).
Proof.
  intros Hall Hne. destruct t as [|x t]; [contradiction|].
  cbn in Hall. apply andb_prop in Hall as [Hx Hall].
  exists (MState (x :: b) (t ++ s) cs). split.
  - exists x, (t ++ s). repeat split; auto.
  - cbn [rev]. rewrite <- app_assoc. apply (iter_class_intro ml p t); exact Hall.
Qed.

End Matcher.
Import Matcher.

(** ** Facts about the string operations *)

Module Text.

Lemma startsWith_app (p s : jsstring) : startsWith p (p ++ s) = true.
Proof. induction p as [|x p IH]; cbn; [reflexivity|]. rewrite N.eqb_refl. exact IH. Qed.

Lemma startsWith_inv (p : jsstring) : forall s,
  startsWith p s = true -> exists t, s = p ++ t.
Proof.
  induction p as [|x p IH]; intros s Hs; cbn in Hs.
  - exists s. reflexivity.
  - destruct s as [|y s]; [discriminate|].
    apply andb_prop in Hs as [Hx Hs]. apply N.eqb_eq in Hx as ->.
    apply IH in Hs as (t & ->). exists t. reflexivity.
Qed.

Lemma includes_unfold (p s : jsstring) :
  includes p s = startsWith p s || match s with [] => false | _ :: s' => includes p s' end.
Proof. destruct s; reflexivity. Qed.

Lemma includes_spec (p s : jsstring) :
  includes p s = true <-> exists pre post, s = pre ++ p ++ post.
Proof.
  split.
  - induction s as [|x s IH]; rewrite includes_unfold; intros Hs;
      apply orb_prop in Hs as [Hs|Hs]; try discriminate.
    + apply startsWith_inv in Hs as (t & ->). exists [], t. reflexivity.
    + apply startsWith_inv in Hs as (t & ->). exists [], t. reflexivity.
    + apply IH in Hs as (pre & post & ->). exists (x :: pre), post. reflexivity.
  - intros (pre & post & ->). induction pre as [|x pre IH]; rewrite includes_unfold.
    + cbn [app]. rewrite startsWith_app. reflexivity.
    + cbn [app]. rewrite IH. apply orb_true_r.
Qed.

Lemma includes_part (a b s : jsstring) :
  includes (a ++ b) s = true -> includes b s = true.
Proof.
  rewrite !includes_spec. intros (pre & post & ->).
  exists (pre ++ a), post. rewrite <- !app_assoc. reflexivity.
Qed.

Lemma includes_unit (c : N) (s : jsstring) :
  includes [c] s = existsb (N.eqb c) s.
Proof.
  induction s as [|x s IH]; [reflexivity|].
  rewrite includes_unfold, IH. cbn. rewrite andb_true_r. reflexivity.
Qed.

(** The parts of a split hold no separator, and there is one more part
    than there are separators. *)
Lemma split_cons (c x : N) (s : jsstring) :
  split c (x :: s) =
  if N.eqb x c then [] :: split c s
  else match split c s with
       | [] => [[x]]
       | p :: ps => (x :: p) :: ps
       end.
Proof. reflexivity. Qed.

Lemma split_nonempty (c : N) (s : jsstring) : split c s <> [].
Proof.
  induction s as [|x s IH]; [discriminate|]. rewrite split_cons.
  destruct (N.eqb x c); [discriminate|]. destruct (split c s); discriminate.
Qed.

Lemma split_clean (c : N) (s : jsstring) :
  existsb (N.eqb c) s = false -> split c s = [s].
Proof.
  induction s as [|x s IH]; intros Hs; [reflexivity|].
  cbn [existsb] in Hs. apply orb_false_elim in Hs as [Hx Hs].
  rewrite split_cons, N.eqb_sym, Hx, (IH Hs). reflexivity.
Qed.

Lemma split_app (c : N) (a b : jsstring) :
  existsb (N.eqb c) a = false -> split c (a ++ c :: b) = a :: split c b.
Proof.
  induction a as [|x a IH]; intros Ha; cbn [app].
  - rewrite split_cons, N.eqb_refl. reflexivity.
  - cbn [existsb] in Ha. apply orb_false_elim in Ha as [Hx Ha].
    rewrite split_cons, N.eqb_sym, Hx, (IH Ha). reflexivity.
Qed.

Lemma split_parts (c : N) (s : jsstring) :
  Forall (fun p => existsb (N.eqb c) p = false) (split c s).
Proof.
  induction s as [|x s IH]; [repeat constructor|]. rewrite split_cons.
  destruct (N.eqb_spec x c) as [->|Hne]; [constructor; [reflexivity|exact IH]|].
  destruct (split c s) as [|p ps]; [repeat constructor; cbn|].
  - rewrite orb_false_r. apply N.eqb_neq. congruence.
  - inversion IH as [|? ? Hp Hps]; subst. constructor; [|exact Hps].
    cbn. rewrite Hp, orb_false_r. apply N.eqb_neq. congruence.
Qed.

Lemma split_two (c : N) (s : jsstring) :
  existsb (N.eqb c) s = true -> exists a b rest, split c s = a :: b :: rest.
Proof.
  induction s as [|x s IH]; intros Hs; [discriminate|]. rewrite split_cons.
  destruct (N.eqb_spec x c) as [->|Hne].
  - destruct (split c s) as [|p ps] eqn:Hsp; [destruct (split_nonempty _ _ Hsp)|].
    eauto.
  - cbn [existsb] in Hs. apply orb_prop in Hs as [Hx|Hs].
    + apply N.eqb_eq in Hx. congruence.
    + apply IH in Hs as (a & b & rest & ->). eauto.
Qed.

(** Trimming *)
Lemma drop_while_twice (p : N -> bool) (s : jsstring) :
  drop_while p (drop_while p s) = drop_while p s.
Proof.
  induction s as [|x s IH]; [reflexivity|]. cbn.
  destruct (p x) eqn:Hp; [exact IH|]. cbn. rewrite Hp. reflexivity.
Qed.

Lemma drop_while_head (p : N -> bool) (s : jsstring) :
  match drop_while p s with
  | [] => True
  | x :: _ => p x = false
  end.
Proof.
  induction s as [|x s IH]; [exact I|]. cbn.
  destruct (p x) eqn:Hp; [exact IH|exact Hp].
Qed.

Lemma drop_while_suffix (p : N -> bool) (s : jsstring) :
  exists t, s = t ++ drop_while p s /\ forallb p t = true.
Proof.
  induction s as [|x s IH]; [exists []; split; reflexivity|]. cbn.
  destruct (p x) eqn:Hp.
  - destruct IH as (t & Ht & Hall). exists (x :: t). cbn. rewrite Hp, Hall, <- Ht.
    split; reflexivity.
  - exists []. split; reflexivity.
Qed.

Lemma drop_while_keeps (p : N -> bool) (x : N) (s : jsstring) :
  p x = false -> drop_while p (x :: s) = x :: s.
Proof. intros Hp. cbn. rewrite Hp. reflexivity. Qed.

Lemma drop_while_app (p : N -> bool) (t s : jsstring) :
  forallb p t = true -> drop_while p (t ++ s) = drop_while p s.
Proof.
  induction t as [|x t IH]; intros Ht; [reflexivity|].
  cbn in *. apply andb_prop in Ht as [-> Ht]. exact (IH Ht).
Qed.

Lemma drop_while_last (p : N -> bool) (s : jsstring) (x : N) :
  p x = false -> drop_while p (s ++ [x]) = drop_while p s ++ [x].
Proof.
  intros Hp. induction s as [|y s IH]; cbn; [rewrite Hp; reflexivity|].
  destruct (p y); [exact IH|reflexivity].
Qed.

(** A trimmed text begins and ends with something that is not space. *)
Lemma trim_head (s : jsstring) :
  match trim s with
  | [] => True
  | x :: _ => is_space x = false
  end.
Proof.
  unfold trim.
  pose proof (drop_while_suffix is_space (rev (drop_while is_space s))) as (t & Ht & Hall).
  pose proof (drop_while_head is_space s) as Hhead.
  destruct (drop_while is_space (rev (drop_while is_space s))) as [|y u] eqn:Hd;
    [exact I|].
  assert (Hs : drop_while is_space s = rev (y :: u) ++ rev t).
  { rewrite <- rev_app_distr, <- Ht, rev_involutive. reflexivity. }
  rewrite Hs in Hhead. destruct (rev (y :: u)) as [|z v] eqn:Hr.
  - apply (f_equal (@length N)) in Hr. rewrite length_rev in Hr. discriminate.
  - exact Hhead.
Qed.

Lemma trim_last (s : jsstring) :
  match rev (trim s) with
  | [] => True
  | x :: _ => is_space x = false
  end.
Proof.
  unfold trim. rewrite rev_involutive. apply drop_while_head.
Qed.

Lemma trim_sub (P : N -> bool) (s : jsstring) :
  forallb P s = true -> forallb P (trim s) = true.
Proof.
  intros Hs. unfold trim.
  assert (Hdw : forall u, forallb P u = true -> forallb P (drop_while is_space u) = true).
  { intros u Hu. destruct (drop_while_suffix is_space u) as (t & Ht & _).
    rewrite Ht, forallb_app in Hu. apply andb_prop in Hu as [_ Hu]. exact Hu. }
  assert (Hrev : forall u, forallb P u = true -> forallb P (rev u) = true).
  { intros u Hu. rewrite forallb_forall in *. intros x Hx. apply Hu, in_rev. exact Hx. }
  auto.
Qed.

Lemma trim_drop_while (s : jsstring) : trim (drop_while is_space s) = trim s.
Proof. unfold trim. rewrite drop_while_twice. reflexivity. Qed.


End Text.
Import Text.

(** ** [replace(/\.git$/, '')] *)

Module Suffix.

Lemma eol_plain (st : mstate) : at_eol false st = true -> after st = [].
Proof. unfold at_eol. destruct (after st); [reflexivity|discriminate]. Qed.

Lemma git_suffix_run prev s st' :
  run false re_git_suffix (MState prev s []) st' -> s = js ".git" /\ after st' = [].
Proof.
  intros (st1 & Hlit & Heol & ->). apply lit_run in Hlit as (Ha & _).
  apply eol_plain in Heol. cbn [after] in Ha. rewrite Heol, app_nil_r in Ha.
  split; assumption.
Qed.

Lemma git_suffix_here prev :
  exists st', match_here false re_git_suffix prev (js ".git") = Some st' /\ after st' = [].
Proof.
  destruct (match_here false re_git_suffix prev (js ".git")) as [st'|] eqn:Hm.
  - exists st'. split; [reflexivity|].
    apply match_here_sound, git_suffix_run in Hm as [_ Ha]. exact Ha.
  - exfalso. eapply match_here_complete; [|exact Hm].
    exists (MState (rev (js ".git") ++ prev) [] []). split.
    + apply (lit_intro false (js ".git") prev [] []).
    + split; reflexivity.
Qed.

Lemma git_suffix_not_here prev s :
  s <> js ".git" -> match_here false re_git_suffix prev s = None.
Proof.
  intros Hne. destruct (match_here false re_git_suffix prev s) as [st'|] eqn:Hm;
    [|reflexivity].
  apply match_here_sound, git_suffix_run in Hm as [Hs _]. contradiction.
Qed.

Lemma strip_search (s : jsstring) : forall prev,
  match search false re_git_suffix prev s with
  | Some (skipped, _, st) => skipped ++ after st
  | None => s
  end = strip_suffix (js ".git") s.
Proof.
  induction s as [|x s IH]; intros prev.
  - cbn [search]. rewrite git_suffix_not_here by discriminate. reflexivity.
  - cbn [search strip_suffix].
    destruct (JsString.eqb (x :: s) (js ".git")) eqn:He.
    + apply eqb_eq in He. rewrite He.
      destruct (git_suffix_here prev) as (st' & -> & Ha). rewrite Ha. reflexivity.
    + apply eqb_neq in He. rewrite (git_suffix_not_here _ _ He).
      specialize (IH (x :: prev)).
      destruct (search false re_git_suffix (x :: prev) s) as [[[sk a] st]|];
        cbn [app]; rewrite <- IH; reflexivity.
Qed.

Lemma strip_git (s : jsstring) :
  replace_first false re_git_suffix (js "") s = strip_suffix (js ".git") s.
Proof. unfold replace_first. rewrite <- (strip_search s []). reflexivity. Qed.

Lemma strip_suffix_app (suffix t : jsstring) :
  suffix <> [] -> strip_suffix suffix (t ++ suffix) = t.
Proof.
  intros Hne. induction t as [|x t IH].
  - cbn [app]. destruct suffix as [|y u]; [contradiction|].
    cbn [strip_suffix]. rewrite eqb_refl. reflexivity.
  - cbn [app strip_suffix].
    destruct (JsString.eqb (x :: t ++ suffix) suffix) eqn:He.
    + apply eqb_eq in He. apply (f_equal (@length N)) in He.
      cbn [length] in He. rewrite length_app in He. lia.
    + rewrite IH. reflexivity.
Qed.

Lemma strip_suffix_other (suffix s : jsstring) :
  (forall t, s <> t ++ suffix) -> strip_suffix suffix s = s.
Proof.
  induction s as [|x s IH]; intros Hs; [reflexivity|]. cbn [strip_suffix].
  destruct (JsString.eqb (x :: s) suffix) eqn:He.
  - apply eqb_eq in He. destruct (Hs []). exact He.
  - rewrite IH; [reflexivity|]. intros t ->. apply (Hs (x :: t)). reflexivity.
Qed.

Lemma strip_suffix_prefix (suffix s : jsstring) :
  exists t, s = strip_suffix suffix s ++ t.
Proof.
  induction s as [|x s IH]; [exists []; reflexivity|]. cbn [strip_suffix].
  destruct (JsString.eqb (x :: s) suffix).
  - exists (x :: s). reflexivity.
  - destruct IH as (t & Ht). exists t. cbn [app]. rewrite <- Ht. reflexivity.
Qed.

Lemma strip_suffix_all (P : N -> bool) (suffix s : jsstring) :
  forallb P s = true -> forallb P (strip_suffix suffix s) = true.
Proof.
  intros Hs. destruct (strip_suffix_prefix suffix s) as (t & Ht).
  rewrite Ht, forallb_app in Hs. apply andb_prop in Hs as [Hs _]. exact Hs.
Qed.

End Suffix.
Import Suffix.

(** ** What the matcher answers on the greedy and the lazy repetitions *)

Module Greedy.

Lemma m_chr (ml : bool) (c : N) (b s : jsstring) (cs : list (nat * jsstring))
    (k : mstate -> option mstate) :
  m ml (Chr c) (MState b (c :: s) cs) k = k (MState (c :: b) s cs).
Proof. cbn [m after]. rewrite N.eqb_refl. reflexivity. Qed.

Lemma m_lit (ml : bool) (l : jsstring) : forall b s cs k,
  m ml (Lit l) (MState b (l ++ s) cs) k = k (MState (rev l ++ b) s cs).
Proof.
  induction l as [|c l IH]; intros b s cs k; [reflexivity|].
  cbn [Lit app]. rewrite Slug.m_seq, m_chr, IH. cbn [rev]. rewrite <- app_assoc.
  reflexivity.
Qed.

Lemma m_grp (ml : bool) (i : nat) (r : regex) (st : mstate)
    (k : mstate -> option mstate) :
  m ml (Grp i r) st k = m ml r st (fun st1 => k (capture i st st1)).
Proof. reflexivity. Qed.

Lemma m_eps (ml : bool) (st : mstate) (k : mstate -> option mstate) :
  m ml Eps st k = k st.
Proof. reflexivity. Qed.

Lemma m_eol (ml : bool) (st : mstate) (k : mstate -> option mstate) :
  m ml Eol st k = if at_eol ml st then k st else None.
Proof. reflexivity. Qed.

Lemma m_bol (ml : bool) (st : mstate) (k : mstate -> option mstate) :
  m ml Bol st k = if at_bol ml st then k st else None.
Proof. reflexivity. Qed.

Lemma capture_passed (i : nat) (b t rest : jsstring) (cs cs' : list (nat * jsstring))
    (b' : jsstring) :
  capture i (MState b (t ++ rest) cs) (MState b' rest cs')
  = MState b' rest ((i, t) :: cs').
Proof.
  unfold capture. cbn [before after caps]. f_equal. f_equal. f_equal.
  apply consumed_advance. reflexivity.
Qed.

(** A greedy repetition over a class passes the whole run when what
    follows the run matches. *)
Lemma star_class_greedy (ml : bool) (p : N -> bool) (k : mstate -> option mstate)
    (res : mstate) (rest : jsstring) (cs : list (nat * jsstring)) :
  stops p rest = true ->
  forall t fuel b,
    forallb p t = true -> length (t ++ rest) <= fuel ->
    k (MState (rev t ++ b) rest cs) = Some res ->
    star_loop (m ml (Cls p)) true k fuel (MState b (t ++ rest) cs) = Some res.
Proof.
  intros Hstop. induction t as [|x t IH]; intros fuel b Hall Hfuel Hk.
  - cbn [app rev] in *. destruct fuel as [|fuel]; [exact Hk|].
    rewrite Slug.star_greedy_step.
    destruct rest as [|y rest]; [cbn; exact Hk|].
    rewrite Slug.m_class. cbn in Hstop. apply negb_true_iff in Hstop. rewrite Hstop.
    exact Hk.
  - destruct fuel as [|fuel]; [cbn in Hfuel; lia|].
    cbn [forallb] in Hall. apply andb_prop in Hall as [Hx Hall].
    rewrite Slug.star_greedy_step. cbn [app]. rewrite Slug.m_class, Hx.
    cbn [after length].
    destruct (Nat.ltb_spec (length (t ++ rest)) (S (length (t ++ rest)))); [|lia].
    rewrite (IH fuel (x :: b)); [reflexivity|exact Hall|cbn in Hfuel; lia|].
    cbn [rev] in Hk. rewrite <- app_assoc in Hk. exact Hk.
Qed.

Lemma plus_class_greedy (ml : bool) (p : N -> bool) (k : mstate -> option mstate)
    (res : mstate) (t rest b : jsstring) (cs : list (nat * jsstring)) :
  t <> [] -> forallb p t = true -> stops p rest = true ->
  k (MState (rev t ++ b) rest cs) = Some res ->
  m ml (Plus true (Cls p)) (MState b (t ++ rest) cs) k = Some res.
Proof.
  intros Hne Hall Hstop Hk. destruct t as [|x t]; [contradiction|].
  cbn [forallb] in Hall. apply andb_prop in Hall as [Hx Hall].
  unfold Plus. rewrite Slug.m_seq. cbn [app]. rewrite Slug.m_class, Hx, Slug.m_star.
  cbn [after]. apply star_class_greedy; auto.
  cbn [rev] in Hk. rewrite <- app_assoc in Hk. exact Hk.
Qed.

Lemma group_class_greedy (ml : bool) (i : nat) (p : N -> bool)
    (k : mstate -> option mstate) (res : mstate) (t rest b : jsstring)
    (cs : list (nat * jsstring)) :
  t <> [] -> forallb p t = true -> stops p rest = true ->
  k (MState (rev t ++ b) rest ((i, t) :: cs)) = Some res ->
  m ml (Grp i (Plus true (Cls p))) (MState b (t ++ rest) cs) k = Some res.
Proof.
  intros Hne Hall Hstop Hk. rewrite m_grp.
  apply plus_class_greedy; auto. rewrite capture_passed. exact Hk.
Qed.

(** A lazy repetition over a class stops at the first place where what
    follows matches. *)
Lemma star_class_lazy (ml : bool) (p : N -> bool) (k : mstate -> option mstate)
    (res : mstate) (rest : jsstring) (cs : list (nat * jsstring)) :
  forall t fuel b,
    forallb p t = true -> length (t ++ rest) <= fuel ->
    (forall t1 t2, t = t1 ++ t2 -> t2 <> [] ->
                   k (MState (rev t1 ++ b) (t2 ++ rest) cs) = None) ->
    k (MState (rev t ++ b) rest cs) = Some res ->
    star_loop (m ml (Cls p)) false k fuel (MState b (t ++ rest) cs) = Some res.
Proof.
  induction t as [|x t IH]; intros fuel b Hall Hfuel Hearly Hk.
  - cbn [app rev] in *. destruct fuel as [|fuel]; [exact Hk|].
    cbn [star_loop]. rewrite Hk. reflexivity.
  - destruct fuel as [|fuel]; [cbn in Hfuel; lia|].
    cbn [forallb] in Hall. apply andb_prop in Hall as [Hx Hall].
    cbn [star_loop app].
    assert (H0 := Hearly [] (x :: t) eq_refl ltac:(discriminate)).
    cbn [rev app] in H0. rewrite H0.
    rewrite Slug.m_class, Hx. cbn [after length].
    destruct (Nat.ltb_spec (length (t ++ rest)) (S (length (t ++ rest)))); [|lia].
    apply (IH fuel (x :: b)); [exact Hall|cbn in Hfuel; lia| |].
    + intros t1 t2 -> Hne. specialize (Hearly (x :: t1) t2 eq_refl Hne).
      cbn [rev] in Hearly. rewrite <- app_assoc in Hearly. exact Hearly.
    + cbn [rev] in Hk. rewrite <- app_assoc in Hk. exact Hk.
Qed.

Lemma group_class_lazy (ml : bool) (i : nat) (p : N -> bool)
    (k : mstate -> option mstate) (res : mstate) (x : N) (t rest b : jsstring)
    (cs : list (nat * jsstring)) :
  forallb p (x :: t) = true ->
  (forall t1 t2, t = t1 ++ t2 -> t2 <> [] ->
     k (MState (rev (x :: t1) ++ b) (t2 ++ rest) ((i, x :: t1) :: cs)) = None) ->
  k (MState (rev (x :: t) ++ b) rest ((i, x :: t) :: cs)) = Some res ->
  m ml (Grp i (Plus false (Cls p))) (MState b ((x :: t) ++ rest) cs) k = Some res.
Proof.
  intros Hall Hearly Hk. cbn [forallb] in Hall. apply andb_prop in Hall as [Hx Hall].
  rewrite m_grp. unfold Plus. rewrite Slug.m_seq. cbn [app].
  rewrite Slug.m_class, Hx, Slug.m_star. cbn [after].
  apply star_class_lazy; auto.
  - intros t1 t2 -> Hne.
    rewrite <- app_assoc.
    change (x :: t1 ++ t2 ++ rest) with ((x :: t1) ++ t2 ++ rest).
    rewrite (capture_passed i b (x :: t1) (t2 ++ rest) cs cs (rev t1 ++ x :: b)).
    specialize (Hearly t1 t2 eq_refl Hne). cbn [rev] in Hearly.
    rewrite <- app_assoc in Hearly. exact Hearly.
  - change (x :: t ++ rest) with ((x :: t) ++ rest).
    rewrite (capture_passed i b (x :: t) rest cs cs (rev t ++ x :: b)).
    cbn [rev] in Hk. rewrite <- app_assoc in Hk. exact Hk.
Qed.

(** The search passes the places where nothing matches. *)
Lemma search_skip (ml : bool) (r : regex) (s : jsstring) (st : mstate) :
  forall pre prev,
    (forall p1 p2, pre = p1 ++ p2 -> p2 <> [] ->
                   match_here ml r (rev p1 ++ prev) (p2 ++ s) = None) ->
    match_here ml r (rev pre ++ prev) s = Some st ->
    search ml r prev (pre ++ s) = Some (pre, s, st).
Proof.
  induction pre as [|c pre IH]; intros prev Hnone Hm.
  - cbn [rev app] in *. destruct s; cbn [search]; rewrite Hm; reflexivity.
  - cbn [app search].
    assert (H0 := Hnone [] (c :: pre) eq_refl ltac:(discriminate)).
    cbn [rev app] in H0. rewrite H0.
    rewrite (IH (c :: prev)); [reflexivity| |].
    + intros p1 p2 -> Hne. specialize (Hnone (c :: p1) p2 eq_refl Hne).
      cbn [rev] in Hnone. rewrite <- app_assoc in Hnone. exact Hnone.
    + cbn [rev] in Hm. rewrite <- app_assoc in Hm. exact Hm.
Qed.

Lemma search_here (ml : bool) (r : regex) (prev s : jsstring) (st : mstate) :
  match_here ml r prev s = Some st -> search ml r prev s = Some ([], s, st).
Proof. intros Hm. destruct s; cbn [search]; rewrite Hm; reflexivity. Qed.

Lemma group_class_run ml g i (p : N -> bool) st st' :
  run ml (Grp i (Plus g (Cls p))) st st' ->
  exists t, after st = t ++ after st' /\ before st' = rev t ++ before st /\
            caps st' = (i, t) :: caps st /\ forallb p t = true /\ t <> [].
Proof.
  intros (st1 & Hplus & ->). apply plus_class in Hplus as (t & Ha & Hb & Hc & Hall & Hne).
  exists t. unfold capture. cbn [after before caps].
  rewrite (consumed_advance st st1 t Ha), Hc. repeat split; auto.
Qed.

End Greedy.
Import Greedy.

(** ** The repository reference ([parseRepo]) *)

Module Repo.

Lemma slashes_app (a b : jsstring) : slashes (a ++ b) = slashes a + slashes b.
Proof. unfold slashes. rewrite List.filter_app, length_app. reflexivity. Qed.

Lemma no_slash_count (s : jsstring) : no_slash s = true -> slashes s = 0.
Proof.
  unfold no_slash, slashes. induction s as [|x s IH]; [reflexivity|].
  cbn. intros Hs. apply andb_prop in Hs as [Hx Hs]. apply negb_true_iff in Hx.
  rewrite Hx. exact (IH Hs).
Qed.

Lemma no_slash_exists (s : jsstring) :
  no_slash s = negb (existsb (N.eqb 47) s).
Proof.
  unfold no_slash, is_slash. induction s as [|x s IH]; [reflexivity|].
  cbn. rewrite IH, negb_orb, (N.eqb_sym x 47). reflexivity.
Qed.

Lemma includes_slash (s : jsstring) : includes (js "/") s = negb (no_slash s).
Proof.
  rewrite no_slash_exists, negb_involutive.
  apply (includes_unit 47 s).
Qed.

Lemma no_slash_app (a b : jsstring) :
  no_slash (a ++ b) = no_slash a && no_slash b.
Proof. apply forallb_app. Qed.

Lemma segment_class (t : jsstring) :
  forallb (fun c => negb (N.eqb c 47)) t = no_slash t.
Proof. reflexivity. Qed.

(** What a match of [/github\.com\/([^\/]+)\/([^\/]+)/] has passed and
    captured. *)
Lemma repo_url_run prev s st' :
  run false re_repo_url (MState prev s []) st' ->
  exists t1 t2,
    s = js "github.com/" ++ t1 ++ [47%N] ++ t2 ++ after st' /\
    caps st' = [(2, t2); (1, t1)] /\
    no_slash t1 = true /\ no_slash t2 = true /\ t1 <> [] /\ t2 <> [].
Proof.
  intros (st1 & Hlit & st2 & Hg1 & st3 & Hslash & Hg2).
  apply lit_run in Hlit as (Ha1 & _ & Hc1).
  apply group_class_run in Hg1 as (t1 & Ha2 & _ & Hc2 & Hall1 & Hne1).
  destruct Hslash as (rest & Ha3 & ->).
  apply group_class_run in Hg2 as (t2 & Ha4 & _ & Hc4 & Hall2 & Hne2).
  cbn [after caps step] in *.
  exists t1, t2. rewrite Hc4, Hc2, Hc1. subst rest.
  rewrite Ha1, Ha2, Ha3. repeat split; auto.
Qed.

Lemma repo_url_groups (repo : jsstring) (cs : list (nat * jsstring)) :
  exec false re_repo_url repo = Some cs ->
  exists pre t1 t2 rest,
    repo = pre ++ js "github.com/" ++ t1 ++ [47%N] ++ t2 ++ rest /\
    group 1 cs = Some t1 /\ group 2 cs = Some t2 /\
    no_slash t1 = true /\ no_slash t2 = true /\ t1 <> [] /\ t2 <> [].
Proof.
  unfold exec. destruct (search false re_repo_url [] repo) as [[[sk a] st']|] eqn:Hs;
    [|discriminate].
  intros [= <-]. apply search_sound in Hs as (-> & Hrun & _).
  apply repo_url_run in Hrun as (t1 & t2 & -> & -> & H1 & H2 & Hn1 & Hn2).
  exists sk, t1, t2, (after st'). repeat split; auto.
Qed.

Lemma repo_url_needs_two (repo : jsstring) :
  slashes repo < 2 -> exec false re_repo_url repo = None.
Proof.
  intros Hlt. destruct (exec false re_repo_url repo) as [cs|] eqn:He; [|reflexivity].
  apply repo_url_groups in He as (pre & t1 & t2 & rest & -> & _).
  rewrite !slashes_app in Hlt.
  change (slashes (js "github.com/")) with 1 in Hlt.
  change (slashes [47%N]) with 1 in Hlt. lia.
Qed.

Lemma parseRepo_outcome (repo : jsstring) :
  match parseRepo repo with
  | Ret (owner, name) =>
      includes (js "/") repo = true /\ no_slash owner = true /\ no_slash name = true
  | Throw e => includes (js "/") repo = false /\ e = invalid_repo repo
  end.
Proof.
  unfold parseRepo.
  destruct (includes (js "github.com/") repo) eqn:Hurl.
  - destruct (exec false re_repo_url repo) as [cs|] eqn:He.
    + apply repo_url_groups in He as (pre & t1 & t2 & rest & -> & -> & -> & H1 & H2 & _).
      cbn [default from_option id]. split; [|split; [exact H1|]].
      * apply (includes_part (js "github.com") (js "/")). exact Hurl.
      * rewrite strip_git. apply strip_suffix_all. exact H2.
    + apply (includes_part (js "github.com") (js "/")) in Hurl. rewrite Hurl.
      pose proof Hurl as Hs. rewrite (includes_unit 47 repo : includes (js "/") repo = _) in Hs.
      apply split_two in Hs as (a & b & rest & Hsp). rewrite Hsp.
      pose proof (split_parts 47 repo) as Hparts. rewrite Hsp in Hparts.
      inversion Hparts as [|? ? Ha Hrest]; subst.
      inversion Hrest as [|? ? Hb _]; subst.
      split; [reflexivity|]. rewrite strip_git. split.
      * rewrite no_slash_exists, Ha. reflexivity.
      * apply strip_suffix_all. rewrite no_slash_exists, Hb. reflexivity.
  - destruct (includes (js "/") repo) eqn:Hsl.
    + pose proof Hsl as Hs. rewrite (includes_unit 47 repo : includes (js "/") repo = _) in Hs.
      apply split_two in Hs as (a & b & rest & Hsp). rewrite Hsp.
      pose proof (split_parts 47 repo) as Hparts. rewrite Hsp in Hparts.
      inversion Hparts as [|? ? Ha Hrest]; subst.
      inversion Hrest as [|? ? Hb _]; subst.
      split; [reflexivity|]. rewrite strip_git. split.
      * rewrite no_slash_exists, Ha. reflexivity.
      * apply strip_suffix_all. rewrite no_slash_exists, Hb. reflexivity.
    + split; reflexivity.
Qed.

(** X11. [parseRepo] throws exactly for a reference without a slash, and
    the error quotes the reference; when it answers, neither the owner
    nor the repository name holds a slash. *)
Theorem parseRepo_cases (repo : jsstring) :
  match parseRepo repo with
  | Ret (owner, name) =>
      includes (js "/") repo = true /\ no_slash owner = true /\ no_slash name = true
  | Throw e => includes (js "/") repo = false /\ e = invalid_repo repo
  end.
Proof. apply parseRepo_outcome. Qed.

(** X12. The short form [owner/name], with no slash in either part,
    parses to that owner and to that name without one final [.git]. *)
Theorem parseRepo_shorthand (owner name : jsstring) :
  no_slash owner = true -> no_slash name = true ->
  parseRepo (owner ++ js "/" ++ name) = Ret (owner, strip_suffix (js ".git") name).
Proof.
  intros Ho Hn. unfold parseRepo.
  assert (Hnone : exec false re_repo_url (owner ++ js "/" ++ name) = None).
  { apply repo_url_needs_two. rewrite !slashes_app.
    rewrite (no_slash_count _ Ho), (no_slash_count _ Hn).
    change (slashes (js "/")) with 1. lia. }
  rewrite Hnone.
  assert (Hurl : (if includes (js "github.com/") (owner ++ js "/" ++ name)
                  then @None (list (nat * jsstring)) else None) = None)
    by (destruct (includes _ _); reflexivity).
  rewrite Hurl.
  assert (Hsl : includes (js "/") (owner ++ js "/" ++ name) = true).
  { apply includes_spec. exists owner, name. reflexivity. }
  rewrite Hsl.
  change (owner ++ js "/" ++ name) with (owner ++ 47%N :: name).
  rewrite split_app by (rewrite no_slash_exists in Ho; apply negb_true_iff in Ho; exact Ho).
  rewrite split_clean by (rewrite no_slash_exists in Hn; apply negb_true_iff in Hn; exact Hn).
  rewrite strip_git. reflexivity.
Qed.

Lemma repo_url_first (prev s : jsstring) (st : mstate) :
  match_here false re_repo_url prev s = Some st -> exists s', s = 103%N :: s'.
Proof.
  intros Hm. apply match_here_sound, repo_url_run in Hm as (t1 & t2 & -> & _).
  eexists. reflexivity.
Qed.

(** X13. A full address [https://github.com/owner/name], alone or
    followed by a slash and more, parses to the owner and to the name
    without one final [.git]. *)
Theorem parseRepo_url (owner name rest : jsstring) :
  no_slash owner = true -> owner <> [] -> no_slash name = true -> name <> [] ->
  stops (fun c => negb (N.eqb c 47)) rest = true ->
  parseRepo (js "https://github.com/" ++ owner ++ js "/" ++ name ++ rest)
  = Ret (owner, strip_suffix (js ".git") name).
Proof.
  intros Ho Hno Hn Hnn Hrest.
  set (tail := owner ++ js "/" ++ name ++ rest).
  assert (Hhere : match_here false re_repo_url (rev (js "https://")) (js "github.com/" ++ tail)
                  = Some (MState (rev name ++ 47%N :: rev owner
                                    ++ rev (js "github.com/") ++ rev (js "https://"))
                            rest [(2, name); (1, owner)])).
  { unfold match_here, re_repo_url. rewrite Slug.m_seq, m_lit, Slug.m_seq.
    unfold tail. apply group_class_greedy; [exact Hno|exact Ho|reflexivity|].
    change (js "/" ++ name ++ rest) with (47%N :: name ++ rest).
    rewrite Slug.m_seq, m_chr.
    apply group_class_greedy; [exact Hnn|exact Hn|exact Hrest|reflexivity]. }
  assert (Hsearch : search false re_repo_url [] (js "https://" ++ js "github.com/" ++ tail)
                    = Some (js "https://", js "github.com/" ++ tail,
                            MState (rev name ++ 47%N :: rev owner
                                      ++ rev (js "github.com/") ++ rev (js "https://"))
                              rest [(2, name); (1, owner)])).
  { apply search_skip; [|rewrite app_nil_r; exact Hhere].
    intros p1 p2 Hsplit Hne.
    destruct (match_here false re_repo_url (rev p1 ++ []) (p2 ++ js "github.com/" ++ tail))
      as [st|] eqn:Hm; [|reflexivity].
    apply repo_url_first in Hm as (s' & Hs').
    exfalso. destruct p2 as [|c p2]; [contradiction|].
    injection Hs' as -> _.
    assert (Hin : In 103%N (js "https://")).
    { rewrite Hsplit. apply in_or_app. right. left. reflexivity. }
    vm_compute in Hin. intuition discriminate. }
  unfold parseRepo.
  change (js "https://github.com/" ++ owner ++ js "/" ++ name ++ rest)
    with (js "https://github.com/" ++ tail).
  change (js "https://github.com/" ++ tail)
    with (js "https://" ++ js "github.com/" ++ tail).
  assert (Hinc : includes (js "github.com/") (js "https://" ++ js "github.com/" ++ tail)
                 = true).
  { apply includes_spec. exists (js "https://"), tail. reflexivity. }
  rewrite Hinc. unfold exec. rewrite Hsearch. cbn [caps group Nat.eqb default from_option id].
  rewrite strip_git. reflexivity.
Qed.

End Repo.
Import Repo.

(** ** The git remote ([normalizeRepoUrl], [getGitRemoteUrl]) *)

Module Remote.

Lemma normalize_nonempty (remote : jsstring) :
  remote <> [] ->
  normalizeRepoUrl (Some remote) =
  match (if startsWith (js "git@") remote
         then exec false re_ssh_remote remote else None) with
  | Some cs =>
      Some (js "https://github.com/" ++ default [] (group 1 cs)
            ++ js "/" ++ default [] (group 2 cs))
  | None =>
      if startsWith (js "https://") remote
      then Some (replace_first false re_git_suffix (js "") remote)
      else Some remote
  end.
Proof. destruct remote; [contradiction|reflexivity]. Qed.

Lemma ssh_tail_run (st st' : mstate) :
  run false re_ssh_tail st st' -> after st = js ".git" \/ after st = [].
Proof.
  intros (st1 & [(st2 & Hlit & ->)|Heps] & Heol & ->).
  - apply lit_run in Hlit as (Ha & _). apply eol_plain in Heol.
    cbn [capture after] in Heol. rewrite Heol, app_nil_r in Ha. left. exact Ha.
  - cbn [run] in Heps. subst st1. apply eol_plain in Heol. right. exact Heol.
Qed.

Lemma ssh_tail_none (b s : jsstring) (cs : list (nat * jsstring)) :
  s <> js ".git" -> s <> [] -> m false re_ssh_tail (MState b s cs) Some = None.
Proof.
  intros H1 H2. destruct (m false re_ssh_tail (MState b s cs) Some) as [res|] eqn:Hm;
    [|reflexivity].
  apply m_sound in Hm as (st' & Hrun & _). apply ssh_tail_run in Hrun as [Ha|Ha];
    cbn [after] in Ha; contradiction.
Qed.

Lemma ssh_tail_git (b : jsstring) (cs : list (nat * jsstring)) :
  m false re_ssh_tail (MState b (js ".git") cs) Some
  = Some (MState (rev (js ".git") ++ b) [] ((3, js ".git") :: cs)).
Proof.
  unfold re_ssh_tail, Opt. rewrite Slug.m_seq, Slug.m_alt, m_grp.
  pose proof (m_lit false (js ".git") b [] cs) as Hlit.
  rewrite app_nil_r in Hlit. rewrite Hlit. reflexivity.
Qed.

Lemma ssh_tail_end (b : jsstring) (cs : list (nat * jsstring)) :
  m false re_ssh_tail (MState b [] cs) Some = Some (MState b [] cs).
Proof. reflexivity. Qed.

Lemma one_line_dot (s : jsstring) :
  forallb (fun c => negb (is_line_terminator c)) s = one_line s.
Proof. reflexivity. Qed.

Lemma ssh_match_core (org : jsstring) (x : N) (repo suffix : jsstring)
    (extra : list (nat * jsstring)) :
  no_slash org = true -> org <> [] -> one_line (x :: repo) = true ->
  (forall (b : jsstring) t1 t2, repo = t1 ++ t2 -> t2 <> [] ->
     m false re_ssh_tail (MState b (t2 ++ suffix) [(2, x :: t1); (1, org)]) Some = None) ->
  (forall b : jsstring, exists b',
     m false re_ssh_tail (MState b suffix [(2, x :: repo); (1, org)]) Some
     = Some (MState b' [] (extra ++ [(2, x :: repo); (1, org)]))) ->
  exec false re_ssh_remote (js "git@github.com:" ++ org ++ js "/" ++ (x :: repo) ++ suffix)
  = Some (extra ++ [(2, x :: repo); (1, org)]).
Proof.
  intros Ho Hno Hr Hearly Hlast.
  set (b0 := 47%N :: rev org ++ rev (js "git@github.com:")).
  destruct (Hlast (rev (x :: repo) ++ b0)) as (b' & Hfinal).
  unfold exec.
  rewrite (search_here false re_ssh_remote []
             (js "git@github.com:" ++ org ++ js "/" ++ (x :: repo) ++ suffix)
             (MState b' [] (extra ++ [(2, x :: repo); (1, org)]))); [reflexivity|].
  unfold match_here, re_ssh_remote. rewrite Slug.m_seq, m_lit, Slug.m_seq.
  apply group_class_greedy; [exact Hno|exact Ho|reflexivity|].
  change (js "/" ++ (x :: repo) ++ suffix) with (47%N :: (x :: repo) ++ suffix).
  rewrite Slug.m_seq, m_chr, Slug.m_seq. rewrite app_nil_r.
  apply (group_class_lazy false 2 _
           (fun st1 => m false (Seq (Opt (Grp 3 (Lit (js ".git")))) Eol) st1 Some)).
  - exact Hr.
  - intros t1 t2 Hsplit Hne. apply (Hearly _ t1 t2 Hsplit Hne).
  - exact Hfinal.
Qed.

(** The match of the SSH form at the start of the remote. *)
Lemma ssh_match (org repo suffix : jsstring) :
  no_slash org = true -> org <> [] -> one_line repo = true -> repo <> [] ->
  (suffix = js ".git" \/ (suffix = [] /\ forall t, repo <> t ++ js ".git")) ->
  exists cs,
    exec false re_ssh_remote (js "git@github.com:" ++ org ++ js "/" ++ repo ++ suffix)
    = Some cs /\
    group 1 cs = Some org /\ group 2 cs = Some repo.
Proof.
  intros Ho Hno Hr Hnr Hsuffix. destruct repo as [|x repo]; [contradiction|].
  assert (Hearly : forall (b : jsstring) t1 t2, repo = t1 ++ t2 -> t2 <> [] ->
    m false re_ssh_tail (MState b (t2 ++ suffix) [(2, x :: t1); (1, org)]) Some = None).
  { intros b t1 t2 -> Hne. apply ssh_tail_none.
    - destruct Hsuffix as [->|[-> Hother]].
      + intros Heq. apply (f_equal (@length N)) in Heq. rewrite length_app in Heq.
        destruct t2; [contradiction|cbn in Heq; lia].
      + rewrite app_nil_r. intros ->. apply (Hother (x :: t1)). reflexivity.
    - destruct t2; [contradiction|discriminate]. }
  destruct Hsuffix as [->|[-> _]].
  - exists ([(3, js ".git")] ++ [(2, x :: repo); (1, org)]). split; [|split; reflexivity].
    apply ssh_match_core; auto. intros b. eexists. apply ssh_tail_git.
  - exists ([] ++ [(2, x :: repo); (1, org)]). split; [|split; reflexivity].
    apply ssh_match_core; auto. intros b. eexists. apply ssh_tail_end.
Qed.

(** X8. An SSH remote of GitHub, [git@github.com:org/repo] with or
    without a final [.git], becomes [https://github.com/org/repo]. The
    organisation holds no slash, the repository name is on one line, and
    a remote given without the suffix is one whose name does not end in
    [.git] itself. *)
Theorem normalize_ssh (org repo suffix : jsstring) :
  no_slash org = true -> org <> [] -> one_line repo = true -> repo <> [] ->
  (suffix = js ".git" \/ (suffix = [] /\ forall t, repo <> t ++ js ".git")) ->
  normalizeRepoUrl (Some (js "git@github.com:" ++ org ++ js "/" ++ repo ++ suffix))
  = Some (js "https://github.com/" ++ org ++ js "/" ++ repo).
Proof.
  intros Ho Hno Hr Hnr Hsuffix.
  destruct (ssh_match org repo suffix Ho Hno Hr Hnr Hsuffix) as (cs & Hexec & Hg1 & Hg2).
  rewrite normalize_nonempty by discriminate.
  change (startsWith (js "git@") (js "git@github.com:" ++ org ++ js "/" ++ repo ++ suffix))
    with true.
  cbn match. rewrite Hexec, Hg1, Hg2. reflexivity.
Qed.

Lemma https_not_ssh (remote : jsstring) :
  startsWith (js "https://") remote = true -> startsWith (js "git@") remote = false.
Proof.
  intros Hs. apply startsWith_inv in Hs as (t & ->). reflexivity.
Qed.

(** X9. A remote that starts with [https://] is returned without one
    final [.git] and otherwise unchanged, whatever its host. *)
Theorem normalize_https (remote : jsstring) :
  startsWith (js "https://") remote = true ->
  normalizeRepoUrl (Some remote) = Some (strip_suffix (js ".git") remote).
Proof.
  intros Hs. rewrite normalize_nonempty.
  - rewrite (https_not_ssh _ Hs), Hs, strip_git. reflexivity.
  - apply startsWith_inv in Hs as (t & ->). discriminate.
Qed.

Lemma startsWith_longer (p s t : jsstring) :
  startsWith p s = true -> startsWith p (s ++ t) = true.
Proof.
  intros Hs. apply startsWith_inv in Hs as (u & ->). rewrite <- app_assoc.
  apply startsWith_app.
Qed.

End Remote.
Import Remote.

(** ** The document ([validatePrdFile], [extractProductName]) *)

Module Document.

Lemma at_bol_line_start (pre s : jsstring) (cs : list (nat * jsstring)) :
  at_bol true (MState (rev pre) s cs) = line_start pre.
Proof. unfold at_bol, line_start. cbn [before]. destruct (rev pre); reflexivity. Qed.

Lemma at_eol_stops (b s : jsstring) (cs : list (nat * jsstring)) :
  at_eol true (MState b s cs) = stops (fun c => negb (is_line_terminator c)) s.
Proof.
  unfold at_eol, stops. cbn [after]. destruct s; [reflexivity|].
  rewrite negb_involutive. reflexivity.
Qed.

(** What [/^#\s+PRD:/m] matches. *)
Lemma heading_found (content : jsstring) :
  found true re_prd_heading content <->
  exists pre ws rest,
    content = pre ++ [35%N] ++ ws ++ js "PRD:" ++ rest /\
    line_start pre = true /\ ws <> [] /\ forallb is_space ws = true.
Proof.
  split.
  - intros (pre & post & st' & -> & (st1 & [Hbol ->] & st2 & (r1 & Ha1 & ->) & st3 & Hws & Hlit)).
    rewrite at_bol_line_start in Hbol.
    apply plus_class in Hws as (ws & Ha2 & _ & _ & Hall & Hne).
    apply lit_run in Hlit as (Ha3 & _).
    cbn [after step] in *. subst post. rewrite Ha2, Ha3.
    exists pre, ws, (after st'). repeat split; auto.
  - intros (pre & ws & rest & -> & Hstart & Hne & Hall).
    exists pre, ([35%N] ++ ws ++ js "PRD:" ++ rest),
      (MState (rev (js "PRD:") ++ rev ws ++ 35%N :: rev pre) rest []).
    split; [reflexivity|].
    exists (MState (rev pre) ([35%N] ++ ws ++ js "PRD:" ++ rest) []). split.
    { split; [rewrite at_bol_line_start; exact Hstart|reflexivity]. }
    exists (MState (35%N :: rev pre) (ws ++ js "PRD:" ++ rest) []). split.
    { exists (ws ++ js "PRD:" ++ rest). split; reflexivity. }
    exists (MState (rev ws ++ 35%N :: rev pre) (js "PRD:" ++ rest) []). split.
    { apply plus_class_intro; assumption. }
    apply lit_intro.
Qed.


(** What the two expressions of [extractProductName] capture. *)
Lemma title_run prev s st' :
  run true re_prd_title (MState prev s []) st' ->
  exists t, caps st' = [(1, t)] /\ one_line t = true /\ t <> [].
Proof.
  intros (st1 & [_ ->] & st2 & (r1 & Ha1 & ->) & st3 & Hws & st4 & Hlit & st5 & Hsp
          & st6 & Hg & [_ ->]).
  apply plus_class in Hws as (ws & _ & _ & Hc3 & _).
  apply lit_run in Hlit as (_ & _ & Hc4).
  apply iter_class in Hsp as (sp & _ & _ & Hc5 & _).
  apply group_class_run in Hg as (t & _ & _ & Hc6 & Hall & Hne).
  exists t. rewrite Hc6, Hc5, Hc4, Hc3. repeat split; auto.
Qed.

Lemma plain_heading_run prev s st' :
  run true re_heading (MState prev s []) st' ->
  exists t, caps st' = [(1, t)] /\ one_line t = true /\ t <> [].
Proof.
  intros (st1 & [_ ->] & st2 & (r1 & Ha1 & ->) & st3 & Hws & st4 & Hg & [_ ->]).
  apply plus_class in Hws as (ws & _ & _ & Hc3 & _).
  apply group_class_run in Hg as (t & _ & _ & Hc6 & Hall & Hne).
  exists t. rewrite Hc6, Hc3. repeat split; auto.
Qed.

Lemma exec_run ml r s cs :
  exec ml r s = Some cs ->
  exists prev at_ st', run ml r (MState prev at_ []) st' /\ caps st' = cs.
Proof.
  unfold exec. destruct (search ml r [] s) as [[[sk a] st']|] eqn:Hs; [|discriminate].
  intros [= <-]. apply search_sound in Hs as (_ & Hrun & _). eauto.
Qed.

Lemma exec_found ml r s : found ml r s -> exists cs, exec ml r s = Some cs.
Proof.
  intros Hf. apply test_found in Hf. unfold test in Hf.
  destruct (exec ml r s) as [cs|]; [eauto|discriminate].
Qed.

Lemma trimmed_trim (s : jsstring) : trimmed (trim s) = true.
Proof.
  unfold trimmed, stops. pose proof (trim_head s) as Hh. pose proof (trim_last s) as Hl.
  destruct (trim s) as [|x t]; [reflexivity|].
  rewrite Hh. destruct (rev (x :: t)); [reflexivity|]. rewrite Hl. reflexivity.
Qed.

(** X3. The name [extractProductName] answers has no white space at
    either end and holds no line terminator: it is the trimmed rest of
    one line. *)
Theorem extracted_name (content name : jsstring) :
  extractProductName content = Some name ->
  trimmed name = true /\ one_line name = true.
Proof.
  unfold extractProductName.
  set (c := replace_g false re_comment (js "") content).
  destruct (exec true re_prd_title c) as [cs|] eqn:H1.
  - intros [= <-]. apply exec_run in H1 as (prev & a & st' & Hrun & <-).
    apply title_run in Hrun as (t & -> & Hline & _). cbn [group Nat.eqb default from_option id].
    split; [apply trimmed_trim|apply trim_sub; exact Hline].
  - destruct (exec true re_heading c) as [cs|] eqn:H2; [|discriminate].
    intros [= <-]. apply exec_run in H2 as (prev & a & st' & Hrun & <-).
    apply plain_heading_run in Hrun as (t & -> & Hline & _).
    cbn [group Nat.eqb default from_option id].
    split; [apply trimmed_trim|apply trim_sub; exact Hline].
Qed.

(** Without the opening of a comment nothing is removed. *)
Lemma comment_here prev s st' :
  match_here false re_comment prev s = Some st' -> startsWith (js "<!--") s = true.
Proof.
  intros Hm. apply match_here_sound in Hm as (st1 & Hlit & _).
  apply lit_run in Hlit as (Ha & _). cbn [after] in Ha. rewrite Ha.
  apply startsWith_app.
Qed.

Lemma no_comment_scan (s : jsstring) : forall prev,
  includes (js "<!--") s = false ->
  replace_scan false re_comment (js "") prev 0 s = s.
Proof.
  induction s as [|x s IH]; intros prev Hs.
  - cbn [replace_scan]. destruct (match_here false re_comment prev []) eqn:Hm; [|reflexivity].
    apply comment_here in Hm. discriminate.
  - rewrite includes_unfold in Hs. apply orb_false_elim in Hs as [Hhere Hs].
    cbn [replace_scan]. destruct (match_here false re_comment prev (x :: s)) eqn:Hm.
    + apply comment_here in Hm. congruence.
    + rewrite (IH _ Hs). reflexivity.
Qed.

Lemma no_comment (s : jsstring) :
  includes (js "<!--") s = false -> replace_g false re_comment (js "") s = s.
Proof. apply no_comment_scan. Qed.

Lemma nonblank_rest (name : jsstring) :
  trim name <> [] ->
  exists ws y rest, name = ws ++ y :: rest /\ forallb is_space ws = true /\
                    is_space y = false /\ drop_while is_space name = y :: rest.
Proof.
  intros Hne. destruct (drop_while_suffix is_space name) as (ws & Hname & Hall).
  pose proof (drop_while_head is_space name) as Hhead.
  destruct (drop_while is_space name) as [|y rest] eqn:Hd.
  - exfalso. apply Hne. unfold trim. rewrite Hd. reflexivity.
  - exists ws, y, rest. repeat split; auto.
Qed.

(** The first line [# PRD: <name>]. *)
Lemma title_match (name tail : jsstring) :
  one_line name = true -> trim name <> [] ->
  stops (fun c => negb (is_line_terminator c)) tail = true ->
  exists b',
    match_here true re_prd_title [] (js "# PRD: " ++ name ++ tail)
    = Some (MState b' tail [(1, drop_while is_space name)]).
Proof.
  intros Hline Hne Htail.
  destruct (nonblank_rest name Hne) as (ws & y & rest & Hname & Hws & Hy & Hd).
  rewrite Hd. rewrite Hname in *. clear Hname Hd.
  unfold one_line in Hline. rewrite forallb_app in Hline.
  apply andb_prop in Hline as [_ Hline].
  eexists. unfold match_here, re_prd_title.
  change (js "# PRD: " ++ (ws ++ y :: rest) ++ tail)
    with (35%N :: [32%N] ++ js "PRD:" ++ 32%N :: (ws ++ y :: rest) ++ tail).
  rewrite Slug.m_seq, m_bol. cbn [at_bol before].
  rewrite Slug.m_seq, m_chr, Slug.m_seq.
  apply plus_class_greedy; [discriminate|reflexivity|reflexivity|].
  rewrite Slug.m_seq, m_lit, Slug.m_seq, Slug.m_star. cbn [after].
  rewrite <- app_assoc.
  change (32%N :: ws ++ (y :: rest) ++ tail) with ((32%N :: ws) ++ (y :: rest) ++ tail).
  apply star_class_greedy.
  - cbn. rewrite Hy. reflexivity.
  - cbn. exact Hws.
  - reflexivity.
  - rewrite Slug.m_seq. apply group_class_greedy.
    + discriminate.
    + exact Hline.
    + exact Htail.
    + rewrite m_eol, at_eol_stops, Htail. reflexivity.
Qed.

(** X4. For a document without the opening of a comment whose first
    line is [# PRD: ] followed by a name that is not blank,
    [extractProductName] answers that name, trimmed; what follows the
    first line does not matter. *)
Theorem name_of_title (name tail : jsstring) :
  one_line name = true -> trim name <> [] ->
  stops (fun c => negb (is_line_terminator c)) tail = true ->
  includes (js "<!--") (js "# PRD: " ++ name ++ tail) = false ->
  extractProductName (js "# PRD: " ++ name ++ tail) = Some (trim name).
Proof.
  intros Hline Hne Htail Hc. unfold extractProductName.
  rewrite (no_comment _ Hc).
  destruct (title_match name tail Hline Hne Htail) as (b' & Hm).
  unfold exec. rewrite (search_here _ _ _ _ _ Hm).
  cbn [caps group Nat.eqb default from_option id].
  rewrite trim_drop_while. reflexivity.
Qed.

(** A heading [# PRD:] is a heading. *)
Lemma heading_is_plain (content : jsstring) :
  found true re_prd_heading content -> found true re_heading content.
Proof.
  rewrite heading_found. intros (pre & ws & rest & -> & Hstart & Hne & Hall).
  destruct (drop_while_suffix (fun c => negb (is_line_terminator c)) rest)
    as (line & Hrest & Hline).
  pose proof (drop_while_head (fun c => negb (is_line_terminator c)) rest) as Hstop.
  set (after_line := drop_while (fun c => negb (is_line_terminator c)) rest) in *.
  exists pre, ([35%N] ++ ws ++ js "PRD:" ++ rest),
    (capture 1 (MState (rev ws ++ 35%N :: rev pre) (js "PRD:" ++ rest) [])
       (MState (rev (js "PRD:" ++ line) ++ rev ws ++ 35%N :: rev pre) after_line [])).
  split; [reflexivity|].
  exists (MState (rev pre) ([35%N] ++ ws ++ js "PRD:" ++ rest) []). split.
  { split; [rewrite at_bol_line_start; exact Hstart|reflexivity]. }
  exists (MState (35%N :: rev pre) (ws ++ js "PRD:" ++ rest) []). split.
  { exists (ws ++ js "PRD:" ++ rest). split; reflexivity. }
  exists (MState (rev ws ++ 35%N :: rev pre) (js "PRD:" ++ rest) []). split.
  { apply plus_class_intro; assumption. }
  eexists. split; [|split; [|reflexivity]].
  - eexists. split; [|reflexivity].
    rewrite Hrest at 1. rewrite app_assoc.
    apply plus_class_intro; [|discriminate].
    rewrite forallb_app, Hline. reflexivity.
  - unfold capture. cbn [before after caps].
    rewrite (at_eol_stops _ after_line). unfold stops.
    destruct after_line; [reflexivity|]. rewrite Hstop. reflexivity.
Qed.

Lemma heading_gives_a_name (content : jsstring) :
  test true re_prd_heading content = true ->
  includes (js "<!--") content = false ->
  exists name, extractProductName content = Some name.
Proof.
  intros Ht Hc. apply test_found, heading_is_plain, exec_found in Ht as (cs & Hcs).
  unfold extractProductName. rewrite (no_comment _ Hc).
  destruct (exec true re_prd_title content); [eauto|]. rewrite Hcs. eauto.
Qed.

Section WithHost.

Variable H : Host.

Lemma valid_inv (path : jsstring) :
  valid (validatePrdFile H path) = true ->
  exists content, readFileSync H path = Ret content /\
                  test true re_prd_heading content = true.
Proof.
  unfold validatePrdFile. destruct (readFileSync H path) as [content|[msg|why|]];
    cbn; try discriminate.
  destruct (trim content); [discriminate|].
  destruct (test true re_prd_heading content) eqn:Ht; cbn; [|discriminate].
  eauto.
Qed.


End WithHost.

End Document.
Import Document.

(** ** The upsert on any registry of entries *)

Module UpsertShape.

Lemma same_entry_self h e (c : Candidate) l ps :
  h !! e = Some (CObj (entry_literal c)) ->
  h !! l = Some (CObj ps) ->
  obj_get (js "prd_path") ps = Some (VStr (prd_path c)) ->
  same_entry h (VRef e) (VRef l) = Ret true.
Proof.
  intros He Hl Hp. unfold same_entry, get_prop. rewrite Hl, He, Hp, entry_literal_path.
  cbn. rewrite eqb_refl. reflexivity.
Qed.


Lemma is_object_kept h h' vs :
  (forall l ps, h !! l = Some (CObj ps) -> h' !! l = Some (CObj ps)) ->
  forallb (is_object h) vs = true -> forallb (is_object h') vs = true.
Proof.
  intros Hframe. rewrite !forallb_forall. intros Hall v Hv. specialize (Hall v Hv).
  destruct v as [| | | | |l]; try discriminate. cbn in *.
  destruct (h !! l) as [[ps|]|] eqn:Hl; try discriminate.
  rewrite (Hframe _ _ Hl). reflexivity.
Qed.

Lemma forallb_insert {A} (f : A -> bool) (l : list A) (i : nat) (x : A) :
  forallb f l = true -> f x = true -> forallb f (<[i := x]> l) = true.
Proof.
  revert i. induction l as [|y l IH]; intros i Hl Hx; [reflexivity|].
  cbn in Hl. apply andb_prop in Hl as [Hy Hl].
  destruct i; cbn; [rewrite Hx, Hl|rewrite Hy, IH]; auto.
Qed.

Section WithHost.

Variable H : Host.

(** What an upsert over a registry of objects leaves. *)
Lemma upsert_result (w : world) (registry : val) (e : loc) (c : Candidate)
    (vs : list val) :
  items_of (heap w) registry = Some vs ->
  forallb (is_object (heap w)) vs = true ->
  heap w !! e = Some (CObj (entry_literal c)) ->
  exists r1 w1 vs1 nps,
    upsertRegistry H registry (VRef e) w = (Ret (VRef r1), w1) /\
    items_of (heap w1) (VRef r1) = Some vs1 /\
    heap w1 !! length (heap w) = Some (CObj nps) /\
    obj_get (js "prd_path") nps = Some (VStr (prd_path c)) /\
    (findIndex (same_entry (heap w) (VRef e)) 0%Z vs = Ret (-1)%Z /\
     vs1 = vs ++ [VRef (length (heap w))] \/
     exists i, findIndex (same_entry (heap w) (VRef e)) 0%Z vs = Ret (Z.of_nat i) /\
               i < length vs /\ vs1 = <[i := VRef (length (heap w))]> vs) /\
    (forall l ps, heap w !! l = Some (CObj ps) -> heap w1 !! l = Some (CObj ps)) /\
    requests w1 = requests w.
Proof.
  intros Hitems Hobj He.
  destruct (items_of_inv _ _ _ Hitems) as (r & rps & a & -> & Hr & Hg & Ha).
  assert (Hheld : get_prop (heap w) (VRef r) (js "items") = Ret (VRef a)).
  { unfold get_prop. rewrite Hr, Hg. reflexivity. }
  pose proof (as_array_ref _ _ _ Ha) as Harr.
  assert (Hframe : forall c1 d1 e1 l ps, heap w !! l = Some (CObj ps) ->
            (<[a := c1]> (heap w ++ [d1]) ++ [e1]) !! l = Some (CObj ps)).
  { intros c1 d1 e1 l ps Hl. eapply final_old; [exact Hl|]. intros ->. congruence. }
  destruct (findIndex_objects _ _ _ vs 0%Z He Hobj) as [idx Hfind].
  destruct (findIndex_spec _ _ _ _ Hfind) as [[-> _]|(k & v & -> & Hk & _)].
  - pose proof (insert_run H w _ _ _ a vs Hheld Harr Hfind) as Hrun. cbn zeta in Hrun.
    eexists _, _, _, _. split; [exact Hrun|]. cbn [heap requests].
    split; [|split; [|split; [|split; [|split]]]].
    + apply items_of_returned; [|apply length_after].
      eapply lookup_store_same. apply lookup_alloc. exact Ha.
    + eapply final_new. exact Ha.
    + unfold own_props. rewrite He.
      rewrite object_literal_get, rev_app_distr. reflexivity.
    + left. split; [exact Hfind|reflexivity].
    + apply Hframe.
    + reflexivity.
  - pose proof (update_run H w _ _ _ a vs _ Hheld Harr Hfind ltac:(lia)) as Hrun.
    cbn zeta in Hrun.
    pose proof (lookup_lt_Some _ _ _ Hk) as Hlt.
    replace (Z.to_nat (0 + Z.of_nat k)) with k in Hrun by lia.
    unfold array_set in Hrun. apply Nat.ltb_lt in Hlt as Hltb. rewrite Hltb in Hrun.
    eexists _, _, _, _. split; [exact Hrun|]. cbn [heap requests].
    split; [|split; [|split; [|split; [|split]]]].
    + apply items_of_returned; [|apply length_after].
      eapply lookup_store_same. apply lookup_alloc. exact Ha.
    + eapply final_new. exact Ha.
    + unfold own_props at 2. rewrite He.
      rewrite object_literal_get, !rev_app_distr. reflexivity.
    + right. exists k. split; [|split; [exact Hlt|reflexivity]].
      rewrite Hfind. f_equal.
    + apply Hframe.
    + reflexivity.
Qed.

Lemma upsert_result_objects (w : world) (e : loc) (c : Candidate)
    (vs vs1 : list val) (w1 : world) (nps : list (jsstring * val)) :
  forallb (is_object (heap w)) vs = true ->
  heap w1 !! length (heap w) = Some (CObj nps) ->
  (forall l ps, heap w !! l = Some (CObj ps) -> heap w1 !! l = Some (CObj ps)) ->
  (vs1 = vs ++ [VRef (length (heap w))] \/
   exists i, i < length vs /\ vs1 = <[i := VRef (length (heap w))]> vs) ->
  forallb (is_object (heap w1)) vs1 = true.
Proof.
  intros Hobj Hnew Hframe Hshape.
  pose proof (is_object_kept _ _ _ Hframe Hobj) as Hkept.
  assert (Hn : is_object (heap w1) (VRef (length (heap w))) = true).
  { cbn. rewrite Hnew. reflexivity. }
  destruct Hshape as [->|(i & _ & ->)].
  - rewrite forallb_app, Hkept. cbn. rewrite Hnew. reflexivity.
  - apply forallb_insert; assumption.
Qed.

(** X16. Upserting the same candidate a second time, into the registry
    the first upsert returned, adds nothing: the first upsert adds at
    most one item and the second finds the candidate and leaves the
    number of items as it is. *)
Theorem upsert_twice_adds_once (w : world) (registry : val) (e : loc)
    (c : Candidate) (vs : list val) :
  items_of (heap w) registry = Some vs ->
  forallb (is_object (heap w)) vs = true ->
  heap w !! e = Some (CObj (entry_literal c)) ->
  exists r1 w1 vs1 r2 w2 vs2,
    upsertRegistry H registry (VRef e) w = (Ret r1, w1) /\
    items_of (heap w1) r1 = Some vs1 /\
    upsertRegistry H r1 (VRef e) w1 = (Ret r2, w2) /\
    items_of (heap w2) r2 = Some vs2 /\
    length vs <= length vs1 <= S (length vs) /\
    length vs2 = length vs1.
Proof.
  intros Hitems Hobj He.
  destruct (upsert_result w registry e c vs Hitems Hobj He)
    as (r1 & w1 & vs1 & nps & Hup1 & Hitems1 & Hnew & Hpath & Hshape & Hframe & _).
  assert (Hshape' : vs1 = vs ++ [VRef (length (heap w))] \/
                    exists i, i < length vs /\ vs1 = <[i := VRef (length (heap w))]> vs).
  { destruct Hshape as [[_ ->]|(i & _ & Hi & ->)]; [left|right]; eauto. }
  pose proof (upsert_result_objects w e c vs vs1 w1 nps Hobj Hnew Hframe Hshape') as Hobj1.
  pose proof (Hframe _ _ He) as He1.
  destruct (upsert_result w1 (VRef r1) e c vs1 Hitems1 Hobj1 He1)
    as (r2 & w2 & vs2 & nps2 & Hup2 & Hitems2 & _ & _ & Hshape2 & _).
  exists (VRef r1), w1, vs1, (VRef r2), w2, vs2.
  repeat (split; [assumption|]).
  assert (Hlen1 : length vs <= length vs1 <= S (length vs)).
  { destruct Hshape' as [->|(i & _ & ->)].
    - rewrite length_app. cbn. lia.
    - rewrite length_insert. lia. }
  split; [exact Hlen1|].
  destruct Hshape2 as [[Hnone _]|(i & _ & _ & ->)]; [|apply length_insert].
  exfalso.
  destruct (findIndex_spec _ _ _ _ Hnone) as [[_ Hall]|(k & v & Hk & _)]; [|lia].
  assert (Hin : exists j, vs1 !! j = Some (VRef (length (heap w)))).
  { destruct Hshape' as [->|(i & Hi & ->)].
    - exists (length vs). apply list_lookup_middle. reflexivity.
    - exists i. apply list_lookup_insert_eq. exact Hi. }
  destruct Hin as (j & Hj). specialize (Hall _ _ Hj).
  rewrite (same_entry_self _ _ c _ nps He1 Hnew Hpath) in Hall. discriminate.
Qed.


End WithHost.

End UpsertShape.
Import UpsertShape.

(** ** The order of the requests *)

Module Protocol.

Lemma silent_bind {A B} (c : M A) (f : A -> M B) :
  silent c -> (forall a, silent (f a)) -> silent (c ≫= f).
Proof.
  intros Hc Hf w. unfold mbind, M_bind. specialize (Hc w).
  destruct (c w) as [[a|t] w1]; cbn in *; [rewrite Hf|]; exact Hc.
Qed.

Lemma silent_ret {A} (a : A) : silent (mret a : M A).
Proof. intros w. reflexivity. Qed.

Lemma silent_reading {A} (f : list cell -> outcome A) : silent (reading f).
Proof. intros w. reflexivity. Qed.

Lemma silent_alloc (c : cell) : silent (alloc c).
Proof. intros w. reflexivity. Qed.

Lemma silent_store (l : loc) (c : cell) : silent (store l c).
Proof. intros w. reflexivity. Qed.

Lemma silent_elements (l : loc) : silent (elements l).
Proof. intros w. reflexivity. Qed.

Lemma silent_build (j : json) : silent (build j).
Proof. intros w. unfold build. destruct (alloc_json j (heap w)). reflexivity. Qed.

Section WithHost.

Variable H : Host.

Lemma silent_now : silent (now H).
Proof. intros w. reflexivity. Qed.

Lemma silent_upsertRegistry registry entry : silent (upsertRegistry H registry entry).
Proof.
  unfold upsertRegistry.
  repeat first
    [ apply silent_bind; [|intros ?]
    | apply silent_reading | apply silent_alloc | apply silent_store
    | apply silent_elements | apply silent_now | apply silent_ret
    | match goal with
      | |- silent (match ?x with _ => _ end) => destruct x
      | |- silent (if ?x then _ else _) => destruct x
      end ].
Qed.

Lemma silent_loadRegistry content : silent (loadRegistry H content).
Proof.
  unfold loadRegistry.
  destruct (truthy content); [destruct (JSON_parse H _)|]; apply silent_build.
Qed.

Lemma silent_generateBranchName d n : silent (generateBranchName H d n).
Proof.
  unfold generateBranchName. apply silent_bind; [apply silent_now|].
  intros ?. apply silent_ret.
Qed.

Lemma silent_prepare options name content : silent (prepare H options name content).
Proof.
  unfold prepare, registry_items_some.
  repeat first
    [ apply silent_ret | apply silent_loadRegistry | apply silent_alloc
    | apply silent_upsertRegistry | apply silent_reading
    | apply silent_generateBranchName
    | apply silent_bind; [|intros ?] ].
Qed.

Lemma prepare_branch options name content w isUpdate branchName registryText w2 :
  prepare H options name content w = (Ret (isUpdate, branchName, registryText), w2) ->
  (exists stamp, branchName = js "prd/" ++ domain options ++ js "/"
                              ++ sanitizeFilename (toLowerCase H) name
                              ++ js "-" ++ stamp) /\
  (exists text, registryText = text ++ [10%N]).
Proof.
  unfold prepare, mbind, M_bind.
  destruct (loadRegistry H content w) as [[registry|t] w1]; [|discriminate].
  destruct (alloc _ w1) as [[tags_array|t] w3]; [|discriminate].
  destruct (alloc _ w3) as [[entry|t] w4]; [|discriminate].
  destruct (upsertRegistry H registry (VRef entry) w4) as [[updated|t] w5];
    [|discriminate].
  destruct (registry_items_some registry _ _ w5) as [[isUpdate'|t] w6]; [|discriminate].
  unfold generateBranchName, now, reading, mbind, M_bind, mret, M_ret.
  intros [= <- <- <- <-]. split; eexists; reflexivity.
Qed.

(** [publish_to] is the fetch, the preparation and the finish. *)
Lemma publish_to_factored (options : PublishOptions) (prdContent productName : jsstring)
    (github : GitHubConfig) (w : world) :
  publish_to H options prdContent productName github w =
  (registryContent ← getFile H github (js "registry.json")
                        (or_else (baseBranch options) (js "main"));
   prepared ← prepare H options productName registryContent;
   finish H options prdContent productName github prepared) w.
Proof.
  unfold publish_to, prepare, finish, mbind, M_bind.
  destruct (getFile H github _ _ w) as [[rc|t] w1]; [|reflexivity].
  destruct (loadRegistry H rc w1) as [[registry|t] w2]; [|reflexivity].
  destruct (alloc _ w2) as [[tags_array|t] w3]; [|reflexivity].
  destruct (alloc _ w3) as [[entry|t] w4]; [|reflexivity].
  destruct (upsertRegistry H registry (VRef entry) w4) as [[updated|t] w5]; [|reflexivity].
  destruct (registry_items_some registry _ _ w5) as [[isUpdate|t] w6]; [|reflexivity].
  destruct (generateBranchName H _ _ w6) as [[branchName|t] w7]; [|reflexivity].
  destruct (reading _ w7) as [[text|t] w8]; [|reflexivity].
  reflexivity.
Qed.

(** What the finish sends and answers. *)
Lemma finish_cases (options : PublishOptions) (prdContent productName : jsstring)
    (github : GitHubConfig) (isUpdate : bool) (branchName registryText : jsstring)
    (w : world) :
  let baseBranch := or_else (baseBranch options) (js "main") in
  let prdPath := prdPath_of H options productName in
  let writes :=
    [ Request github (CreateBranch branchName baseBranch);
      Request github (CreateOrUpdateFile prdPath prdContent
                        (prdMessage_of options isUpdate productName) branchName);
      Request github (CreateOrUpdateFile (js "registry.json") registryText
                        (registryMessage_of options productName) branchName);
      Request github (CreatePullRequest (prTitle_of isUpdate productName)
                        (prBody_of options isUpdate productName
                           (resolveSourceRepo H options) prdPath)
                        branchName baseBranch) ] in
  exists new out,
    finish H options prdContent productName github
      (isUpdate, branchName, registryText) w
    = (out, World (heap w) (clock_reads w) (requests w ++ new)) /\
    new `prefix_of` writes /\
    match out with
    | Ret res =>
        (default false (dryRun options) = true /\ new = [] /\ res = dry_run_success) \/
        (default false (dryRun options) = false /\ new = writes /\
         exists pr,
           remote_createPullRequest H (requests w ++ take 3 writes) github
             (prTitle_of isUpdate productName)
             (prBody_of options isUpdate productName
                (resolveSourceRepo H options) prdPath)
             branchName baseBranch = Ret pr /\
           res = {| success := true; prUrl := Some (url pr);
                    prNumber := Some (number pr);
                    error := None; dryRun_marker := None |})
    | Throw _ => default false (dryRun options) = false
    end.
Proof.
  intros baseBranch prdPath writes. unfold finish.
  fold baseBranch. fold prdPath.
  destruct w as [h n log]. cbn [heap clock_reads requests].
  destruct (default false (dryRun options)) eqn:Hdry.
  { exists [], (Ret dry_run_success). rewrite app_nil_r.
    split; [reflexivity|]. split; [apply prefix_nil|]. left. auto. }
  cbv beta iota delta [mbind M_bind write_files createBranch createOrUpdateFile
    createPullRequest send mret M_ret requests heap clock_reads].
  set (r1 := Request github (CreateBranch branchName baseBranch)) in *.
  set (r2 := Request github (CreateOrUpdateFile prdPath prdContent
               (prdMessage_of options isUpdate productName) branchName)) in *.
  set (r3 := Request github (CreateOrUpdateFile (js "registry.json") registryText
               (registryMessage_of options productName) branchName)) in *.
  set (r4 := Request github (CreatePullRequest (prTitle_of isUpdate productName)
               (prBody_of options isUpdate productName
                  (resolveSourceRepo H options) prdPath)
               branchName baseBranch)) in *.
  destruct (remote_createBranch H log github branchName baseBranch)
    as [[]|t] eqn:H1.
  2:{ exists [r1], (Throw t). split; [reflexivity|].
      split; [exists [r2; r3; r4]; reflexivity|reflexivity]. }
  destruct (remote_createOrUpdateFile H (log ++ [r1]) github prdPath prdContent
              (prdMessage_of options isUpdate productName) branchName)
    as [[]|t] eqn:H2.
  2:{ exists [r1; r2], (Throw t). split; [rewrite <- app_assoc; reflexivity|].
      split; [exists [r3; r4]; reflexivity|reflexivity]. }
  destruct (remote_createOrUpdateFile H ((log ++ [r1]) ++ [r2]) github
              (js "registry.json") registryText
              (registryMessage_of options productName) branchName)
    as [[]|t] eqn:H3.
  2:{ exists [r1; r2; r3], (Throw t). split; [rewrite <- !app_assoc; reflexivity|].
      split; [exists [r4]; reflexivity|reflexivity]. }
  destruct (remote_createPullRequest H (((log ++ [r1]) ++ [r2]) ++ [r3]) github
              (prTitle_of isUpdate productName)
              (prBody_of options isUpdate productName
                 (resolveSourceRepo H options) prdPath)
              branchName baseBranch) as [pr|t] eqn:H4.
  2:{ exists writes, (Throw t). split; [rewrite <- !app_assoc; reflexivity|].
      split; reflexivity. }
  exists writes. eexists. split; [rewrite <- !app_assoc; reflexivity|].
  split; [reflexivity|]. right. split; [reflexivity|]. split; [reflexivity|].
  exists pr. rewrite <- !app_assoc in H4. split; [exact H4|reflexivity].
Qed.

End WithHost.

End Protocol.
Import Protocol.

(** ** Every run of [publishPrd] *)

Module Sent.

Section WithHost.

Variable H : Host.

(** What [publish_to] sends and answers. *)
Lemma publish_to_cases (options : PublishOptions) (prdContent productName : jsstring)
    (github : GitHubConfig) (w : world) :
  exists new out w' isUpdate branchName registryText,
    publish_to H options prdContent productName github w = (out, w') /\
    requests w' = requests w ++ new /\
    new `prefix_of`
      plan github (or_else (baseBranch options) (js "main")) branchName
        (prdPath_of H options productName) prdContent
        (prdMessage_of options isUpdate productName) registryText
        (registryMessage_of options productName) (prTitle_of isUpdate productName)
        (prBody_of options isUpdate productName (resolveSourceRepo H options)
           (prdPath_of H options productName)) /\
    match out with
    | Ret res =>
        (default false (dryRun options) = true /\ res = dry_run_success /\
         new = [Request github (GetFile (js "registry.json")
                                  (or_else (baseBranch options) (js "main")))]) \/
        (default false (dryRun options) = false /\
         (exists pr, res = published pr) /\
         (exists stamp, branchName = js "prd/" ++ domain options ++ js "/"
                                     ++ sanitizeFilename (toLowerCase H) productName
                                     ++ js "-" ++ stamp) /\
         (exists text, registryText = text ++ [10%N]) /\
         new = plan github (or_else (baseBranch options) (js "main")) branchName
                 (prdPath_of H options productName) prdContent
                 (prdMessage_of options isUpdate productName) registryText
                 (registryMessage_of options productName)
                 (prTitle_of isUpdate productName)
                 (prBody_of options isUpdate productName (resolveSourceRepo H options)
                    (prdPath_of H options productName)))
    | Throw _ => True
    end.
Proof.
  rewrite publish_to_factored. unfold mbind at 1, M_bind at 1.
  set (base := or_else (baseBranch options) (js "main")).
  set (fetch := Request github (GetFile (js "registry.json") base)).
  assert (Hget : getFile H github (js "registry.json") base w
                 = (remote_getFile H (requests w) github (js "registry.json") base,
                    World (heap w) (clock_reads w) (requests w ++ [fetch])))
    by reflexivity.
  rewrite Hget. clear Hget.
  destruct (remote_getFile H (requests w) github (js "registry.json") base) as [rc|t].
  2:{ exists [fetch], (Throw t). eexists. exists false, [], [].
      split; [reflexivity|]. split; [reflexivity|].
      split; [eexists; reflexivity|exact I]. }
  unfold mbind, M_bind.
  pose proof (silent_prepare H options productName rc
                (World (heap w) (clock_reads w) (requests w ++ [fetch]))) as Hsilent.
  pose proof (prepare_branch H options productName rc
                (World (heap w) (clock_reads w) (requests w ++ [fetch]))) as Hbranch.
  destruct (prepare H options productName rc _) as [[[[isUpdate branchName] text]|t] w2].
  2:{ exists [fetch], (Throw t), w2, false, [], [].
      split; [reflexivity|]. split; [exact Hsilent|].
      split; [eexists; reflexivity|exact I]. }
  cbn [snd requests] in Hsilent.
  destruct (finish_cases H options prdContent productName github isUpdate branchName
              text w2) as (new & out & Hfin & Hpre & Hout).
  rewrite Hfin. exists (fetch :: new), out. eexists. exists isUpdate, branchName, text.
  split; [reflexivity|]. cbn [requests]. rewrite Hsilent, <- app_assoc.
  split; [reflexivity|]. split.
  { destruct Hpre as (rest & Hrest). exists rest. unfold plan. fold base. fold fetch.
    cbn [app]. f_equal. exact Hrest. }
  destruct out as [res|t]; [|exact I].
  destruct Hout as [(Hdry & -> & ->)|(Hdry & -> & pr & _ & ->)].
  - left. auto.
  - right. split; [exact Hdry|]. split; [exists pr; reflexivity|].
    destruct (Hbranch _ _ _ _ eq_refl) as [Hb Ht]. auto.
Qed.

Lemma publish_steps_cases (options : PublishOptions) (w : world) :
  (exists msg, publish_steps H options w = (Ret (failure msg), w)) \/
  (exists t, publish_steps H options w = (Throw t, w)) \/
  (exists content name target,
     valid (validatePrdFile H (file options)) = true /\
     readFileSync H (file options) = Ret content /\
     resolveProductName options content = Some name /\ name <> [] /\
     parseRepo (repoUrl options) = Ret target /\
     publish_steps H options w
     = publish_to H options content name (github_of options target) w).
Proof.
  unfold publish_steps.
  destruct (valid (validatePrdFile H (file options))) eqn:Hvalid; cbn [negb];
    [|left; eexists; reflexivity].
  destruct (readFileSync H (file options)) as [content|t] eqn:Hread.
  2:{ right; left. exists t. apply run_bind_throw. reflexivity. }
  erewrite run_bind by reflexivity. cbn beta.
  destruct (resolveProductName options content) as [[|x name]|] eqn:Hname;
    cbn [truthy negb]; try (left; eexists; reflexivity).
  destruct (parseRepo (repoUrl options)) as [target|t] eqn:Hrepo.
  2:{ right; left. exists t. apply run_bind_throw. reflexivity. }
  right. right. exists content, (x :: name), target.
  split; [reflexivity|]. split; [reflexivity|]. split; [exact Hname|].
  split; [discriminate|]. split; [reflexivity|].
  erewrite run_bind by reflexivity. reflexivity.
Qed.

(** X18. Every run of [publishPrd] returns a result, and what it has
    sent by then is the beginning of one plan, all of it addressed to
    one repository with the token of the options: the fetch of
    [registry.json] from the base branch, the creation of the branch
    from the base branch, the write of the document and the write of
    the registry on that branch, and the pull request from the branch
    into the base branch. A result that is no success carries a message
    and no pull request; a success is a dry run or has sent the whole
    plan. *)
Theorem publish_follows_the_plan (options : PublishOptions) (w : world) :
  exists res w' new github branchName prdPath prdContent prdMessage
         registryText registryMessage prTitle prBody,
    publishPrd H options w = (Ret res, w') /\
    requests w' = requests w ++ new /\
    new `prefix_of`
      plan github (or_else (baseBranch options) (js "main")) branchName prdPath
        prdContent prdMessage registryText registryMessage prTitle prBody /\
    token github = githubToken options /\
    (success res = false ->
     prUrl res = None /\ prNumber res = None /\ exists msg, error res = Some msg) /\
    (success res = true ->
     error res = None /\
     (dryRun_marker res = Some true \/
      new = plan github (or_else (baseBranch options) (js "main")) branchName prdPath
              prdContent prdMessage registryText registryMessage prTitle prBody)).
Proof.
  set (nobody := {| token := githubToken options; owner := []; repo := [] |}).
  assert (Hfail : forall msg : jsstring,
    (success (failure msg) = false ->
     prUrl (failure msg) = None /\ prNumber (failure msg) = None /\
     exists m, error (failure msg) = Some m) /\
    (success (failure msg) = true ->
     error (failure msg) = None /\
     (dryRun_marker (failure msg) = Some true \/
      [] = plan nobody (or_else (baseBranch options) (js "main")) [] [] [] [] [] [] [] []))).
  { intros msg. split; [intros _; cbn; eauto|discriminate]. }
  unfold publishPrd, try_catch.
  destruct (publish_steps_cases options w)
    as [(msg & ->)|[(t & ->)|(content & name & target & _ & _ & _ & _ & _ & ->)]].
  - exists (failure msg), w, [], nobody, [], [], [], [], [], [], [], [].
    split; [reflexivity|]. split; [rewrite app_nil_r; reflexivity|].
    split; [apply prefix_nil|]. split; [reflexivity|]. apply Hfail.
  - eexists (failure _), w, [], nobody, [], [], [], [], [], [], [], [].
    split; [reflexivity|]. split; [rewrite app_nil_r; reflexivity|].
    split; [apply prefix_nil|]. split; [reflexivity|]. apply Hfail.
  - destruct (publish_to_cases options content name (github_of options target) w)
      as (new & out & w' & isUpdate & branchName & text & -> & Hlog & Hpre & Hout).
    destruct out as [res|t].
    + exists res, w', new, (github_of options target). do 8 eexists.
      split; [reflexivity|]. split; [exact Hlog|]. split; [exact Hpre|].
      split; [reflexivity|].
      destruct Hout as [(_ & -> & _)|(_ & (pr & ->) & _ & _ & ->)].
      * split; [discriminate|]. intros _. split; [reflexivity|left; reflexivity].
      * split; [discriminate|]. intros _. split; [reflexivity|right; reflexivity].
    + eexists (failure _), w', new, (github_of options target). do 8 eexists.
      split; [reflexivity|]. split; [exact Hlog|]. split; [exact Hpre|].
      split; [reflexivity|].
      split; [intros _; cbn; eauto|discriminate].
Qed.


(** X17. What [publishPrd] turns down before it sends or reads
    anything remote, each with its message and with the world as it
    was: a document that is not valid, a document without a name when
    none is given, and a repository reference without a slash. *)
Theorem rejected_before_the_first_request (options : PublishOptions) (w : world) :
  (valid (validatePrdFile H (file options)) = false ->
   publishPrd H options w
   = (Ret (failure (js "PRD validation failed: "
                    ++ join (js ", ") (errors (validatePrdFile H (file options))))),
      w)) /\
  (forall content,
     valid (validatePrdFile H (file options)) = true ->
     readFileSync H (file options) = Ret content ->
     truthy (resolveProductName options content) = false ->
     publishPrd H options w
     = (Ret (failure (js "Could not extract product name from PRD. Provide --name or ensure PRD starts with "
                      ++ quote ++ js "# PRD: <name>" ++ quote)), w)) /\
  (forall content,
     valid (validatePrdFile H (file options)) = true ->
     readFileSync H (file options) = Ret content ->
     truthy (resolveProductName options content) = true ->
     includes (js "/") (repoUrl options) = false ->
     publishPrd H options w
     = (Ret (failure (js "Invalid repo format: " ++ repoUrl options ++ js ". Use "
                      ++ quote ++ js "owner/repo" ++ quote
                      ++ js " or full GitHub URL")), w)).
Proof.
  unfold publishPrd, try_catch, publish_steps. split; [|split].
  - intros ->. reflexivity.
  - intros content -> Hread Hname. cbn [negb]. rewrite Hread.
    erewrite run_bind by reflexivity. cbn beta. rewrite Hname. reflexivity.
  - intros content -> Hread Hname Hslash. cbn [negb]. rewrite Hread.
    erewrite run_bind by reflexivity. cbn beta. rewrite Hname. cbn [negb].
    pose proof (parseRepo_outcome (repoUrl options)) as Hcases.
    destruct (parseRepo (repoUrl options)) as [[o r]|e].
    + destruct Hcases as [Hs _]. congruence.
    + destruct Hcases as [_ ->]. erewrite run_bind_throw by reflexivity. reflexivity.
Qed.

End WithHost.

End Sent.
Import Sent.

(** ** A registry that parses but holds no array of items *)

Module Shapeless.

Lemma grown_lookup (h : list cell) (l : loc) (x c d e b : cell) :
  h !! l = Some x ->
  (<[length h := c]> ((h ++ [b]) ++ [d]) ++ [e]) !! l = Some x.
Proof.
  intros Hl. eapply final_old; [apply lookup_alloc; exact Hl|].
  apply lookup_lt_Some in Hl. lia.
Qed.

Section WithHost.

Variable H : Host.

(** The upsert makes an array of its own, and the test that follows
    still reads the registry that has none. *)
Lemma classification_throws (w : world) (registry entry held : val)
    (p n : jsstring) :
  get_prop (heap w) registry (js "items") = Ret held ->
  as_array (heap w) held = None ->
  (forall l, held = VRef l -> exists c, heap w !! l = Some c) ->
  (forall l, registry = VRef l -> exists c, heap w !! l = Some c) ->
  exists r' w' why,
    upsertRegistry H registry entry w = (Ret r', w') /\
    requests w' = requests w /\
    registry_items_some registry p n w' = (Throw (JsTypeError why), w').
Proof.
  intros Hg Ha Hheld Hreg.
  pose proof (fresh_run H w registry entry held Hg Ha) as Hrun. cbn zeta in Hrun.
  cbn [heap] in Hrun.
  eexists _, _. 
  assert (Hsame : forall l x, heap w !! l = Some x ->
            forall c d e, (<[length (heap w) := c]> ((heap w ++ [CArr []]) ++ [d]) ++ [e]) !! l
                          = Some x).
  { intros l x Hl c d e. apply grown_lookup. exact Hl. }
  match type of Hrun with
  | _ = (_, World ?h' _ _) =>
      assert (Hg' : get_prop h' registry (js "items") = Ret held)
  end.
  { destruct registry as [| | | | |l]; try exact Hg.
    destruct (Hreg l eq_refl) as (c & Hl).
    unfold get_prop in *. rewrite (Hsame _ _ Hl). rewrite Hl in Hg. exact Hg. }
  match type of Hrun with
  | _ = (_, World ?h' _ _) =>
      assert (Ha' : as_array h' held = None)
  end.
  { destruct held as [| | | | |l]; try reflexivity.
    destruct (Hheld l eq_refl) as (c & Hl).
    unfold as_array in *. rewrite (Hsame _ _ Hl). rewrite Hl in Ha. exact Ha. }
  destruct held as [| | | | |l] eqn:Eheld.
  1-2: (eexists; split; [exact Hrun|]; split; [reflexivity|];
        unfold registry_items_some, reading; cbn [heap];
        rewrite Hg'; reflexivity).
  all: (eexists; split; [exact Hrun|]; split; [reflexivity|];
        unfold registry_items_some, reading; cbn [heap];
        rewrite Hg'; cbn [mbind outcome_bind]; rewrite Ha'; reflexivity).
Qed.

Lemma upsert_null (entry : val) (w : world) :
  upsertRegistry H VNull entry w
  = (Throw (JsTypeError (ReadOfNullish (js "items"))), w).
Proof. reflexivity. Qed.

Lemma build_scalar (j : json) (v : val) (w : world) :
  alloc_json j (heap w) = (v, heap w) -> build j w = (Ret v, w).
Proof. intros Ha. unfold build. rewrite Ha. destruct w. reflexivity. Qed.

(** What the built registry is when there is no array of items. *)
Lemma built_without_items (j : json) (w : world) :
  has_items_array j = false ->
  (j = JNull /\ build j w = (Ret VNull, w)) \/
  exists registry w1 held,
    build j w = (Ret registry, w1) /\
    requests w1 = requests w /\
    (forall ext, get_prop (heap w1 ++ ext) registry (js "items") = Ret held) /\
    (forall ext, as_array (heap w1 ++ ext) held = None) /\
    (forall l, held = VRef l -> exists c, heap w1 !! l = Some c) /\
    (forall l, registry = VRef l -> exists c, heap w1 !! l = Some c).
Proof.
  intros Hshape. destruct j as [|b|n|s|elems|members].
  - left. split; [reflexivity|]. apply build_scalar. reflexivity.
  - right. exists (VBool b), w, VUndef. split; [apply build_scalar; reflexivity|].
    repeat split; try reflexivity; intros; discriminate.
  - right. exists (VNum n), w, VUndef. split; [apply build_scalar; reflexivity|].
    repeat split; try reflexivity; intros; discriminate.
  - right. exists (VStr s), w, VUndef. split; [apply build_scalar; reflexivity|].
    repeat split; try reflexivity; intros; discriminate.
  - right. destruct (alloc_json (JArr elems) (heap w)) as [v h1] eqn:Halloc.
    destruct (alloc_json_kind _ _ _ _ Halloc) as [_ (l & vs & -> & Hl & _)].
    exists (VRef l), (World h1 (clock_reads w) (requests w)), VUndef.
    split; [unfold build; rewrite Halloc; reflexivity|]. cbn [heap requests].
    split; [reflexivity|]. split; [|split; [|split]].
    + intros ext. unfold get_prop. rewrite (lookup_app_l_Some _ _ _ _ Hl). reflexivity.
    + reflexivity.
    + discriminate.
    + intros l' [= <-]. eauto.
  - right. destruct (alloc_object members (heap w))
      as (r & rps & h1 & Halloc & _ & Hr & Hkeys & Hget).
    exists (VRef r), (World h1 (clock_reads w) (requests w)),
      (default VUndef (obj_get (js "items") rps)).
    split; [unfold build; rewrite Halloc; reflexivity|]. cbn [heap requests].
    split; [reflexivity|].
    cbn [has_items_array] in Hshape. apply negb_false_iff in Hshape.
    unfold no_items_array in Hshape. specialize (Hget (js "items")).
    split; [|split; [|split]].
    + intros ext. unfold get_prop. rewrite (lookup_app_l_Some _ _ _ _ Hr). reflexivity.
    + intros ext. destruct (member (js "items") members) as [x|].
      * destruct Hget as (u & -> & Hk). cbn [default from_option id].
        destruct x; cbn in Hk; try (subst u; reflexivity); try discriminate.
        destruct Hk as (l & ps & -> & Hl). cbn.
        rewrite (lookup_app_l_Some _ _ _ _ Hl). reflexivity.
      * rewrite Hget. reflexivity.
    + intros l Hheld. destruct (member (js "items") members) as [x|].
      * destruct Hget as (u & Hu & Hk). rewrite Hu in Hheld.
        cbn [default from_option id] in Hheld. subst u.
        destruct x; cbn in Hk; try discriminate.
        destruct Hk as (l' & ps & [= <-] & Hl). eauto.
      * rewrite Hget in Hheld. discriminate.
    + intros l [= <-]. eauto.
Qed.

Lemma prepare_throws (options : PublishOptions) (name : jsstring)
    (rc : option jsstring) (j : json) (w : world) :
  truthy rc = true ->
  JSON_parse H (default [] rc) = Some j ->
  has_items_array j = false ->
  exists why w',
    prepare H options name rc w = (Throw (JsTypeError why), w') /\
    requests w' = requests w.
Proof.
  intros Htruthy Hparse Hshape. unfold prepare.
  rewrite load_is_build. unfold loaded. rewrite Htruthy, Hparse.
  cbn [default from_option id].
  destruct (built_without_items j w Hshape)
    as [[-> Hbuild]|(registry & w1 & held & Hbuild & Hlog & Hg & Ha & Hheld & Hreg)].
  - erewrite run_bind by exact Hbuild.
    erewrite run_bind by reflexivity. erewrite run_bind by reflexivity.
    eexists _, _. split; [apply run_bind_throw; apply upsert_null|reflexivity].
  - erewrite run_bind by exact Hbuild.
    erewrite run_bind by reflexivity. erewrite run_bind by reflexivity.
    match goal with
    | |- exists _ _, (upsertRegistry H registry ?e ≫= _) ?w3 = _ /\ _ =>
        destruct (classification_throws w3 registry e held
                    (prdPath_of H options name) name)
          as (r' & w' & why & Hup & Hlog' & Hsome)
    end.
    + cbn [heap]. rewrite <- app_assoc. apply Hg.
    + cbn [heap]. rewrite <- app_assoc. apply Ha.
    + intros l Hl. destruct (Hheld l Hl) as (c & Hc). exists c. cbn [heap].
      rewrite <- app_assoc. apply lookup_app_l_Some. exact Hc.
    + intros l Hl. destruct (Hreg l Hl) as (c & Hc). exists c. cbn [heap].
      rewrite <- app_assoc. apply lookup_app_l_Some. exact Hc.
    + erewrite run_bind by exact Hup.
      exists why, w'. split; [apply run_bind_throw; exact Hsome|].
      rewrite Hlog'. cbn [requests]. exact Hlog.
Qed.

Lemma publish_steps_reaches (options : PublishOptions) (w : world)
    (content name : jsstring) (target : jsstring * jsstring) :
  valid (validatePrdFile H (file options)) = true ->
  readFileSync H (file options) = Ret content ->
  resolveProductName options content = Some name -> name <> [] ->
  parseRepo (repoUrl options) = Ret target ->
  publish_steps H options w
  = publish_to H options content name (github_of options target) w.
Proof.
  intros Hvalid Hread Hname Hne Hrepo. unfold publish_steps.
  rewrite Hvalid, Hread. cbn [negb].
  erewrite run_bind by reflexivity. cbn beta. rewrite Hname.
  destruct name as [|x name]; [contradiction|]. cbn [truthy negb].
  rewrite Hrepo. erewrite run_bind by reflexivity. reflexivity.
Qed.

(** X20. When the text of [registry.json] parses to anything but an
    object whose [items] member is an array, [publishPrd] fails with
    the message of a TypeError, dry run or not, and has sent nothing
    but the fetch of the registry. *)
Theorem a_registry_without_items_fails_the_publish
    (options : PublishOptions) (w : world) (content name : jsstring)
    (target : jsstring * jsstring) (rc : option jsstring) (j : json) :
  valid (validatePrdFile H (file options)) = true ->
  readFileSync H (file options) = Ret content ->
  resolveProductName options content = Some name -> name <> [] ->
  parseRepo (repoUrl options) = Ret target ->
  remote_getFile H (requests w) (github_of options target) (js "registry.json")
    (or_else (baseBranch options) (js "main")) = Ret rc ->
  truthy rc = true ->
  JSON_parse H (default [] rc) = Some j ->
  has_items_array j = false ->
  exists why w',
    publishPrd H options w = (Ret (failure (type_error_message H why)), w') /\
    requests w' = requests w ++
      [Request (github_of options target)
         (GetFile (js "registry.json") (or_else (baseBranch options) (js "main")))].
Proof.
  intros Hvalid Hread Hname Hne Hrepo Hfetch Htruthy Hparse Hshape.
  unfold publishPrd, try_catch.
  rewrite (publish_steps_reaches options w content name target) by assumption.
  rewrite publish_to_factored.
  erewrite run_bind by (unfold getFile, send; rewrite Hfetch; reflexivity).
  match goal with
  | |- context [(prepare H options name rc ≫= _) ?w1] =>
      destruct (prepare_throws options name rc j w1 Htruthy Hparse Hshape)
        as (why & w' & Hprep & Hlog)
  end.
  erewrite run_bind_throw by exact Hprep.
  exists why, w'. split; [reflexivity|]. exact Hlog.
Qed.

End WithHost.

End Shapeless.
Import Shapeless.

(** ** The client of the repository *)

Module ClientProps.

Import Client ClientObserve.

Ltac run_api :=
  cbv beta iota delta [attempt mbind Api_bind request lift mret Api_ret raise
                       repos_get_call git_getRef_call git_createRef_call
                       repos_getContent_call repos_createOrUpdateFileContents_call
                       pulls_create_call fst snd].

Lemma new_Error_status (msg : jsstring) (n : Z) : has_status (new_Error msg) n = false.
Proof. reflexivity. Qed.

Section WithRuntime.

Variable R : Runtime.
Variable this : GitHubClient.

Lemma getFile_run (path : jsstring) (ref : option jsstring) (log : list api_call) :
  getFile R this path ref log =
  (match repos_getContent (octokit this) log (client_owner this)
           (client_repo this) path ref with
   | Done data =>
       match content data, encoding data with
       | Some c, Some enc =>
           match buffer_decode R c enc with
           | Done decoded => Done (Some decoded)
           | Failed e => read_caught this e
           end
       | _, _ => Done None
       end
   | Failed e => read_caught this e
   end,
   log ++ [ReposGetContent (client_owner this) (client_repo this) path ref]).
Proof.
  unfold getFile, read_caught. run_api.
  destruct (repos_getContent _ _ _ _ _ _) as [data|e].
  - destruct (content data) as [c|]; [|reflexivity].
    destruct (encoding data) as [enc|]; [|reflexivity].
    destruct (buffer_decode R c enc) as [decoded|e]; [reflexivity|].
    destruct (has_status e 404); [reflexivity|].
    destruct (has_status e 403 || has_status e 401); reflexivity.
  - destruct (has_status e 404); [reflexivity|].
    destruct (has_status e 403 || has_status e 401); reflexivity.
Qed.

(** X22. [getFile] makes one call. It answers the decoded text when the
    call gives a content with its encoding, and nothing when the answer
    has no content or no encoding or when what failed has status 404; a
    failure with status 401 or 403 is thrown again as an error that
    tells that the permission was denied for this repository and ends
    with the description of the failure, and any other failure as it
    is. *)
Theorem getFile_outcomes (path : jsstring) (ref : option jsstring)
    (log : list api_call) :
  let answer := repos_getContent (octokit this) log (client_owner this)
                  (client_repo this) path ref in
  let failed := fun e =>
    answer = Failed e \/
    exists data c enc, answer = Done data /\ content data = Some c /\
                       encoding data = Some enc /\ buffer_decode R c enc = Failed e in
  snd (getFile R this path ref log)
  = log ++ [ReposGetContent (client_owner this) (client_repo this) path ref] /\
  match fst (getFile R this path ref log) with
  | Done (Some decoded) =>
      exists data c enc, answer = Done data /\ content data = Some c /\
                         encoding data = Some enc /\
                         buffer_decode R c enc = Done decoded
  | Done None =>
      (exists data, answer = Done data /\
                    (content data = None \/ encoding data = None)) \/
      (exists e, failed e /\ has_status e 404 = true)
  | Failed thrown =>
      exists e, failed e /\ has_status e 404 = false /\
                thrown = (if has_status e 403 || has_status e 401
                          then new_Error (read_denied this e) else e) /\
                has_status thrown 404 = false
  end.
Proof.
  intros answer failed. rewrite getFile_run. fold answer. cbn [fst snd].
  split; [reflexivity|].
  assert (Hcatch : forall e, failed e ->
    match read_caught this e with
    | Done (Some decoded) =>
        exists data c enc, answer = Done data /\ content data = Some c /\
                           encoding data = Some enc /\
                           buffer_decode R c enc = Done decoded
    | Done None =>
        (exists data, answer = Done data /\
                      (content data = None \/ encoding data = None)) \/
        (exists e, failed e /\ has_status e 404 = true)
    | Failed thrown =>
        exists e, failed e /\ has_status e 404 = false /\
                  thrown = (if has_status e 403 || has_status e 401
                            then new_Error (read_denied this e) else e) /\
                  has_status thrown 404 = false
    end).
  { intros e He. unfold read_caught. destruct (has_status e 404) eqn:H404.
    - right. exists e. auto.
    - destruct (has_status e 403 || has_status e 401) eqn:H403.
      + exists e. rewrite H403. auto.
      + exists e. rewrite H403. auto. }
  destruct answer as [data|e] eqn:Hanswer.
  - destruct (content data) as [c|] eqn:Hc.
    + destruct (encoding data) as [enc|] eqn:Henc.
      * destruct (buffer_decode R c enc) as [decoded|e] eqn:Hd.
        -- exists data, c, enc. auto.
        -- apply (Hcatch e). right. exists data, c, enc. auto.
      * left. exists data. auto.
    + left. exists data. auto.
  - apply (Hcatch e). left. reflexivity.
Qed.

Lemma createBranch_run (branchName baseBranch : jsstring) (log : list api_call) :
  let look := GitGetRef (client_owner this) (client_repo this)
                (js "heads/" ++ baseBranch) in
  createBranch this branchName baseBranch log =
  match git_getRef (octokit this) log (client_owner this) (client_repo this)
          (js "heads/" ++ baseBranch) with
  | Done baseSha =>
      (match git_createRef (octokit this) (log ++ [look]) (client_owner this)
               (client_repo this) (js "refs/heads/" ++ branchName) baseSha with
       | Done _ => Done tt
       | Failed e => branch_caught this e
       end,
       (log ++ [look])
       ++ [GitCreateRef (client_owner this) (client_repo this)
             (js "refs/heads/" ++ branchName) baseSha])
  | Failed e => (branch_caught this e, log ++ [look])
  end.
Proof.
  intros look. unfold createBranch, branch_caught. run_api. fold look.
  destruct (git_getRef _ _ _ _ _) as [baseSha|e].
  - destruct (git_createRef _ _ _ _ _ _) as [[]|e]; [reflexivity|].
    destruct (has_status e 403 || has_status e 404); reflexivity.
  - destruct (has_status e 403 || has_status e 404); reflexivity.
Qed.

Lemma branch_caught_status (e : error_value) :
  match branch_caught this e with
  | Done _ => False
  | Failed thrown =>
      thrown = (if has_status e 403 || has_status e 404
                then new_Error (branch_denied this e) else e) /\
      has_status thrown 403 = false /\ has_status thrown 404 = false
  end.
Proof.
  unfold branch_caught.
  destruct (has_status e 403) eqn:H403; cbn [orb]; [auto|].
  destruct (has_status e 404) eqn:H404; auto.
Qed.

(** X23. [createBranch] asks for the head of the base branch and, only
    when that is answered, creates [refs/heads/<branch>] at the commit
    it was given. It returns when both calls went through; what it
    throws is the failure of one of them, turned into an error with
    the advice on permissions when its status is 403 or 404, and never
    carries one of these two statuses itself. *)
Theorem createBranch_outcomes (branchName baseBranch : jsstring)
    (log : list api_call) :
  let look := GitGetRef (client_owner this) (client_repo this)
                (js "heads/" ++ baseBranch) in
  let head := git_getRef (octokit this) log (client_owner this) (client_repo this)
                (js "heads/" ++ baseBranch) in
  let created := fun baseSha =>
    git_createRef (octokit this) (log ++ [look]) (client_owner this)
      (client_repo this) (js "refs/heads/" ++ branchName) baseSha in
  snd (createBranch this branchName baseBranch log)
  = log ++ look :: match head with
                   | Done baseSha =>
                       [GitCreateRef (client_owner this) (client_repo this)
                          (js "refs/heads/" ++ branchName) baseSha]
                   | Failed _ => []
                   end /\
  match fst (createBranch this branchName baseBranch log) with
  | Done _ => exists baseSha, head = Done baseSha /\ created baseSha = Done tt
  | Failed thrown =>
      exists e,
        (head = Failed e \/ exists baseSha, head = Done baseSha /\
                                            created baseSha = Failed e) /\
        thrown = (if has_status e 403 || has_status e 404
                  then new_Error (branch_denied this e) else e) /\
        has_status thrown 403 = false /\ has_status thrown 404 = false
  end.
Proof.
  intros look head created. rewrite createBranch_run. fold look. fold head.
  destruct head as [baseSha|e] eqn:Hhead.
  - cbn [fst snd]. split; [rewrite <- app_assoc; reflexivity|].
    fold (created baseSha).
    destruct (created baseSha) as [[]|e] eqn:Hc.
    + exists baseSha. auto.
    + pose proof (branch_caught_status e) as Hs.
      destruct (branch_caught this e) as [|thrown]; [contradiction|].
      exists e. split; [right; exists baseSha; auto|exact Hs].
  - cbn [fst snd]. split; [reflexivity|].
    pose proof (branch_caught_status e) as Hs.
    destruct (branch_caught this e) as [|thrown]; [contradiction|].
    exists e. split; [left; reflexivity|exact Hs].
Qed.

Lemma createOrUpdateFile_run (path text message branch : jsstring)
    (log : list api_call) :
  let look := ReposGetContent (client_owner this) (client_repo this) path
                (Some branch) in
  let write := fun found =>
    (match repos_createOrUpdateFileContents (octokit this) (log ++ [look])
             (client_owner this) (client_repo this) path message
             (buffer_base64 R text) branch found with
     | Done _ => Done tt
     | Failed e => write_caught this e
     end,
     (log ++ [look])
     ++ [ReposCreateOrUpdateFileContents (client_owner this) (client_repo this)
           path message (buffer_base64 R text) branch found]) in
  createOrUpdateFile R this path text message branch log =
  match repos_getContent (octokit this) log (client_owner this) (client_repo this)
          path (Some branch) with
  | Done data => write (sha data)
  | Failed e =>
      if has_status e 404 then write None
      else (write_caught this e, log ++ [look])
  end.
Proof.
  intros look write. unfold write, createOrUpdateFile, write_caught. run_api. fold look.
  destruct (repos_getContent _ _ _ _ _ _) as [data|e].
  - destruct (repos_createOrUpdateFileContents _ _ _ _ _ _ _ _ _) as [[]|e];
      [reflexivity|].
    destruct (has_status e 403 || has_status e 404); reflexivity.
  - destruct (has_status e 404) eqn:H404; cbn [negb].
    + destruct (repos_createOrUpdateFileContents _ _ _ _ _ _ _ _ _) as [[]|e'];
        [reflexivity|].
      destruct (has_status e' 403 || has_status e' 404); reflexivity.
    + rewrite H404, orb_false_r.
      destruct (has_status e 403); reflexivity.
Qed.

Lemma write_caught_status (e : error_value) :
  match write_caught this e with
  | Done _ => False
  | Failed thrown =>
      thrown = (if has_status e 403 || has_status e 404
                then new_Error (write_denied this e) else e) /\
      has_status thrown 403 = false /\ has_status thrown 404 = false
  end.
Proof.
  unfold write_caught.
  destruct (has_status e 403) eqn:H403; cbn [orb]; [auto|].
  destruct (has_status e 404) eqn:H404; auto.
Qed.

(** X24. [createOrUpdateFile] looks the file up on the branch and then
    writes it, the text in base64: with the [sha] of the file found
    when the lookup is answered, without one when the lookup fails with
    status 404; when the lookup fails otherwise nothing is written. It
    returns when the write went through, and what it throws never
    carries status 403 or 404. *)
Theorem createOrUpdateFile_outcomes (path text message branch : jsstring)
    (log : list api_call) :
  let look := ReposGetContent (client_owner this) (client_repo this) path
                (Some branch) in
  let found := repos_getContent (octokit this) log (client_owner this)
                 (client_repo this) path (Some branch) in
  let written := fun s =>
    repos_createOrUpdateFileContents (octokit this) (log ++ [look])
      (client_owner this) (client_repo this) path message
      (buffer_base64 R text) branch s in
  let carried :=
    match found with
    | Done data => Some (sha data)
    | Failed e => if has_status e 404 then Some None else None
    end in
  snd (createOrUpdateFile R this path text message branch log)
  = log ++ look :: match carried with
                   | Some s =>
                       [ReposCreateOrUpdateFileContents (client_owner this)
                          (client_repo this) path message (buffer_base64 R text)
                          branch s]
                   | None => []
                   end /\
  match fst (createOrUpdateFile R this path text message branch log) with
  | Done _ => exists s, carried = Some s /\ written s = Done tt
  | Failed thrown =>
      has_status thrown 403 = false /\ has_status thrown 404 = false /\
      exists e,
        ((carried = None /\ found = Failed e) \/
         (exists s, carried = Some s /\ written s = Failed e)) /\
        thrown = (if has_status e 403 || has_status e 404
                  then new_Error (write_denied this e) else e)
  end.
Proof.
  intros look found written carried. rewrite createOrUpdateFile_run.
  fold look. fold found.
  assert (Hwrite : forall s, carried = Some s ->
    snd (match written s with
         | Done _ => Done tt
         | Failed e => write_caught this e
         end,
         (log ++ [look])
         ++ [ReposCreateOrUpdateFileContents (client_owner this) (client_repo this)
               path message (buffer_base64 R text) branch s])
    = log ++ look :: [ReposCreateOrUpdateFileContents (client_owner this)
                        (client_repo this) path message (buffer_base64 R text)
                        branch s] /\
    match fst (match written s with
               | Done _ => Done tt
               | Failed e => write_caught this e
               end,
               (log ++ [look])
               ++ [ReposCreateOrUpdateFileContents (client_owner this)
                     (client_repo this) path message (buffer_base64 R text)
                     branch s]) with
    | Done _ => exists s, carried = Some s /\ written s = Done tt
    | Failed thrown =>
        has_status thrown 403 = false /\ has_status thrown 404 = false /\
        exists e,
          ((carried = None /\ found = Failed e) \/
           (exists s, carried = Some s /\ written s = Failed e)) /\
          thrown = (if has_status e 403 || has_status e 404
                    then new_Error (write_denied this e) else e)
    end).
  { intros s Hs. cbn [fst snd]. split; [rewrite <- app_assoc; reflexivity|].
    destruct (written s) as [[]|e] eqn:Hw.
    - exists s. auto.
    - pose proof (write_caught_status e) as Hst.
      destruct (write_caught this e) as [|thrown]; [contradiction|].
      destruct Hst as (Hthrown & H3 & H4). split; [exact H3|]. split; [exact H4|].
      exists e. split; [right; exists s; auto|exact Hthrown]. }
  unfold carried in *. destruct found as [data|e] eqn:Hfound.
  - apply Hwrite. reflexivity.
  - destruct (has_status e 404) eqn:H404.
    + apply Hwrite. reflexivity.
    + cbn [fst snd]. split; [reflexivity|].
      pose proof (write_caught_status e) as Hst.
      destruct (write_caught this e) as [|thrown]; [contradiction|].
      destruct Hst as (Hthrown & H3 & H4). split; [exact H3|]. split; [exact H4|].
      exists e. split; [left; auto|exact Hthrown].
Qed.

Lemma verifyAccess_run (log : list api_call) :
  verifyAccess this log =
  match repos_get (octokit this) log (client_owner this) (client_repo this) with
  | Done _ =>
      (Done match git_getRef (octokit this)
                    (log ++ [ReposGet (client_owner this) (client_repo this)])
                    (client_owner this) (client_repo this) (js "heads/main") with
            | Done _ => {| hasRead := true; hasWrite := true; access_error := None |}
            | Failed error =>
                if has_status error 403 then
                  {| hasRead := true; hasWrite := false;
                     access_error := Some (js "Token lacks write permissions") |}
                else
                  {| hasRead := true; hasWrite := false;
                     access_error := message error |}
            end,
       (log ++ [ReposGet (client_owner this) (client_repo this)])
       ++ [GitGetRef (client_owner this) (client_repo this) (js "heads/main")])
  | Failed error =>
      (Done (if has_status error 404 then
               {| hasRead := false; hasWrite := false;
                  access_error := Some (js "Repository " ++ full_name this
                                        ++ js " not found or not accessible") |}
             else if has_status error 401 || has_status error 403 then
               {| hasRead := false; hasWrite := false;
                  access_error :=
                    Some (js "Token is invalid or lacks required permissions") |}
             else
               {| hasRead := false; hasWrite := false;
                  access_error := Some match message error with
                                       | Some (c :: s) => c :: s
                                       | _ => js "Unknown error"
                                       end |}),
       log ++ [ReposGet (client_owner this) (client_repo this)])
  end.
Proof.
  unfold verifyAccess. run_api.
  destruct (repos_get _ _ _ _) as [b|e].
  - destruct (git_getRef _ _ _ _ _) as [s|e]; [reflexivity|].
    destruct (has_status e 403); reflexivity.
  - destruct (has_status e 404); [reflexivity|].
    destruct (has_status e 401 || has_status e 403); reflexivity.
Qed.

(** X21. [verifyAccess] never throws and never writes. It asks for the
    repository and, only when that is answered, for the head of
    [main]; it reports read access exactly when the first call is
    answered and write access exactly when both are, so never write
    access without read access; and it reports an error whenever the
    repository cannot be read, and none when both calls are answered. *)
Theorem verifyAccess_outcomes (log : list api_call) :
  let first := repos_get (octokit this) log (client_owner this) (client_repo this) in
  let second := git_getRef (octokit this)
                  (log ++ [ReposGet (client_owner this) (client_repo this)])
                  (client_owner this) (client_repo this) (js "heads/main") in
  exists access new,
    verifyAccess this log = (Done access, log ++ new) /\
    existsb is_write_call new = false /\
    new = ReposGet (client_owner this) (client_repo this)
          :: match first with
             | Done _ => [GitGetRef (client_owner this) (client_repo this)
                            (js "heads/main")]
             | Failed _ => []
             end /\
    (hasRead access = true <-> exists b, first = Done b) /\
    (hasWrite access = true <-> (exists b, first = Done b) /\ exists s, second = Done s) /\
    (hasWrite access = true -> hasRead access = true) /\
    (hasWrite access = true -> access_error access = None) /\
    (hasRead access = false -> exists msg, access_error access = Some msg).
Proof.
  intros first second. rewrite verifyAccess_run. fold first. fold second.
  destruct first as [b|e] eqn:Hfirst.
  - eexists _, [_; _]. split; [rewrite <- app_assoc; reflexivity|].
    split; [reflexivity|]. split; [reflexivity|].
    destruct second as [s|e] eqn:Hsecond.
    + cbn. repeat split; eauto; discriminate.
    + destruct (has_status e 403); cbn;
        (split; [split; eauto|]);
        (split; [split; [discriminate|intros [_ [s Hs]]; discriminate]|]);
        repeat split; discriminate.
  - eexists _, [_]. split; [reflexivity|]. split; [reflexivity|].
    split; [reflexivity|].
    destruct (has_status e 404); [|destruct (has_status e 401 || has_status e 403)];
      cbn;
      (split; [split; [discriminate|intros [b Hb]; discriminate]|]);
      (split; [split; [discriminate|intros [[b Hb] _]; discriminate]|]);
      (split; [discriminate|]); (split; [discriminate|]); intros _; eauto.
Qed.

Lemma api_bind_done {A B : Type} (c : Api A) (f : A -> Api B)
    (log log' : list api_call) (b : B) :
  (c ≫= f) log = (Done b, log') ->
  exists a log1, c log = (Done a, log1) /\ f a log1 = (Done b, log').
Proof.
  unfold mbind, Api_bind. destruct (c log) as [[a|e] log1]; [eauto|discriminate].
Qed.

Lemma createBranch_done (branchName baseBranch : jsstring) (log log' : list api_call) :
  createBranch this branchName baseBranch log = (Done tt, log') ->
  exists baseSha,
    log' = log ++ [ GitGetRef (client_owner this) (client_repo this)
                      (js "heads/" ++ baseBranch);
                    GitCreateRef (client_owner this) (client_repo this)
                      (js "refs/heads/" ++ branchName) baseSha ].
Proof.
  rewrite createBranch_run. cbv zeta.
  destruct (git_getRef _ _ _ _ _) as [baseSha|e].
  - intros [= _ <-]. exists baseSha. rewrite <- app_assoc. reflexivity.
  - intros [= Hc _]. pose proof (branch_caught_status e) as Hs.
    rewrite Hc in Hs. contradiction.
Qed.

Lemma createOrUpdateFile_done (path text message branch : jsstring)
    (log log' : list api_call) :
  createOrUpdateFile R this path text message branch log = (Done tt, log') ->
  exists found, log' = log ++ file_calls R this branch (path, text, message) found.
Proof.
  rewrite createOrUpdateFile_run. cbv zeta.
  destruct (repos_getContent _ _ _ _ _ _) as [data|e].
  - intros [= _ <-]. exists (sha data). rewrite <- app_assoc. reflexivity.
  - destruct (has_status e 404).
    + intros [= _ <-]. exists None. rewrite <- app_assoc. reflexivity.
    + intros [= Hc _]. pose proof (write_caught_status e) as Hs.
      rewrite Hc in Hs. contradiction.
Qed.

Lemma write_all_done (branch : jsstring) (files : list (jsstring * jsstring * jsstring)) :
  forall log log',
    write_all R this branch files log = (Done tt, log') ->
    exists found, length found = length files /\
                  log' = log ++ files_calls R this branch files found.
Proof.
  induction files as [|[[path text] message] files IH]; intros log log' Hrun.
  - injection Hrun as <-. exists []. rewrite app_nil_r. auto.
  - cbn [write_all] in Hrun. unfold mbind, Api_bind in Hrun.
    destruct (createOrUpdateFile R this path text message branch log)
      as [[[]|e] log1] eqn:Hone; [|discriminate].
    apply createOrUpdateFile_done in Hone as (s & ->).
    apply IH in Hrun as (found & Hlen & ->).
    exists (s :: found). cbn [length files_calls]. rewrite Hlen, <- app_assoc. auto.
Qed.

(** X25. When [createPR] returns, it has asked for the default branch,
    created the branch at the head of the default branch, looked up and
    written every file of the parameters on that branch, in their
    order, and opened the pull request from the branch into the default
    branch as its last call; the result is the number and the URL of
    that pull request. *)
Theorem createPR_done (params : CreatePRParams) (log log' : list api_call) (pr : PR) :
  createPR R this params log = (Done pr, log') ->
  exists defaultBranch baseSha found data,
    repos_get (octokit this) log (client_owner this) (client_repo this)
    = Done defaultBranch /\
    length found = length (pr_files params) /\
    log' = log
      ++ [ ReposGet (client_owner this) (client_repo this);
           GitGetRef (client_owner this) (client_repo this)
             (js "heads/" ++ defaultBranch);
           GitCreateRef (client_owner this) (client_repo this)
             (js "refs/heads/" ++ pr_branch params) baseSha ]
      ++ files_calls R this (pr_branch params) (pr_files params) found
      ++ [ PullsCreate (client_owner this) (client_repo this) (pr_title params)
             (pr_body params) (pr_branch params) defaultBranch ] /\
    pulls_create (octokit this) (removelast log') (client_owner this)
      (client_repo this) (pr_title params) (pr_body params) (pr_branch params)
      defaultBranch = Done data /\
    pr = {| pr_number := pull_number data; pr_url := html_url data |}.
Proof.
  intros Hrun. unfold createPR in Hrun.
  apply api_bind_done in Hrun as (defaultBranch & log1 & Hget & Hrun).
  apply api_bind_done in Hrun as ([] & log2 & Hbranch & Hrun).
  apply api_bind_done in Hrun as ([] & log3 & Hfiles & Hrun).
  unfold getDefaultBranch, repos_get_call, request in Hget.
  injection Hget as Hget <-.
  apply createBranch_done in Hbranch as (baseSha & ->).
  apply write_all_done in Hfiles as (found & Hlen & ->).
  unfold createPullRequest in Hrun.
  apply api_bind_done in Hrun as (data & log4 & Hpull & Hrun).
  unfold pulls_create_call, request in Hpull. injection Hpull as Hpull <-.
  injection Hrun as <- <-.
  exists defaultBranch, baseSha, found, data.
  split; [exact Hget|]. split; [exact Hlen|]. split.
  { rewrite <- !app_assoc. reflexivity. }
  split; [|reflexivity].
  rewrite removelast_last. exact Hpull.
Qed.

End WithRuntime.

End ClientProps.

(** ** The validation of the answers *)

Module AnswersProps.

Import Answers.

Lemma absent_false {A : Type} (value : option A) :
  absent value = false <-> exists x, value = Some x.
Proof.
  destruct value; cbn; split; eauto; try discriminate. intros [x Hx]. discriminate.
Qed.

Lemma absent_or_empty_false {A : Type} (value : option (list A)) :
  absent_or_empty value = false <-> exists x l, value = Some (x :: l).
Proof.
  destruct value as [[|x l]|]; cbn; split; eauto; try discriminate;
    intros (x' & l' & Hx); discriminate.
Qed.

Lemma entity_errors_none (es : list Entity) : forall index,
  entity_errors index es = [] <->
  Forall (fun e => blank (entity_name e) = false /\ blank (entity_id e) = false) es.
Proof.
  induction es as [|e es IH]; intros index; cbn [entity_errors].
  - split; auto.
  - destruct (blank (entity_name e) || blank (entity_id e)) eqn:Hb.
    + split; [discriminate|]. intros Hall. inversion Hall as [|? ? [H1 H2] _]; subst.
      rewrite H1, H2 in Hb. discriminate.
    + cbn [app]. rewrite IH. apply orb_false_elim in Hb.
      split; [intros Hall; constructor; assumption|].
      intros Hall. inversion Hall; assumption.
Qed.

Lemma missing_none (a : PrdAnswers) :
  missing (validateAnswers a) = [] <->
  Forall (fun kb => snd kb = false) (required a).
Proof.
  unfold validateAnswers. cbn [missing].
  generalize (required a). intros l. induction l as [|[k b] l IH]; cbn.
  - split; auto.
  - destruct b; cbn.
    + split; [discriminate|]. intros Hall. inversion Hall. discriminate.
    + rewrite IH. split; [intros; constructor; auto|]. intros Hall. inversion Hall; auto.
Qed.

Lemma ok_true (a : PrdAnswers) :
  ok (validateAnswers a) = true <->
  missing (validateAnswers a) = [] /\ errors (validateAnswers a) = [].
Proof.
  unfold validateAnswers. cbn [ok missing errors].
  destruct (map fst _); [|split; [discriminate|intros [? _]; discriminate]].
  destruct (_ ++ _); [split; auto|split; [discriminate|intros [_ ?]; discriminate]].
Qed.

Lemma errors_none (a : PrdAnswers) :
  errors (validateAnswers a) = [] <->
  match entities a with
  | Some es => Forall (fun e => blank (entity_name e) = false
                                /\ blank (entity_id e) = false) es
  | None => True
  end /\
  match primary_time a with
  | Some t => blank (time_field t) = false
  | None => True
  end /\
  match freshness_backfill a with
  | Some f => blank (cadence f) = false
  | None => True
  end.
Proof.
  unfold validateAnswers. cbn [errors].
  rewrite !app_nil.
  assert (H1 : match entities a with Some es => entity_errors 0 es | None => [] end = []
               <-> match entities a with
                   | Some es => Forall (fun e => blank (entity_name e) = false
                                                 /\ blank (entity_id e) = false) es
                   | None => True
                   end).
  { destruct (entities a); [apply entity_errors_none|split; auto]. }
  rewrite H1.
  destruct (primary_time a) as [t|]; destruct (freshness_backfill a) as [f|];
    repeat match goal with
           | |- context [blank ?x] => destruct (blank x)
           end;
    intuition discriminate.
Qed.

(** X26. [validateAnswers] answers [ok] exactly for the answers in which
    every required key holds something (an array at least one element),
    every entity has a name and an identifier that are not empty, the
    primary time a field and the freshness a cadence that are not
    empty. An empty string under [product_name] or [grain] counts as
    held. *)
Theorem validateAnswers_ok (a : PrdAnswers) :
  ok (validateAnswers a) = true <-> complete a.
Proof.
  rewrite ok_true, missing_none, errors_none. unfold required, complete.
  rewrite !Forall_cons, Forall_nil. cbn [snd].
  rewrite !absent_false, !absent_or_empty_false.
  split.
  - intros ((Hn & Hg & Hc & Hgr & He & Hp & Hd & Hm & Hme & Hs & Hf & _) & Hes & Ht & Hfr).
    destruct He as (x & l & He). rewrite He in Hes.
    destruct Hp as (t & Hp). rewrite Hp in Ht.
    destruct Hf as (f & Hf). rewrite Hf in Hfr.
    repeat (split; [assumption|]). split; [exists x, l; auto|].
    split; [exists t; auto|]. repeat (split; [assumption|]). exists f; auto.
  - intros (Hn & Hg & Hc & Hgr & (x & l & He & Hes) & (t & Hp & Ht) & Hd & Hm & Hme & Hs
            & (f & Hf & Hfr)).
    rewrite He, Hp, Hf. split; [|auto].
    repeat (split; [eauto|]). exact I.
Qed.

Lemma js_inj (s t : string) : js s = js t -> s = t.
Proof.
  unfold js. intros Heq.
  apply (f_equal (map ascii_of_N)) in Heq.
  rewrite !List.map_map in Heq.
  rewrite !(List.map_ext _ (fun a => a) ascii_N_embedding), !List.map_id in Heq.
  apply (f_equal string_of_list_ascii) in Heq.
  rewrite !string_of_list_ascii_of_string in Heq. exact Heq.
Qed.

Lemma to_uint_nonnil (n : nat) : Nat.to_uint n <> Decimal.Nil.
Proof.
  intros Hn. assert (n = 0) as ->.
  { rewrite <- (DecimalNat.Unsigned.of_to n), Hn. reflexivity. }
  discriminate Hn.
Qed.

Lemma index_key_inj (i j : nat) : index_key i = index_key j -> i = j.
Proof.
  unfold index_key. intros Heq. apply js_inj in Heq.
  apply (f_equal NilZero.uint_of_string) in Heq.
  rewrite !NilZero.usu in Heq by apply to_uint_nonnil.
  injection Heq as Heq. apply (f_equal Nat.of_uint) in Heq.
  rewrite !DecimalNat.Unsigned.of_to in Heq. exact Heq.
Qed.

Lemma entity_error_inj (i j : nat) : entity_error i = entity_error j -> i = j.
Proof.
  unfold entity_error. intros [= Hf _].
  try apply app_inv_head in Hf. apply app_inv_tail in Hf. apply index_key_inj. exact Hf.
Qed.

Lemma entity_errors_in (es : list Entity) : forall index i,
  In (entity_error i) (entity_errors index es) <->
  exists k e, i = index + k /\ es !! k = Some e /\
              blank (entity_name e) || blank (entity_id e) = true.
Proof.
  induction es as [|e es IH]; intros index i; cbn [entity_errors].
  - split; [intros []|intros (k & e & _ & Hk & _); discriminate].
  - rewrite in_app_iff, IH. split.
    + intros [Hhere|(k & e' & -> & Hk & Hb)].
      * destruct (blank (entity_name e) || blank (entity_id e)) eqn:Hb; [|destruct Hhere].
        destruct Hhere as [Heq|[]]. apply entity_error_inj in Heq. subst i.
        exists 0, e. rewrite Nat.add_0_r. auto.
      * exists (S k), e'. split; [lia|]. auto.
    + intros ([|k] & e' & -> & Hk & Hb).
      * injection Hk as <-. left. rewrite Hb, Nat.add_0_r. left. reflexivity.
      * right. exists k, e'. split; [lia|]. auto.
Qed.

(** X27. The errors of [validateAnswers] name the entities by their
    place: the error of [entities[i]] is among them exactly when the
    entities are given and the one in place [i] has no name or no
    identifier, or an empty one. *)
Theorem validateAnswers_names_the_entity (a : PrdAnswers) (i : nat) :
  In (entity_error i) (errors (validateAnswers a)) <->
  exists es e, entities a = Some es /\ es !! i = Some e /\
               blank (entity_name e) || blank (entity_id e) = true.
Proof.
  unfold validateAnswers. cbn [errors]. rewrite !in_app_iff.
  assert (Hother : forall f m, f <> field (entity_error i) ->
            ~ In (entity_error i) [ {| field := f; message := m |} ]).
  { intros f m Hne [Heq|[]]. apply Hne. rewrite <- Heq. reflexivity. }
  split.
  - intros [Hent|[Htime|Hfresh]].
    + destruct (entities a) as [es|]; [|destruct Hent].
      apply entity_errors_in in Hent as (k & e & -> & Hk & Hb). exists es, e. auto.
    + exfalso. destruct (primary_time a) as [t|]; [|destruct Htime].
      destruct (blank (time_field t)); [|destruct Htime].
      revert Htime. apply Hother. discriminate.
    + exfalso. destruct (freshness_backfill a) as [f|]; [|destruct Hfresh].
      destruct (blank (cadence f)); [|destruct Hfresh].
      revert Hfresh. apply Hother. discriminate.
  - intros (es & e & -> & Hk & Hb). left. apply entity_errors_in.
    exists i, e. auto.
Qed.

End AnswersProps.

(** ** The command line *)

Module CliProps.

Import Cli.

Lemma stops_drop_while (p : N -> bool) (s : jsstring) :
  stops p s = true -> drop_while p s = s.
Proof.
  destruct s as [|x s]; [reflexivity|]. cbn. intros Hx.
  apply negb_true_iff in Hx. rewrite Hx. reflexivity.
Qed.

Lemma trim_fixed (s : jsstring) : trimmed s = true -> trim s = s.
Proof.
  unfold trimmed, trim. intros Ht. apply andb_prop in Ht as [H1 H2].
  rewrite (stops_drop_while is_space s H1), (stops_drop_while is_space (rev s) H2).
  apply rev_involutive.
Qed.

Lemma split_join (ts : list jsstring) :
  ts <> [] -> Forall (fun t => no_comma t = true) ts ->
  split 44 (join [44%N] ts) = ts.
Proof.
  induction ts as [|t ts IH]; intros Hne Hall; [contradiction|].
  inversion Hall as [|? ? Ht Hts]; subst. unfold no_comma in Ht.
  apply negb_true_iff in Ht.
  destruct ts as [|u ts].
  - cbn [join]. apply split_clean. exact Ht.
  - change (join [44%N] (t :: u :: ts)) with (t ++ 44%N :: join [44%N] (u :: ts)).
    rewrite split_app by exact Ht. rewrite IH; [reflexivity|discriminate|exact Hts].
Qed.

Lemma split_no_comma (s : jsstring) :
  Forall (fun t => no_comma t = true) (split 44 s).
Proof.
  pose proof (split_parts 44 s) as Hparts.
  induction Hparts as [|t ts Ht _ IH]; constructor; [|exact IH].
  unfold no_comma. rewrite Ht. reflexivity.
Qed.

Lemma trim_no_comma (t : jsstring) : no_comma t = true -> no_comma (trim t) = true.
Proof.
  unfold no_comma. rewrite !negb_true_iff. intros Ht.
  assert (Hall : forallb (fun c => negb (N.eqb 44 c)) t = true).
  { rewrite forallb_forall. intros x Hx. apply negb_true_iff.
    destruct (N.eqb 44 x) eqn:E; [|reflexivity].
    assert (existsb (N.eqb 44) t = true) by (apply existsb_exists; eauto). congruence. }
  apply (trim_sub _ t) in Hall.
  destruct (existsb (N.eqb 44) (trim t)) eqn:E; [|reflexivity].
  apply existsb_exists in E as (x & Hx & Hx').
  rewrite forallb_forall in Hall. specialize (Hall x Hx). rewrite Hx' in Hall.
  discriminate.
Qed.

(** X28. The tags of the command line: without the option, or with an
    empty one, there are none; otherwise every tag that is kept is
    trimmed, not empty and without a comma, and a list of such tags,
    joined by commas, comes back as it was. *)
Theorem parseTags_gives_clean_tags (tags : option jsstring) :
  match parseTags tags with
  | Some ts =>
      truthy tags = true /\
      Forall (fun t => t <> [] /\ trimmed t = true /\ no_comma t = true) ts
  | None => truthy tags = false
  end /\
  forall ts, ts <> [] ->
    Forall (fun t => t <> [] /\ trimmed t = true /\ no_comma t = true) ts ->
    parseTags (Some (join (js ",") ts)) = Some ts.
Proof.
  split.
  - unfold parseTags. destruct (truthy tags); [|reflexivity]. split; [reflexivity|].
    pose proof (split_no_comma (default [] tags)) as Hparts.
    induction Hparts as [|t ts Ht _ IH]; [constructor|].
    cbn [map List.filter]. destruct (trim t) as [|x u] eqn:Htrim; [exact IH|].
    constructor; [|exact IH]. rewrite <- Htrim.
    split; [rewrite Htrim; discriminate|]. split; [apply trimmed_trim|].
    apply trim_no_comma. exact Ht.
  - intros ts Hne Hall. unfold parseTags.
    assert (Hjoin : truthy (Some (join (js ",") ts)) = true).
    { destruct ts as [|t ts]; [contradiction|].
      inversion Hall as [|? ? (Ht & _) _]; subst.
      destruct t as [|x t]; [contradiction|]. destruct ts; reflexivity. }
    rewrite Hjoin. cbn [default from_option id]. f_equal.
    change (js ",") with [44%N]. rewrite split_join.
    + clear Hne Hjoin.
      induction Hall as [|t ts' (Ht & Htr & _) _ IH]; [reflexivity|].
      cbn [map List.filter]. rewrite (trim_fixed t Htr).
      destruct t as [|x t]; [contradiction|]. rewrite IH. reflexivity.
    + exact Hne.
    + eapply Forall_impl; [exact Hall|]. intros t (_ & _ & Hc). exact Hc.
Qed.

Section WithHost.

Variable H : Host.
Variable S : System.

Lemma publishPrd_returns (options : PublishOptions) (w : world) :
  exists res w', publishPrd H options w = (Ret res, w').
Proof.
  unfold publishPrd, try_catch.
  destruct (publish_steps H options w) as [[res|t] w']; eauto.
Qed.

Lemma report_status (res : PublishResult) :
  exit_status (report S res) = if success res then None else Some 1%Z.
Proof.
  unfold report. destruct (success res); [|reflexivity].
  destruct (default false (dryRun_marker res)); reflexivity.
Qed.

(** X29. The action of the command never throws. It exits with status
    1 or runs to its end; it runs to its end exactly when a token is
    set, the document exists and [publishPrd], called with the token
    of [VULCAN_PRD_GITHUB_TOKEN] if that is set and not empty and of
    [GITHUB_TOKEN] otherwise, answers with a success. Without a token
    or without the document nothing is done but printing to the error
    output. *)
Theorem action_exit_status (env : Env) (options : CliOptions) (w : world) :
  let token := first_truthy (VULCAN_PRD_GITHUB_TOKEN env) (GITHUB_TOKEN env) in
  let there := existsSync S (resolve S (opt_file options)) in
  exists run w',
    action H S env options w = (Ret run, w') /\
    (exit_status run = None \/ exit_status run = Some 1%Z) /\
    (exit_status run = None <->
     exists githubToken res w1,
       token = Some githubToken /\ there = true /\
       publishPrd H (publish_options H S options githubToken) w = (Ret res, w1) /\
       success res = true) /\
    (token = None \/ there = false ->
     w' = w /\ Forall (fun line => fst line = Error) (printed run)).
Proof.
  intros token there. unfold action. fold token. fold there.
  destruct token as [githubToken|] eqn:Htoken.
  - destruct there eqn:Hthere; cbn [negb].
    + destruct (publishPrd_returns (publish_options H S options githubToken) w)
        as (res & w1 & Hrun).
      erewrite run_bind by exact Hrun. cbn zeta.
      eexists _, w1. split; [reflexivity|]. cbn [exit_status].
      rewrite report_status. split; [destruct (success res); auto|]. split.
      * split.
        -- intros Hs. exists githubToken, res, w1. repeat split; auto.
           destruct (success res); [reflexivity|discriminate].
        -- intros (t & res' & w1' & [= <-] & _ & Hrun' & Hs).
           rewrite Hrun in Hrun'. injection Hrun' as <- <-. rewrite Hs. reflexivity.
      * intros [Hc|Hc]; discriminate.
    + eexists _, w. split; [reflexivity|]. cbn [exit_status printed].
      split; [auto|]. split.
      * split; [discriminate|]. intros (t & res & w1 & _ & Hc & _). discriminate.
      * intros _. split; [reflexivity|]. repeat constructor.
  - eexists _, w. split; [reflexivity|]. cbn [exit_status printed].
    split; [auto|]. split.
    + split; [discriminate|]. intros (t & res & w1 & Hc & _). discriminate.
    + intros _. split; [reflexivity|]. repeat constructor.
Qed.

End WithHost.

End CliProps.

(** ** The name of the branch *)

Module BranchName.

Lemma colon_dot_scan (s : jsstring) : forall prev,
  replace_scan false re_colon_dot (js "-") prev 0 s = map dashed s.
Proof.
  induction s as [|c s IH]; intros prev; [reflexivity|].
  cbn [map]. unfold dashed at 1. cbn.
  destruct (N.eqb c 58 || N.eqb c 46) eqn:E.
  - unfold step. cbn [after].
    replace (S (length s) - length s) with 1 by lia.
    cbn. f_equal. apply IH.
  - f_equal. apply IH.
Qed.

Lemma dashed_plain (s : jsstring) :
  forallb (fun c => negb (N.eqb c 58 || N.eqb c 46)) (map dashed s) = true.
Proof.
  induction s as [|c s IH]; [reflexivity|].
  cbn [map forallb]. rewrite IH, andb_true_r. unfold dashed.
  destruct (N.eqb c 58 || N.eqb c 46) eqn:E; [reflexivity|].
  rewrite E. reflexivity.
Qed.

Section WithHost.

Variable H : Host.

(** X14. [generateBranchName] reads the clock once and changes nothing
    else. The name is [prd/], the domain as given, a slash, the slug of
    the product name, a hyphen and the reading of the clock in which
    every colon and every full stop has become a hyphen, all other
    units kept in their places: the stamp has the length of the
    reading and holds no colon and no full stop. *)
Theorem branch_name_stamp (domain productName : jsstring) (w : world) :
  let stamp := map dashed (clock H (clock_reads w)) in
  generateBranchName H domain productName w
  = (Ret (js "prd/" ++ domain ++ js "/"
          ++ sanitizeFilename (toLowerCase H) productName ++ js "-" ++ stamp),
     World (heap w) (S (clock_reads w)) (requests w)) /\
  length stamp = length (clock H (clock_reads w)) /\
  forallb (fun c => negb (N.eqb c 58 || N.eqb c 46)) stamp = true.
Proof.
  intros stamp. split; [|split].
  - unfold generateBranchName, now, replace_g, mbind, mret, M_bind, M_ret.
    rewrite colon_dot_scan. reflexivity.
  - apply length_map.
  - apply dashed_plain.
Qed.

End WithHost.

End BranchName.

(** ** The document that is accepted, the remote that is detected *)

Module Accepted.

Lemma strip_suffix_nil (suffix s : jsstring) :
  strip_suffix suffix s = [] -> s = [] \/ JsString.eqb s suffix = true.
Proof.
  destruct s as [|x s]; [left; reflexivity|]. cbn [strip_suffix].
  destruct (JsString.eqb (x :: s) suffix); [right; reflexivity|discriminate].
Qed.

Lemma normalized_nonempty (remote : jsstring) :
  remote <> [] ->
  exists x url, normalizeRepoUrl (Some remote) = Some (x :: url).
Proof.
  intros Hne. rewrite (normalize_nonempty remote Hne).
  destruct (if startsWith (js "git@") remote
            then exec false re_ssh_remote remote else None) as [cs|].
  - eexists _, _. cbn [js app]. reflexivity.
  - destruct (startsWith (js "https://") remote) eqn:Hs.
    + rewrite strip_git.
      destruct (strip_suffix (js ".git") remote) as [|x url] eqn:E; [|eauto].
      apply strip_suffix_nil in E as [->|E]; [contradiction|].
      apply startsWith_inv in Hs as (t & ->). cbn in E. discriminate E.
    + destruct remote as [|x url]; [contradiction|eauto].
Qed.

Section WithHost.

Variable H : Host.


(** X2. A document that [validatePrdFile] accepts and that holds no
    opening of a comment has a product name: [extractProductName] does
    not answer [null] for it. *)
Theorem a_valid_document_has_a_name (path content : jsstring) :
  valid (validatePrdFile H path) = true ->
  readFileSync H path = Ret content ->
  includes (js "<!--") content = false ->
  exists name, extractProductName content = Some name.
Proof.
  intros Hv Hread Hno. apply valid_inv in Hv as (content' & Hread' & Htest).
  rewrite Hread in Hread'. injection Hread' as <-.
  apply heading_gives_a_name; assumption.
Qed.

(** X10. The repository detected from the git remote,
    [normalizeRepoUrl(getGitRemoteUrl())]: it is [null] exactly when
    the git command fails or prints nothing but white space, and
    otherwise it is a string that is not empty. *)
Theorem detected_remote :
  match normalizeRepoUrl (getGitRemoteUrl H) with
  | Some url =>
      url <> [] /\
      exists out, git_config_remote H = Ret out /\ trim out <> []
  | None => forall out, git_config_remote H = Ret out -> trim out = []
  end.
Proof.
  unfold getGitRemoteUrl.
  destruct (git_config_remote H) as [out|e].
  - destruct (trim out) as [|x t] eqn:Ht.
    + cbn. intros out' E. injection E as <-. exact Ht.
    + destruct (normalized_nonempty (x :: t) ltac:(discriminate)) as (y & url & Hn).
      unfold jsstring in Hn |- *. rewrite Hn.
      split; [discriminate|]. exists out. rewrite Ht. split; [reflexivity|discriminate].
  - cbn. intros out E. discriminate E.
Qed.

End WithHost.

End Accepted.

(** ** The slug of a name *)

Module Slugs.

(** X5. The slug [sanitizeFilename] gives, for any name and any
    [toLowerCase]: at most 100 units, never empty, lower-case letters,
    digits and hyphens only, no hyphen at the start, no two hyphens in a
    row; no hyphen at the end when nothing was cut at 100 units; and the
    fixed slug [data-product-prd] when the name holds no letter or digit
    after lowering. *)
Theorem slug_shape (toLowerCase : jsstring -> jsstring) (name : jsstring) :
  length (sanitizeFilename toLowerCase name) <= 100 /\
  sanitizeFilename toLowerCase name <> [] /\
  forallb is_safe (sanitizeFilename toLowerCase name) = true /\
  starts_with_hyphen (sanitizeFilename toLowerCase name) = false /\
  no_double (sanitizeFilename toLowerCase name) = true /\
  (length (uncut toLowerCase name) <= 100 ->
   ends_with_hyphen (sanitizeFilename toLowerCase name) = false) /\
  (clean toLowerCase name = [] ->
   sanitizeFilename toLowerCase name = fallback_slug).
Proof. apply Slug.sanitize_shape. Qed.

(** X6. A name that already is a slug is its own slug: not empty, at most
    100 units, lower-case letters, digits and hyphens only, no hyphen at
    either end, no two hyphens in a row, and left alone by
    [toLowerCase]. *)
Theorem slug_of_a_slug (toLowerCase : jsstring -> jsstring) (t : jsstring) :
  toLowerCase t = t -> t <> [] -> length t <= 100 ->
  forallb is_safe t = true -> starts_with_hyphen t = false ->
  ends_with_hyphen t = false -> no_double t = true ->
  sanitizeFilename toLowerCase t = t.
Proof. apply Slug.sanitize_fixed. Qed.

(** X7. When the cleaned name is not cut (it has at most 100 units before
    [substring]) and [toLowerCase] leaves lower-case letters, digits and
    hyphens alone, the slug of the slug is the slug. *)
Theorem slug_twice_when_not_cut
    (toLowerCase : jsstring -> jsstring) (name : jsstring) :
  (forall t, forallb is_safe t = true -> toLowerCase t = t) ->
  length (uncut toLowerCase name) <= 100 ->
  sanitizeFilename toLowerCase (sanitizeFilename toLowerCase name)
  = sanitizeFilename toLowerCase name.
Proof. apply Slug.sanitize_idempotent_when_not_cut. Qed.

End Slugs.

(** ** The theorems at concrete inputs *)

Module Instances.

Import Examples Samples.

Lemma lower_safe (t : jsstring) : forallb is_safe t = true -> lower t = t.
Proof.
  induction t as [|c t IH]; [reflexivity|]. cbn [forallb]. intros Hs.
  apply andb_prop in Hs as [Hc Ht]. unfold lower in *. cbn [map].
  rewrite (IH Ht). f_equal. unfold ascii_lower.
  destruct (is_upper c) eqn:Hu; [|reflexivity]. exfalso.
  unfold is_safe, is_alnum, is_lower, is_digit, is_hyphen, hyphen, is_upper,
    in_range in *.
  apply andb_prop in Hu as [H1 H2].
  apply N.leb_le in H1, H2.
  repeat (apply orb_prop in Hc as [Hc|Hc]).
  - apply andb_prop in Hc as [H3 H4]. apply N.leb_le in H3, H4. lia.
  - apply andb_prop in Hc as [H3 H4]. apply N.leb_le in H3, H4. lia.
  - apply N.eqb_eq in Hc. lia.
Qed.

Lemma a_valid_document_has_a_name_witness :
  exists name, extractProductName document = Some name.
Proof.
  apply (Accepted.a_valid_document_has_a_name first_publish (js "docs/prd.md") document);
    vm_compute; reflexivity.
Defined.

Lemma extracted_name_witness :
  trimmed title = true /\ one_line title = true.
Proof.
  apply (extracted_name document title). vm_compute. reflexivity.
Defined.

Lemma name_of_title_witness :
  extractProductName (js "# PRD: " ++ title ++ below_title) = Some (trim title).
Proof.
  apply (name_of_title title below_title);
    try (vm_compute; reflexivity). vm_compute. discriminate.
Defined.

Lemma slug_of_a_slug_witness :
  sanitizeFilename lower (js "test-data-product") = js "test-data-product".
Proof.
  apply (Slugs.slug_of_a_slug lower (js "test-data-product"));
    try (vm_compute; reflexivity); try (vm_compute; lia). vm_compute. discriminate.
Defined.

Lemma slug_twice_when_not_cut_witness :
  sanitizeFilename lower (sanitizeFilename lower title) = sanitizeFilename lower title.
Proof.
  apply (Slugs.slug_twice_when_not_cut lower title); [exact lower_safe|].
  vm_compute. lia.
Defined.

Lemma normalize_ssh_witness :
  normalizeRepoUrl (Some (js "git@github.com:" ++ js "gnyanee97" ++ js "/"
                          ++ js "vulcan-prd-cli" ++ js ".git"))
  = Some (js "https://github.com/" ++ js "gnyanee97" ++ js "/" ++ js "vulcan-prd-cli").
Proof.
  apply (normalize_ssh (js "gnyanee97") (js "vulcan-prd-cli") (js ".git"));
    try (vm_compute; reflexivity); try (vm_compute; discriminate).
  left. reflexivity.
Defined.

Lemma normalize_https_witness :
  normalizeRepoUrl (Some (js "https://github.com/gnyanee97/vulcan-prd-cli.git"))
  = Some (strip_suffix (js ".git") (js "https://github.com/gnyanee97/vulcan-prd-cli.git")).
Proof.
  apply (normalize_https (js "https://github.com/gnyanee97/vulcan-prd-cli.git")).
  vm_compute. reflexivity.
Defined.

Lemma parseRepo_shorthand_witness :
  parseRepo (js "gnyanee97" ++ js "/" ++ js "vulcan-prds.git")
  = Ret (js "gnyanee97", strip_suffix (js ".git") (js "vulcan-prds.git")).
Proof.
  apply (parseRepo_shorthand (js "gnyanee97") (js "vulcan-prds.git"));
    vm_compute; reflexivity.
Defined.

Lemma parseRepo_url_witness :
  parseRepo (js "https://github.com/" ++ js "gnyanee97" ++ js "/"
             ++ js "vulcan-prds" ++ js "/tree/main")
  = Ret (js "gnyanee97", strip_suffix (js ".git") (js "vulcan-prds")).
Proof.
  apply (parseRepo_url (js "gnyanee97") (js "vulcan-prds") (js "/tree/main"));
    try (vm_compute; reflexivity); vm_compute; discriminate.
Defined.


Lemma upsert_twice_adds_once_witness :
  exists r1 w1 vs1 r2 w2 vs2,
    upsertRegistry first_publish (registry_of (prepared one_entry bar_in_a))
      (VRef (entry_of (prepared one_entry bar_in_a)))
      (snd (prepared one_entry bar_in_a)) = (Ret r1, w1) /\
    items_of (heap w1) r1 = Some vs1 /\
    upsertRegistry first_publish r1 (VRef (entry_of (prepared one_entry bar_in_a))) w1
    = (Ret r2, w2) /\
    items_of (heap w2) r2 = Some vs2 /\
    length [VRef 0] <= length vs1 <= S (length [VRef 0]) /\
    length vs2 = length vs1.
Proof.
  apply (upsert_twice_adds_once first_publish
           (snd (prepared one_entry bar_in_a))
           (registry_of (prepared one_entry bar_in_a))
           (entry_of (prepared one_entry bar_in_a)) (bar_in_a 3) [VRef 0]);
    vm_compute; reflexivity.
Defined.


Lemma a_registry_without_items_fails_the_publish_witness :
  exists why w',
    publishPrd bare_registry (publish_request false) nothing
    = (Ret (failure (type_error_message bare_registry why)), w') /\
    requests w' = requests nothing ++
      [Request (github_of (publish_request false) (js "gnyanee97", js "vulcan-prds"))
         (GetFile (js "registry.json")
            (or_else (baseBranch (publish_request false)) (js "main")))].
Proof.
  apply (a_registry_without_items_fails_the_publish bare_registry
           (publish_request false) nothing document title
           (js "gnyanee97", js "vulcan-prds") (Some (js "{}")) (JObj []));
    try (vm_compute; reflexivity). vm_compute. discriminate.
Defined.

Lemma createPR_done_witness :
  exists defaultBranch baseSha found data,
    Client.repos_get (Client.octokit central) [] (Client.client_owner central)
      (Client.client_repo central) = Client.Done defaultBranch /\
    length found = length (Client.pr_files one_file) /\
    snd (Client.createPR plain central one_file []) = []
      ++ [ Client.ReposGet (Client.client_owner central) (Client.client_repo central);
           Client.GitGetRef (Client.client_owner central) (Client.client_repo central)
             (js "heads/" ++ defaultBranch);
           Client.GitCreateRef (Client.client_owner central)
             (Client.client_repo central)
             (js "refs/heads/" ++ Client.pr_branch one_file) baseSha ]
      ++ ClientObserve.files_calls plain central (Client.pr_branch one_file)
           (Client.pr_files one_file) found
      ++ [ Client.PullsCreate (Client.client_owner central)
             (Client.client_repo central) (Client.pr_title one_file)
             (Client.pr_body one_file) (Client.pr_branch one_file) defaultBranch ] /\
    Client.pulls_create (Client.octokit central)
      (removelast (snd (Client.createPR plain central one_file [])))
      (Client.client_owner central) (Client.client_repo central)
      (Client.pr_title one_file) (Client.pr_body one_file)
      (Client.pr_branch one_file) defaultBranch = Client.Done data /\
    {| Client.pr_number := 7;
       Client.pr_url := js "https://github.com/gnyanee97/vulcan-prds/pull/7" |}
    = {| Client.pr_number := Client.pull_number data;
         Client.pr_url := Client.html_url data |}.
Proof.
  apply (ClientProps.createPR_done plain central one_file []
           (snd (Client.createPR plain central one_file []))
           {| Client.pr_number := 7;
              Client.pr_url := js "https://github.com/gnyanee97/vulcan-prds/pull/7" |}).
  vm_compute. reflexivity.
Defined.

End Instances.
